(** * Inter-rater reliability engine: a shallow embedding and its properties

    The development embeds the statistical functions of
    [Scripts/irr_calculator.py] (class [IRRCalculator]) and of
    [Scripts/human_irr_calculator.py] and proves what the specification says
    about them.

    Numbers.  A normalised rating is a Python [int] or [None]: [option Z].
    Python and numpy floats are modelled by exact rationals ([Qc], the
    canonical rationals, so that equality is Leibniz equality); rounding is
    outside the model.  Where the code can meet a float that is not a number
    (numpy division by zero, [NaN] coming from a file or from sklearn) the
    extended type [Py.npfloat] is used.  A statistic returns [option]:
    [None] is Python's [None], returned explicitly or by the
    [except Exception: return None] handler around the body. *)

From Stdlib Require Import QArith Qcanon Lqa.
From stdpp Require Import base list numbers sorting gmap strings pretty.

Local Open Scope Qc_scope.
Set Warnings "-clear-no-such-hyp".

(** ** Python numbers *)

Module Py.

Definition Qc_of_nat (n : nat) : Qc := Qc_of_Z (Z.of_nat n).

(** [a / b] on Python numbers inside a [try]: a zero divisor raises
    [ZeroDivisionError], which the handler turns into [None]. *)
Definition py_div (a b : Qc) : option Qc :=
  if decide (b = 0) then None else Some (a / b).

(** [sum(xs)]: a left fold starting from 0. *)
Definition py_sum (xs : list Qc) : Qc := foldl Qcplus 0 xs.

(** [sorted(set(xs))] on integers. *)
Definition sorted_set (xs : list Z) : list Z :=
  merge_sort Z.le (remove_dups xs).

(** A [for] loop over [xs] whose body updates the state [st] and may raise
    (inside a [try]): the first failure ends the loop with [None]. *)
Fixpoint for_loop {A S} (xs : list A) (st : S) (body : S → A → option S)
    : option S :=
  match xs with
  | [] => Some st
  | x :: rest => st' ← body st x; for_loop rest st' body
  end.

(** [range(lo, hi)] *)
Definition range (lo hi : nat) : list nat := seq lo (hi - lo).

(** [enumerate(xs)] *)
Definition enumerate {A} (xs : list A) : list (nat * A) :=
  zip (seq 0 (length xs)) xs.

(** *** numpy floats

    A numpy float is a rational, an infinity or NaN: numpy divides by zero
    without raising.  Signed zeros and rounding are not modelled. *)
Inductive npfloat : Type :=
  | Fin (x : Qc)
  | PInf
  | NInf
  | NaN.

Definition np_of_Z (z : Z) : npfloat := Fin (Qc_of_Z z).
Definition np_of_nat (n : nat) : npfloat := Fin (Qc_of_nat n).

Definition np_opp (a : npfloat) : npfloat :=
  match a with
  | Fin x => Fin (- x)
  | PInf => NInf
  | NInf => PInf
  | NaN => NaN
  end.

Definition np_add (a b : npfloat) : npfloat :=
  match a, b with
  | NaN, _ | _, NaN => NaN
  | Fin x, Fin y => Fin (x + y)
  | PInf, NInf | NInf, PInf => NaN
  | PInf, _ | _, PInf => PInf
  | NInf, _ | _, NInf => NInf
  end.

Definition np_sub (a b : npfloat) : npfloat := np_add a (np_opp b).

(** The infinity of the sign of [x], NaN for [x = 0]. *)
Definition np_signed_inf (x : Qc) (inf : npfloat) : npfloat :=
  if decide (x = 0) then NaN
  else if decide (0 < x) then inf else np_opp inf.

Definition np_mul (a b : npfloat) : npfloat :=
  match a, b with
  | NaN, _ | _, NaN => NaN
  | Fin x, Fin y => Fin (x * y)
  | Fin x, PInf | PInf, Fin x => np_signed_inf x PInf
  | Fin x, NInf | NInf, Fin x => np_signed_inf x NInf
  | PInf, PInf | NInf, NInf => PInf
  | PInf, NInf | NInf, PInf => NInf
  end.

Definition np_div (a b : npfloat) : npfloat :=
  match a, b with
  | NaN, _ | _, NaN => NaN
  | Fin x, Fin y =>
      if decide (y = 0) then np_signed_inf x PInf else Fin (x / y)
  | Fin _, (PInf | NInf) => Fin 0
  | (PInf | NInf), (PInf | NInf) => NaN
  | PInf, Fin y => if decide (0 ≤ y) then PInf else NInf
  | NInf, Fin y => if decide (0 ≤ y) then NInf else PInf
  end.

(** [a < b]; every comparison with NaN is false. *)
Definition np_ltb (a b : npfloat) : bool :=
  match a, b with
  | NaN, _ | _, NaN => false
  | Fin x, Fin y => bool_decide (x < y)
  | _, NInf => false
  | NInf, _ => true
  | PInf, _ => false
  | Fin _, PInf => true
  end.

(** [a == b] *)
Definition np_eqb (a b : npfloat) : bool :=
  match a, b with
  | Fin x, Fin y => bool_decide (x = y)
  | PInf, PInf | NInf, NInf => true
  | _, _ => false
  end.

(** [np.isnan(a)] *)
Definition np_isnan (a : npfloat) : bool :=
  match a with NaN => true | _ => false end.

Declare Scope np_scope.
Delimit Scope np_scope with np.
Bind Scope np_scope with npfloat.
Infix "+" := np_add : np_scope.
Infix "-" := np_sub : np_scope.
Infix "*" := np_mul : np_scope.
Infix "/" := np_div : np_scope.

(** [x ** 2] *)
Definition np_sq (a : npfloat) : npfloat := (a * a)%np.

(** [np.sum(xs)] *)
Definition np_sum (xs : list npfloat) : npfloat := foldl np_add (Fin 0) xs.

(** [np.mean(xs)] *)
Definition np_mean (xs : list npfloat) : npfloat :=
  (np_sum xs / np_of_nat (length xs))%np.

(** The builtins [min(a, b)] and [max(a, b)]: the first argument is kept
    unless the second is smaller (larger). *)
Definition py_min (a b : npfloat) : npfloat := if np_ltb b a then b else a.
Definition py_max (a b : npfloat) : npfloat := if np_ltb a b then b else a.

(** *** Exceptions *)

Inductive exn : Type := ValueError | TypeError | OverflowError.

(** The outcome of a computation that may raise. *)
Inductive outcome (A : Type) : Type :=
  | Returns (a : A)
  | Raises (e : exn).
Arguments Returns {A} a.
Arguments Raises {A} e.

Global Instance outcome_bind : MBind outcome := λ A B f o,
  match o with
  | Returns a => f a
  | Raises e => Raises e
  end.
Global Instance outcome_fmap : FMap outcome := λ A B f o,
  match o with
  | Returns a => Returns (f a)
  | Raises e => Raises e
  end.

(** A [for] loop whose body may raise an exception that is not caught. *)
Fixpoint for_each {A S} (xs : list A) (st : S) (body : S → A → outcome S)
    : outcome S :=
  match xs with
  | [] => Returns st
  | x :: rest => st' ← body st x; for_each rest st' body
  end.

(** *** Raw values *)

(** A value as it is read from a JSON, CSV or Excel file: [None], an [int],
    a [float] or a [str]. *)
Inductive raw : Type :=
  | RNone
  | RInt (z : Z)
  | RFloat (f : npfloat)
  | RStr (s : string).

(** [c.isspace()] on an ASCII character. *)
Definition py_isspace (c : Ascii.ascii) : bool :=
  let n := Ascii.nat_of_ascii c in
  bool_decide (9 ≤ n ≤ 13)%nat || bool_decide (28 ≤ n ≤ 32)%nat.

(** [s.strip() == ''] *)
Definition py_blank (s : string) : bool :=
  forallb py_isspace (String.list_ascii_of_string s).

(** What the code uses without defining it: Python builtins on strings and
    numbers, and scikit-learn. *)
Class Externals : Type := {
  (** [float(s)] on a string, [None] when it raises [ValueError], as it
      does on a string of white space. *)
  float_of_str : string → option npfloat;
  float_of_str_blank : ∀ s, py_blank s = true → float_of_str s = None;
  (** [str(z)] on an int and [str(f)] on a float. *)
  str_of_int : Z → string;
  str_of_float : npfloat → string;
  (** [sklearn.metrics.cohen_kappa_score]: [None] when scikit-learn is not
      installed; the function gives [None] when it raises. *)
  cohen_kappa_score : option (list Z → list Z → option npfloat);
}.

(** [float(v)] *)
Definition py_float `{Externals} (v : raw) : outcome npfloat :=
  match v with
  | RNone => Raises TypeError
  | RInt z => Returns (np_of_Z z)
  | RFloat f => Returns f
  | RStr s =>
      match float_of_str s with
      | Some f => Returns f
      | None => Raises ValueError
      end
  end.

(** The integer part of a rational, rounding towards zero. *)
Definition Qc_trunc (x : Qc) : Z := Z.quot (Qnum x) (Zpos (Qden x)).

(** [int(f)] on a float. *)
Definition py_int (f : npfloat) : outcome Z :=
  match f with
  | Fin x => Returns (Qc_trunc x)
  | NaN => Raises ValueError
  | PInf | NInf => Raises OverflowError
  end.

(** [str(v)] *)
Definition py_str `{Externals} (v : raw) : string :=
  match v with
  | RNone => "None"
  | RInt z => str_of_int z
  | RFloat f => str_of_float f
  | RStr s => s
  end.

(** [s.lower()] and [s.strip()] on ASCII strings. *)
Definition py_lower_char (c : Ascii.ascii) : Ascii.ascii :=
  let n := Ascii.nat_of_ascii c in
  if bool_decide (65 ≤ n ≤ 90)%nat then Ascii.ascii_of_nat (n + 32) else c.

Definition py_lower (s : string) : string :=
  String.string_of_list_ascii
    (py_lower_char <$> String.list_ascii_of_string s).

Fixpoint lstrip (cs : list Ascii.ascii) : list Ascii.ascii :=
  match cs with
  | c :: rest => if py_isspace c then lstrip rest else cs
  | [] => []
  end.

Definition py_strip (s : string) : string :=
  String.string_of_list_ascii
    (reverse (lstrip (reverse (lstrip (String.list_ascii_of_string s))))).

(** [a <= b] on strings: the order [sorted] uses. *)
Definition str_le (a b : string) : Prop := String.leb a b = true.
Global Instance str_le_dec : RelDecision str_le.
Proof. intros a b. unfold str_le. apply _. Defined.

(** [pd.isna(v)] on a scalar. *)
Definition pd_isna (v : raw) : bool :=
  match v with
  | RNone => true
  | RFloat f => np_isnan f
  | _ => false
  end.

End Py.

(** ** [irr_calculator.py]: the statistics of class [IRRCalculator] *)

Module IRRCalculator.
Import Py.

(** A normalised rating: [None] is Missing. *)
Abbreviation rating := (option Z) (only parsing).

(** [[(v1, v2) for v1, v2 in zip(values1, values2)
      if v1 is not None and v2 is not None]] *)
Definition valid_pairs (values1 values2 : list rating) : list (Z * Z) :=
  omap (λ p : rating * rating,
          match p with
          | (Some v1, Some v2) => Some (v1, v2)
          | _ => None
          end)
       (zip values1 values2).

(** [sum(1 for v1, v2 in pairs if v1 == v2)] *)
Definition count_matches (pairs : list (Z * Z)) : nat :=
  length (filter (λ p : Z * Z, p.1 = p.2) pairs).

Definition calculate_agreement (values1 values2 : list rating) : option Qc :=
  let valid := valid_pairs values1 values2 in
  if decide (length valid = 0%nat) then None
  else
    let matches := count_matches valid in
    Some (Qc_of_nat matches / Qc_of_nat (length valid)).

(** The loop [for cat in categories: pi_k[cat] = count / (2 * n)] filling
    the dictionary [pi_k]. *)
Fixpoint pooled_marginals (all_vals : list Z) (n : nat) (categories : list Z)
    (pi_k : gmap Z Qc) : option (gmap Z Qc) :=
  match categories with
  | [] => Some pi_k
  | cat :: rest =>
      let count := length (filter (λ v, v = cat) all_vals) in
      p ← py_div (Qc_of_nat count) (Qc_of_nat (2 * n));
      pooled_marginals all_vals n rest (<[cat := p]> pi_k)
  end.

(** [pi_k.values()] *)
Definition dict_values (d : gmap Z Qc) : list Qc := (map_to_list d).*2.

Definition calculate_gwet_ac1 (values1 values2 : list rating) : option Qc :=
  let valid := valid_pairs values1 values2 in
  if decide (length valid < 2)%nat then None
  else
    let v1 := valid.*1 in
    let v2 := valid.*2 in
    let n := length v1 in
    let matches := count_matches (zip v1 v2) in
    pa ← py_div (Qc_of_nat matches) (Qc_of_nat n);
    let all_vals := v1 ++ v2 in
    let categories := sorted_set all_vals in
    let q := length categories in
    if decide (q < 2)%nat then None
    else
      pi_k ← pooled_marginals all_vals n categories ∅;
      c ← py_div 1 (Qc_of_Z (Z.of_nat q - 1));
      let pe := c * py_sum ((λ pk, pk * (1 - pk)) <$> dict_values pi_k) in
      if decide (pe = 1) then None
      else py_div (pa - pe) (1 - pe).

(** [{v: i for i, v in enumerate(sorted_vals)}] *)
Definition rank_dict (sorted_vals : list Z) : gmap Z nat :=
  foldl (λ d iv, <[iv.2 := iv.1]> d) ∅ (enumerate sorted_vals).

(** The difference function [delta] chosen by [level]; the dictionary lookup
    [val_to_rank[a]] raises [KeyError] on an unknown value. *)
Definition delta (level : string) (all_values : list Z)
    : Z → Z → option Qc :=
  if decide (level = "nominal") then
    λ a b, Some (if decide (a = b) then 0 else 1)
  else if decide (level = "ordinal") then
    let sorted_vals := sorted_set all_values in
    let val_to_rank := rank_dict sorted_vals in
    λ a b,
      ra ← val_to_rank !! a;
      rb ← val_to_rank !! b;
      Some (Qc_of_Z ((Z.of_nat ra - Z.of_nat rb) ^ 2))
  else
    λ a b, Some (Qc_of_Z ((a - b) ^ 2)).

(** The double loop
    [for i in range(len(xs)): for j in range(i + 1, len(xs)):
       acc += delta(val(xs[i]), val(xs[j])); count += 1]
    on the state [(acc, count)]. *)
Definition pair_loop {A} (val : A → Z) (delta : Z → Z → option Qc)
    (xs : list A) (st : Qc * nat) : option (Qc * nat) :=
  for_loop (range 0 (length xs)) st (λ st i,
    for_loop (range (i + 1) (length xs)) st (λ st j,
      a ← xs !! i;
      b ← xs !! j;
      d ← delta (val a) (val b);
      Some (st.1 + d, S st.2))).

(** [[(i, v) for i, v in enumerate(row) if v is not None]] *)
Definition non_none_indexed (row : list rating) : list (nat * Z) :=
  omap (λ iv : nat * rating, v ← iv.2; Some (iv.1, v)) (enumerate row).

(** [[v for v in row if v is not None]] *)
Definition non_none (row : list rating) : list Z := omap id row.

Definition calculate_krippendorff_alpha (value_lists : list (list rating))
    (level : string) : option Qc :=
  first ← value_lists !! 0%nat;
  let n_subjects := length first in
  data ← mapM (λ i, mapM (λ vl : list rating, vl !! i) value_lists)
              (range 0 n_subjects);
  let valid_data :=
    filter (λ row, 2 ≤ length (non_none row))%nat data in
  if decide (length valid_data < 2)%nat then None
  else
    let all_values := valid_data ≫= non_none in
    if decide (length (remove_dups all_values) < 2)%nat then None
    else
      let delta := delta level all_values in
      st ← for_loop valid_data (0, 0%nat) (λ st row,
              let non_none := non_none_indexed row in
              if decide (length non_none < 2)%nat then Some st
              else pair_loop snd delta non_none st);
      let '(Do, total_pairs) := st in
      if decide (total_pairs = 0%nat) then None
      else
        Do ← py_div Do (Qc_of_nat total_pairs);
        st ← pair_loop id delta all_values (0, 0%nat);
        let '(De, total_expected_pairs) := st in
        if decide (total_expected_pairs = 0%nat) then None
        else
          De ← py_div De (Qc_of_nat total_expected_pairs);
          if decide (De = 0) then None
          else
            r ← py_div Do De;
            Some (1 - r).

(** [max(-1, min(1, icc))] *)
Definition clamp (icc : npfloat) : npfloat :=
  py_max (Fin (-1)) (py_min (Fin 1) icc).

(** ICC(2,1) for two raters.  The values are integers, so [pd.isna] is
    false on each of them. *)
Definition calculate_icc (values1 values2 : list rating) : option npfloat :=
  let valid := valid_pairs values1 values2 in
  if decide (length valid < 3)%nat then None
  else
    let v1 := np_of_Z <$> valid.*1 in
    let v2 := np_of_Z <$> valid.*2 in
    let n := length v1 in
    let mean_v1 := np_mean v1 in
    let mean_v2 := np_mean v2 in
    let grand_mean := ((mean_v1 + mean_v2) / Fin 2)%np in
    let row_means := zip_with (λ a b, (a + b) / Fin 2)%np v1 v2 in
    let MS_rows :=
      (Fin 2 * np_sum ((λ r, np_sq (r - grand_mean)) <$> row_means)
       / np_of_Z (Z.of_nat n - 1))%np in
    let MS_error :=
      (np_sum (zip_with (λ ab r, np_sq (ab.1 - r) + np_sq (ab.2 - r))%np
                        (zip v1 v2) row_means)
       / np_of_nat n)%np in
    let MS_cols :=
      (np_of_nat n * (np_sq (mean_v1 - grand_mean) +
                      np_sq (mean_v2 - grand_mean)))%np in
    if np_eqb (MS_rows + MS_error)%np (Fin 0) then None
    else
      let icc :=
        ((MS_rows - MS_error) /
         (MS_rows + MS_error + Fin 2 * (MS_cols - MS_error) / np_of_nat n))%np in
      Some (clamp icc).

(** [all(v is not None ...)] on a row, giving its values. *)
Definition all_present (row : list rating) : option (list Z) := mapM id row.

(** The columns of a matrix with [k] columns. *)
Definition columns {A} (k : nat) (data : list (list A)) : list (list A) :=
  (λ j, omap (λ row : list A, row !! j) data) <$> range 0 k.

(** ICC(2,1) for 3+ raters. *)
Definition calculate_icc_multi (value_lists : list (list rating))
    : option npfloat :=
  first ← value_lists !! 0%nat;
  let n := length first in
  rows ← mapM (λ i, mapM (λ vl : list rating, vl !! i) value_lists)
              (range 0 n);
  let valid_rows := omap all_present rows in
  if decide (length valid_rows < 3)%nat then None
  else
    let data := fmap np_of_Z <$> valid_rows in
    let n := length data in
    row0 ← data !! 0%nat;
    let k := length row0 in
    let grand_mean := np_mean (concat data) in
    let row_means := np_mean <$> data in
    let col_means := np_mean <$> columns k data in
    let SS_total := np_sum ((λ x, np_sq (x - grand_mean)) <$> concat data) in
    let SS_rows :=
      (np_of_nat k * np_sum ((λ r, np_sq (r - grand_mean)) <$> row_means))%np in
    let SS_cols :=
      (np_of_nat n * np_sum ((λ c, np_sq (c - grand_mean)) <$> col_means))%np in
    let SS_error := (SS_total - SS_rows - SS_cols)%np in
    let MS_rows := (SS_rows / np_of_Z (Z.of_nat n - 1))%np in
    let MS_cols :=
      if decide (1 < k)%nat then (SS_cols / np_of_Z (Z.of_nat k - 1))%np
      else Fin 0 in
    let MS_error :=
      if decide (0 < (Z.of_nat n - 1) * (Z.of_nat k - 1))%Z
      then (SS_error / np_of_Z ((Z.of_nat n - 1) * (Z.of_nat k - 1)))%np
      else Fin 0 in
    let denom :=
      (MS_rows + np_of_Z (Z.of_nat k - 1) * MS_error
       + np_of_nat k * (MS_cols - MS_error) / np_of_nat n)%np in
    if np_eqb denom (Fin 0) then None
    else
      let icc := ((MS_rows - MS_error) / denom)%np in
      Some (clamp icc).

(** [np.zeros((n, q))] *)
Definition zeros (n q : nat) : list (list npfloat) :=
  replicate n (replicate q (Fin 0)).

(** [counts[i, j] += 1]; an index out of range raises [IndexError]. *)
Definition increment (counts : list (list npfloat)) (i j : nat)
    : option (list (list npfloat)) :=
  row ← counts !! i;
  c ← row !! j;
  Some (<[i := <[j := (c + Fin 1)%np]> row]> counts).

(** The loop building the Subject x Category count matrix:
    [for i, row in enumerate(valid_rows): for val in row:
       counts[i, cat_idx[val]] += 1] *)
Definition count_matrix (valid_rows : list (list Z)) (cat_idx : gmap Z nat)
    (n q : nat) : option (list (list npfloat)) :=
  for_loop (enumerate valid_rows) (zeros n q) (λ counts ir,
    for_loop ir.2 counts (λ counts val,
      j ← cat_idx !! val;
      increment counts ir.1 j)).

Definition calculate_fleiss_kappa (ratings_matrix : list (list rating))
    : option npfloat :=
  let valid_rows := omap all_present ratings_matrix in
  if decide (length valid_rows < 2)%nat then None
  else
    let n := length valid_rows in
    row0 ← valid_rows !! 0%nat;
    let k := length row0 in
    let all_vals := concat valid_rows in
    let categories := sorted_set all_vals in
    let q := length categories in
    if decide (q < 2)%nat then None
    else
      let cat_idx := rank_dict categories in
      counts ← count_matrix valid_rows cat_idx n q;
      let p_j :=
        (λ col, np_sum col / np_of_nat (n * k))%np <$> columns q counts in
      let P_i :=
        (λ row, (np_sum (np_sq <$> row) - np_of_nat k)
                / np_of_Z (Z.of_nat k * (Z.of_nat k - 1)))%np <$> counts in
      let P_bar := np_mean P_i in
      let P_e := np_sum (np_sq <$> p_j) in
      if np_eqb P_e (Fin 1) then None
      else Some ((P_bar - P_e) / (Fin 1 - P_e))%np.

(** Gwet's AC1 for 3+ raters; a row holds the ratings of one subject. *)
Definition calculate_gwet_ac1_multi (ratings_matrix : list (list rating))
    : option npfloat :=
  let valid_rows := omap all_present ratings_matrix in
  if decide (length valid_rows < 2)%nat then None
  else
    let n := length valid_rows in
    row0 ← valid_rows !! 0%nat;
    let k := length row0 in
    let all_vals := concat valid_rows in
    let categories := sorted_set all_vals in
    let q := length categories in
    if decide (q < 2)%nat then None
    else
      let cat_idx := rank_dict categories in
      counts ← count_matrix valid_rows cat_idx n q;
      let P_i :=
        (λ row, (np_sum (np_sq <$> row) - np_of_nat k)
                / np_of_Z (Z.of_nat k * (Z.of_nat k - 1)))%np <$> counts in
      let P_bar := np_mean P_i in
      let pi_k :=
        (λ col, np_sum col / np_of_nat (n * k))%np <$> columns q counts in
      c ← py_div 1 (Qc_of_Z (Z.of_nat q - 1));
      let pe := (Fin c * np_sum ((λ p, p * (Fin 1 - p)) <$> pi_k))%np in
      if np_eqb pe (Fin 1) then None
      else Some ((P_bar - pe) / (Fin 1 - pe))%np.

(** *** Configuration *)

Definition BINARY_VARIABLES : list string :=
  [ "DEVP"; "DOCS"; "SDK"; "BUG"; "STAN";
    "AI_MODEL"; "AI_AGENT"; "AI_ASSIST"; "AI_DATA"; "AI_MKT";
    "GIT"; "MON";
    "API";
    "ROLE"; "DATA"; "STORE"; "CERT";
    "COM_social_media"; "COM_forum"; "COM_blog"; "COM_help_support";
    "COM_live_chat"; "COM_Slack"; "COM_Discord"; "COM_stackoverflow";
    "COM_training"; "COM_FAQ";
    "EVENT_webinars"; "EVENT_virtual"; "EVENT_in_person";
    "EVENT_conference"; "EVENT_hackathon";
    "SPAN_internal"; "SPAN_communities"; "SPAN_external" ].

Definition COUNT_VARIABLES : list string :=
  [ "METH";
    "SDK_lang"; "COM_lang"; "GIT_lang"; "SPAN_lang";
    "ROLE_lang"; "DATA_lang"; "STORE_lang"; "CERT_lang";
    "SDK_prog_lang" ].

Definition ORDINAL_VARIABLES : list string := [].

Definition PRIMARY_VARIABLES : list string :=
  BINARY_VARIABLES ++ COUNT_VARIABLES ++ ORDINAL_VARIABLES.

(** *** Normalisation and the comparison of two coders *)

(** The results of one coder: platform id to variable name to raw value. *)
Abbreviation coder_results := (gmap string (gmap string raw)) (only parsing).

(** One entry of a disagreement list. *)
Record disagreement : Type := {
  d_platform_id : string;
  d_platform_name : raw;
  d_value1 : Z;
  d_value2 : Z;
}.

(** One entry of [variable_data]. *)
Record var_data : Type := {
  vd_coder1 : list rating;
  vd_coder2 : list rating;
  vd_disagreements : list disagreement;
}.

(** One entry of [irr_results]; every statistic is [None] or a float. *)
Record var_result : Type := {
  variable : string;
  type : string;
  n : nat;
  agreement : option npfloat;
  kappa : option npfloat;
  icc : option npfloat;
  gwet_ac1 : option npfloat;
  kripp_alpha : option npfloat;
  n_disagreements : nat;
  disagreements : list disagreement;
}.

(** The summary returned by [compare_coders] (without its date). *)
Record summary : Type := {
  coder1 : string;
  coder2 : string;
  n_platforms : nat;
  platform_ids : list string;
  n_variables : nat;
  overall_agreement : option npfloat;
  mean_kappa : option npfloat;
  n_kappa_valid : nat;
  n_kappa_perfect_agreement : nat;
  mean_gwet_ac1 : option npfloat;
  n_ac1_valid : nat;
  mean_kripp_alpha : option npfloat;
  n_kripp_valid : nat;
  mean_icc : option npfloat;
  variables : list var_result;
}.

(** One entry of a three-way disagreement list. *)
Record three_way_disagreement : Type := {
  t3_platform_id : string;
  t3_platform_name : raw;
  t3_claude : Z;
  t3_chatgpt : Z;
  t3_human : Z;
}.

(** One entry of [three_way_vars]. *)
Record three_way_var : Type := {
  tv_variable : string;
  tv_type : string;
  tv_n : nat;
  tv_three_way_agreement : option npfloat;
  tv_fleiss_kappa : option npfloat;
  tv_gwet_ac1 : option npfloat;
  tv_kripp_alpha : option npfloat;
  tv_icc_3way : option npfloat;
  tv_n_disagreements : nat;
  tv_disagreements : list three_way_disagreement;
}.

(** The dictionary [three_way_summary]. *)
Record three_way_summary : Type := {
  ts_n_platforms : nat;
  ts_platform_ids : list string;
  ts_n_variables : nat;
  ts_overall_three_way_agreement : option npfloat;
  ts_mean_fleiss_kappa : option npfloat;
  ts_n_fleiss_valid : nat;
  ts_mean_gwet_ac1 : option npfloat;
  ts_n_ac1_valid : nat;
  ts_mean_kripp_alpha : option npfloat;
  ts_n_kripp_valid : nat;
  ts_mean_icc_3way : option npfloat;
  ts_variables : list three_way_var;
}.

(** The dictionary returned by [compare_three_way] (without its date). *)
Record three_way_analysis : Type := {
  analysis_type : string;
  analysis_coders : list string;
  claude_vs_chatgpt : summary;
  claude_vs_human : summary;
  chatgpt_vs_human : summary;
  three_way : three_way_summary;
}.

Section coders.
Context `{Externals}.

Definition _normalize_value (v : raw) (var : string) : outcome rating :=
  let body : outcome rating :=
    match v with
    | RNone => Returns None
    | _ =>
        if match v with RStr s => py_blank s | _ => false end
        then Returns None
        else if match v with RFloat f => pd_isna v | _ => false end
        then Returns None
        else f ← py_float v; z ← py_int f; Returns (Some z)
    end in
  match body with
  | Raises ValueError | Raises TypeError => Returns None
  | o => o
  end.

Definition calculate_kappa (values1 values2 : list rating) : option npfloat :=
  match cohen_kappa_score with
  | None => None
  | Some score =>
      let valid := valid_pairs values1 values2 in
      if decide (length valid < 2)%nat then None
      else score valid.*1 valid.*2
  end.

(** [sorted(set(coder1_results.keys()) & set(coder2_results.keys()))] *)
Definition common_platforms (coder1_results coder2_results : coder_results)
    : list string :=
  merge_sort str_le (elements (dom coder1_results ∩ dom coder2_results)).

(** [r.get(var)] *)
Definition dict_get (r : gmap string raw) (var : string) : raw :=
  default RNone (r !! var).

(** [variable_data[var]] on the [defaultdict]. *)
Definition empty_var_data : var_data :=
  {| vd_coder1 := []; vd_coder2 := []; vd_disagreements := [] |}.
Definition get_var_data (variable_data : gmap string var_data) (var : string)
    : var_data :=
  default empty_var_data (variable_data !! var).

(** The body of the first loop once both values are normalised: append them
    to the lists of the variable and record a disagreement
    ([if v1 != v2 and v1 is not None and v2 is not None]). *)
Definition record_values (platform_id : string) (r1 : gmap string raw)
    (data : var_data) (v1 v2 : rating) : var_data :=
  let disagreements :=
    match v1, v2 with
    | Some a, Some b =>
        if decide (a ≠ b) then
          vd_disagreements data ++
          [ {| d_platform_id := platform_id;
               d_platform_name :=
                 default (RStr platform_id) (r1 !! "platform_name");
               d_value1 := a;
               d_value2 := b |} ]
        else vd_disagreements data
    | _, _ => vd_disagreements data
    end in
  {| vd_coder1 := vd_coder1 data ++ [v1];
     vd_coder2 := vd_coder2 data ++ [v2];
     vd_disagreements := disagreements |}.

(** The first loop of [compare_coders]: normalise and collect the values of
    every variable, platform by platform. *)
Definition collect (coder1_results coder2_results : coder_results)
    (common_ids : list string) : outcome (gmap string var_data) :=
  for_each common_ids ∅ (λ variable_data platform_id,
    let r1 := default ∅ (coder1_results !! platform_id) in
    let r2 := default ∅ (coder2_results !! platform_id) in
    for_each PRIMARY_VARIABLES variable_data (λ variable_data var,
      v1 ← _normalize_value (dict_get r1 var) var;
      v2 ← _normalize_value (dict_get r2 var) var;
      let data := get_var_data variable_data var in
      Returns (<[var := record_values platform_id r1 data v1 v2]>
                 variable_data))).

(** The second loop: the statistics of one variable. *)
Definition variable_result (variable_data : gmap string var_data)
    (var : string) : var_result :=
  let data := get_var_data variable_data var in
  let v1 := vd_coder1 data in
  let v2 := vd_coder2 data in
  let n_valid := length (valid_pairs v1 v2) in
  let categorical :=
    bool_decide (var ∈ BINARY_VARIABLES) || bool_decide (var ∈ ORDINAL_VARIABLES)
  in
  let count := bool_decide (var ∈ COUNT_VARIABLES) in
  let kr_level :=
    if bool_decide (var ∈ ORDINAL_VARIABLES) then "ordinal" else "nominal" in
  {| variable := var;
     type := if bool_decide (var ∈ BINARY_VARIABLES) then "binary"
             else if bool_decide (var ∈ COUNT_VARIABLES) then "count"
             else "ordinal";
     n := n_valid;
     agreement := Fin <$> calculate_agreement v1 v2;
     kappa := if categorical then calculate_kappa v1 v2 else None;
     icc := if count then calculate_icc v1 v2 else None;
     gwet_ac1 :=
       if categorical then Fin <$> calculate_gwet_ac1 v1 v2 else None;
     kripp_alpha :=
       if count then Fin <$> calculate_krippendorff_alpha [v1; v2] "ratio"
       else if categorical
       then Fin <$> calculate_krippendorff_alpha [v1; v2] kr_level
       else None;
     n_disagreements := length (vd_disagreements data);
     disagreements := vd_disagreements data |}.

(** [[x for x in xs if x is not None]] *)
Definition not_none (xs : list (option npfloat)) : list npfloat := omap id xs.

(** [[x for x in xs if x is not None and not np.isnan(x)]] *)
Definition not_none_nan (xs : list (option npfloat)) : list npfloat :=
  omap (λ o, x ← o; if np_isnan x then None else Some x) xs.

(** [x is not None and np.isnan(x)] *)
Definition is_nan (o : option npfloat) : bool :=
  match o with
  | Some x => np_isnan x
  | None => false
  end.

(** [float(np.mean(xs)) if xs else None] *)
Definition mean_or_none (xs : list npfloat) : option npfloat :=
  match xs with
  | [] => None
  | _ => Some (np_mean xs)
  end.

(** The overall statistics of [compare_coders]. *)
Definition summarise (irr_results : list var_result)
    (common_ids : list string) (coder1_name coder2_name : string) : summary :=
  let agreements := not_none (agreement <$> irr_results) in
  let kappas := not_none_nan (kappa <$> irr_results) in
  let iccs := not_none_nan (icc <$> irr_results) in
  let ac1s := not_none_nan (gwet_ac1 <$> irr_results) in
  let kripp_alphas := not_none_nan (kripp_alpha <$> irr_results) in
  let n_kappa_nan :=
    length (filter (λ r, is_nan (kappa r) = true) irr_results) in
  {| coder1 := coder1_name;
     coder2 := coder2_name;
     n_platforms := length common_ids;
     platform_ids := common_ids;
     n_variables := length PRIMARY_VARIABLES;
     overall_agreement := mean_or_none agreements;
     mean_kappa := mean_or_none kappas;
     n_kappa_valid := length kappas;
     n_kappa_perfect_agreement := n_kappa_nan;
     mean_gwet_ac1 := mean_or_none ac1s;
     n_ac1_valid := length ac1s;
     mean_kripp_alpha := mean_or_none kripp_alphas;
     n_kripp_valid := length kripp_alphas;
     mean_icc := mean_or_none iccs;
     variables := irr_results |}.

Definition compare_coders (coder1_results coder2_results : coder_results)
    (coder1_name coder2_name : string) : outcome summary :=
  let common_ids := common_platforms coder1_results coder2_results in
  variable_data ← collect coder1_results coder2_results common_ids;
  let irr_results := variable_result variable_data <$> PRIMARY_VARIABLES in
  Returns (summarise irr_results common_ids coder1_name coder2_name).

(** [sorted(set(claude_results.keys()) & set(chatgpt_results.keys())
           & set(human_results.keys()))] *)
Definition common_all
    (claude_results chatgpt_results human_results : coder_results)
    : list string :=
  merge_sort str_le
    (elements (dom claude_results ∩ dom chatgpt_results ∩ dom human_results)).

(** [[(c, g, h) for c, g, h in zip(claude_vals, chatgpt_vals, human_vals)
      if c is not None and g is not None and h is not None]] *)
Definition valid_triples (claude_vals chatgpt_vals human_vals : list rating)
    : list (Z * Z * Z) :=
  omap (λ t : rating * rating * rating,
          match t with
          | (Some c, Some g, Some h) => Some (c, g, h)
          | _ => None
          end)
       (zip (zip claude_vals chatgpt_vals) human_vals).

(** The loop over the platforms, for one variable: the three lists of
    normalised values and the three-way disagreements
    ([if not (vc == vg == vh)], on three values that are not [None]). *)
Definition three_way_values
    (claude_results chatgpt_results human_results : coder_results)
    (common_all : list string) (var : string)
    : outcome (list rating * list rating * list rating *
               list three_way_disagreement) :=
  for_each common_all ([], [], [], []) (λ st pid,
    let '(claude_vals, chatgpt_vals, human_vals, disagreements_3way) := st in
    let r := default ∅ (claude_results !! pid) in
    vc ← _normalize_value (dict_get r var) var;
    vg ← _normalize_value
            (dict_get (default ∅ (chatgpt_results !! pid)) var) var;
    vh ← _normalize_value
            (dict_get (default ∅ (human_results !! pid)) var) var;
    let disagreements_3way :=
      match vc, vg, vh with
      | Some c, Some g, Some h =>
          if decide (c = g ∧ g = h) then disagreements_3way
          else
            disagreements_3way ++
            [ {| t3_platform_id := pid;
                 t3_platform_name :=
                   default (RStr pid) (r !! "platform_name");
                 t3_claude := c; t3_chatgpt := g; t3_human := h |} ]
      | _, _, _ => disagreements_3way
      end in
    Returns (claude_vals ++ [vc], chatgpt_vals ++ [vg], human_vals ++ [vh],
             disagreements_3way)).

(** The statistics of one variable for three raters. *)
Definition three_way_variable (var : string)
    (st : list rating * list rating * list rating *
          list three_way_disagreement) : three_way_var :=
  let '(claude_vals, chatgpt_vals, human_vals, disagreements_3way) := st in
  let triples := valid_triples claude_vals chatgpt_vals human_vals in
  let n_valid := length triples in
  let three_way_agree :=
    if decide (0 < n_valid)%nat then
      let n_agree :=
        length (filter (λ t : Z * Z * Z, t.1.1 = t.1.2 ∧ t.1.2 = t.2)
                       triples) in
      Some (Fin (Qc_of_nat n_agree / Qc_of_nat n_valid))
    else None in
  let categorical :=
    bool_decide (var ∈ BINARY_VARIABLES) || bool_decide (var ∈ ORDINAL_VARIABLES)
  in
  let count := bool_decide (var ∈ COUNT_VARIABLES) in
  let ratings :=
    (λ t : Z * Z * Z, [Some t.1.1; Some t.1.2; Some t.2]) <$> triples in
  let kr_level :=
    if bool_decide (var ∈ ORDINAL_VARIABLES) then "ordinal" else "nominal" in
  let lists := [claude_vals; chatgpt_vals; human_vals] in
  {| tv_variable := var;
     tv_type := if bool_decide (var ∈ BINARY_VARIABLES) then "binary"
                else if bool_decide (var ∈ COUNT_VARIABLES) then "count"
                else "ordinal";
     tv_n := n_valid;
     tv_three_way_agreement := three_way_agree;
     tv_fleiss_kappa :=
       if categorical then calculate_fleiss_kappa ratings else None;
     tv_gwet_ac1 :=
       if categorical then calculate_gwet_ac1_multi ratings else None;
     tv_kripp_alpha :=
       if count then Fin <$> calculate_krippendorff_alpha lists "ratio"
       else if categorical
       then Fin <$> calculate_krippendorff_alpha lists kr_level
       else None;
     tv_icc_3way := if count then calculate_icc_multi lists else None;
     tv_n_disagreements := length disagreements_3way;
     tv_disagreements := disagreements_3way |}.

(** The overall three-way statistics. *)
Definition three_way_summarise (three_way_vars : list three_way_var)
    (common_all : list string) : three_way_summary :=
  let tw_agreements := not_none (tv_three_way_agreement <$> three_way_vars) in
  let tw_fleiss := not_none_nan (tv_fleiss_kappa <$> three_way_vars) in
  let tw_ac1s := not_none_nan (tv_gwet_ac1 <$> three_way_vars) in
  let tw_kripp := not_none_nan (tv_kripp_alpha <$> three_way_vars) in
  let tw_iccs := not_none_nan (tv_icc_3way <$> three_way_vars) in
  {| ts_n_platforms := length common_all;
     ts_platform_ids := common_all;
     ts_n_variables := length PRIMARY_VARIABLES;
     ts_overall_three_way_agreement := mean_or_none tw_agreements;
     ts_mean_fleiss_kappa := mean_or_none tw_fleiss;
     ts_n_fleiss_valid := length tw_fleiss;
     ts_mean_gwet_ac1 := mean_or_none tw_ac1s;
     ts_n_ac1_valid := length tw_ac1s;
     ts_mean_kripp_alpha := mean_or_none tw_kripp;
     ts_n_kripp_valid := length tw_kripp;
     ts_mean_icc_3way := mean_or_none tw_iccs;
     ts_variables := three_way_vars |}.

(** Three pairwise comparisons, then the three-way statistics on the
    platforms of all three coders. *)
Definition compare_three_way
    (claude_results chatgpt_results human_results : coder_results)
    : outcome three_way_analysis :=
  let common_all :=
    common_all claude_results chatgpt_results human_results in
  pair_claude_chatgpt ←
    compare_coders claude_results chatgpt_results "Claude" "ChatGPT";
  pair_claude_human ←
    compare_coders claude_results human_results "Claude" "Human";
  pair_chatgpt_human ←
    compare_coders chatgpt_results human_results "ChatGPT" "Human";
  three_way_vars ←
    for_each PRIMARY_VARIABLES [] (λ three_way_vars var,
      st ← three_way_values claude_results chatgpt_results human_results
             common_all var;
      Returns (three_way_vars ++ [three_way_variable var st]));
  Returns
    {| analysis_type := "three_way";
       analysis_coders := ["Claude"; "ChatGPT"; "Human"];
       claude_vs_chatgpt := pair_claude_chatgpt;
       claude_vs_human := pair_claude_human;
       chatgpt_vs_human := pair_chatgpt_human;
       three_way := three_way_summarise three_way_vars common_all |}.

End coders.

(** [a >= b]; every comparison with NaN is false. *)
Definition np_geb (a b : npfloat) : bool := np_ltb b a || np_eqb a b.

(** The Landis and Koch label of a kappa value. *)
Definition _kappa_interpretation (kappa : option npfloat) : string :=
  match kappa with
  | None => "N/A"
  | Some kappa =>
      if np_geb kappa (Fin (Q2Qc 0.81)) then "Almost Perfect"
      else if np_geb kappa (Fin (Q2Qc 0.61)) then "Substantial"
      else if np_geb kappa (Fin (Q2Qc 0.41)) then "Moderate"
      else if np_geb kappa (Fin (Q2Qc 0.21)) then "Fair"
      else if np_geb kappa (Fin 0) then "Slight"
      else "Poor"
  end.

End IRRCalculator.

(** ** [human_irr_calculator.py] *)

Module HumanIRR.
Import Py.

(** One entry of [disagreement_details]. *)
Record comparison : Type := {
  c_platform_id : string;
  c_variable : string;
  c_value1 : raw;
  c_value2 : raw;
}.


(** The dictionary returned by [calculate_three_way_agreement]. *)
Record three_way : Type := {
  tw_platforms : nat;
  total_comparisons : nat;
  all_three_agree : nat;
  two_agree : nat;
  none_agree : nat;
  full_agreement_rate : Qc;
  majority_agreement_rate : Qc;
}.


Section human.
Context `{Externals}.

(** Whether two values agree.  [float] raises [ValueError] or [TypeError]
    only, and both are caught. *)
Definition calculate_agreement (val1 val2 : raw) : bool :=
  if pd_isna val1 && pd_isna val2 then true
  else if pd_isna val1 || pd_isna val2 then false
  else
    match v1 ← py_float val1; v2 ← py_float val2; Returns (np_eqb v1 v2) with
    | Returns b => b
    | Raises _ =>
        String.eqb (py_strip (py_lower (py_str val1)))
                   (py_strip (py_lower (py_str val2)))
    end.





End human.

End HumanIRR.

(** ** Reference externals

    An instance of [Externals] to run the code on examples. *)

Module Reference.
Import Py IRRCalculator.

(** Modelled from the spec: [cohen_kappa_score] belongs to scikit-learn, not
    to the repository.  Cohen's Kappa is (Po - Pe)/(1 - Pe) from the observed
    contingency table of the two label lists, and is not a number (NaN) when
    Pe = 1. *)
Definition cohen_kappa (y1 y2 : list Z) : option npfloat :=
  let n := Qc_of_nat (length y1) in
  let categories := sorted_set (y1 ++ y2) in
  let count c (ys : list Z) := Qc_of_nat (length (filter (λ y, y = c) ys)) in
  let po := Qc_of_nat (count_matches (zip y1 y2)) / n in
  let pe := py_sum ((λ c, count c y1 / n * (count c y2 / n)) <$> categories) in
  Some (Fin (po - pe) / Fin (1 - pe))%np.

(** The value of a decimal digit. *)
Definition digit (c : Ascii.ascii) : option Z :=
  let n := Ascii.nat_of_ascii c in
  if bool_decide (48 ≤ n ≤ 57)%nat then Some (Z.of_nat n - 48)%Z else None.

(** A non-empty list of digits read as a natural number. *)
Definition digits (cs : list Ascii.ascii) : option Z :=
  match cs with
  | [] => None
  | _ => foldl (λ acc c, a ← acc; d ← digit c; Some (10 * a + d)%Z) (Some 0%Z) cs
  end.

(** The characters before and after the first ["."]. *)
Fixpoint split_point (cs : list Ascii.ascii)
    : list Ascii.ascii * option (list Ascii.ascii) :=
  match cs with
  | [] => ([], None)
  | c :: rest =>
      if Ascii.eqb c (Ascii.ascii_of_nat 46) then ([], Some rest)
      else let '(ip, fp) := split_point rest in (c :: ip, fp)
  end.

(** [float(s)] on the plain decimal literals [ddd] and [ddd.ddd], with an
    optional sign and surrounding white space; every other string is
    refused. *)
Definition decimal (s : string) : option npfloat :=
  let cs := String.list_ascii_of_string (py_strip s) in
  let '(negative, cs) :=
    match cs with
    | c :: rest =>
        if Ascii.eqb c (Ascii.ascii_of_nat 45) then (true, rest)
        else (false, cs)
    | [] => (false, cs)
    end in
  let '(ip, fp) := split_point cs in
  i ← digits ip;
  x ← match fp with
       | None => Some (Qc_of_Z i)
       | Some fp =>
           f ← digits fp;
           Some (Qc_of_Z i + Qc_of_Z f / Qc_of_Z (10 ^ Z.of_nat (length fp)))
       end;
  Some (Fin (if negative then - x else x)).

Definition reference_float (s : string) : option npfloat :=
  if py_blank s then None else decimal s.

(** [str(f)] on the infinities, NaN and integral floats; other floats are
    written as a fraction. *)
Definition reference_str_of_float (f : npfloat) : string :=
  match f with
  | NaN => "nan"
  | PInf => "inf"
  | NInf => "-inf"
  | Fin x =>
      if decide (Qden x = 1%positive) then pretty (Qnum x) +:+ ".0"
      else pretty (Qnum x) +:+ "/" +:+ pretty (Zpos (Qden x))
  end.

Global Program Instance reference_externals : Externals := {|
  float_of_str := reference_float;
  str_of_int := pretty;
  str_of_float := reference_str_of_float;
  cohen_kappa_score := Some cohen_kappa;
|}.
Next Obligation. intros s Hs. unfold reference_float. by rewrite Hs. Qed.

End Reference.

(** ** The specification's wording, for comparison with the code *)

Module Spec.
Import Py IRRCalculator.

(** Subject [i] is a valid pair when both raters have a value for it. *)
Definition valid_at (values1 values2 : list rating) (i : nat) : Prop :=
  is_Some (values1 !! i ≫= id) ∧ is_Some (values2 !! i ≫= id).

(** Subject [i] is a match when it is a valid pair with equal values. *)
Definition match_at (values1 values2 : list rating) (i : nat) : Prop :=
  valid_at values1 values2 i ∧ values1 !! i = values2 !! i.

Global Instance valid_at_dec v1 v2 i : Decision (valid_at v1 v2 i).
Proof. unfold valid_at. apply _. Defined.
Global Instance match_at_dec v1 v2 i : Decision (match_at v1 v2 i).
Proof. unfold match_at. apply _. Defined.

Definition subjects (values1 values2 : list rating) : list nat :=
  seq 0 (length values1).

Definition n_valid (values1 values2 : list rating) : nat :=
  length (filter (valid_at values1 values2) (subjects values1 values2)).

Definition n_match (values1 values2 : list rating) : nat :=
  length (filter (match_at values1 values2) (subjects values1 values2)).

(** Observed agreement: matches / valid pairs. *)
Definition pa (values1 values2 : list rating) : Qc :=
  Qc_of_nat (n_match values1 values2) / Qc_of_nat (n_valid values1 values2).

(** The Statistic Result of the data model. *)
Inductive stat_result : Type :=
  | Missing
  | Undefined
  | Value (x : Qc).

(** What is left of a Statistic Result when Missing and Undefined are both
    written [None]. *)
Definition collapse (r : stat_result) : option Qc :=
  match r with
  | Missing | Undefined => None
  | Value x => Some x
  end.

(** The value rater [values] gave to subject [i], when [i] is a valid pair
    of [values1] and [values2]. *)
Definition valid_value (values1 values2 values : list rating) (i : nat)
    : option Z :=
  if decide (valid_at values1 values2 i) then values !! i ≫= id else None.

(** All valid values of both raters, pooled. *)
Definition pooled (values1 values2 : list rating) : list Z :=
  omap (valid_value values1 values2 values1) (subjects values1 values2) ++
  omap (valid_value values1 values2 values2) (subjects values1 values2).

(** The distinct categories observed. *)
Definition observed_categories (values1 values2 : list rating) : list Z :=
  remove_dups (pooled values1 values2).

(** The marginal proportion of category [k] among the pooled values. *)
Definition marginal (values1 values2 : list rating) (k : Z) : Qc :=
  Qc_of_nat (length (filter (λ v, v = k) (pooled values1 values2))) /
  Qc_of_nat (length (pooled values1 values2)).

(** The sum of [f k] over the elements [k] of [l]. *)
Definition sum_over {A} (f : A → Qc) (l : list A) : Qc :=
  foldr (λ a s, f a + s) 0 l.

(** pe = (1/(q-1)) . sum of pi_k (1 - pi_k) over the q observed categories. *)
Definition pe (values1 values2 : list rating) : Qc :=
  let q := length (observed_categories values1 values2) in
  1 / Qc_of_Z (Z.of_nat q - 1) *
  sum_over (λ k, marginal values1 values2 k * (1 - marginal values1 values2 k))
           (observed_categories values1 values2).

(** Gwet's AC1 as the specification states it. *)
Definition gwet_ac1 (values1 values2 : list rating) : stat_result :=
  if decide (n_valid values1 values2 < 2)%nat then Missing
  else if decide (length (observed_categories values1 values2) < 2)%nat
  then Undefined
  else if decide (pe values1 values2 = 1) then Undefined
  else Value ((pa values1 values2 - pe values1 values2) /
              (1 - pe values1 values2)).

(** *** Krippendorff's Alpha *)


(** A subject qualifies with at least 2 non-missing ratings. *)
Definition qualifies (row : list rating) : Prop :=
  (2 ≤ length (omap id row))%nat.

Global Instance qualifies_dec row : Decision (qualifies row).
Proof. unfold qualifies. apply _. Defined.











(** *** Fleiss' Kappa *)

(** The subjects for which all raters provided a value. *)
Definition complete_rows (ratings_matrix : list (list rating))
    : list (list Z) :=
  omap (mapM id) ratings_matrix.

(** The categories observed across the dataset. *)
Definition fleiss_categories (ratings_matrix : list (list rating)) : list Z :=
  remove_dups (concat (complete_rows ratings_matrix)).

(** Entry of the Subject x Category count matrix: the number of raters who
    assigned category [c] to the subject of [row]. *)
Definition n_ij (row : list Z) (c : Z) : nat :=
  length (filter (λ v, v = c) row).

(** Observed pairwise agreement of one subject (Fleiss formula). *)
Definition P_i (k : nat) (categories : list Z) (row : list Z) : Qc :=
  (sum_over (λ c, Qc_of_nat (n_ij row c) * Qc_of_nat (n_ij row c)) categories
   - Qc_of_nat k)
  / Qc_of_Z (Z.of_nat k * (Z.of_nat k - 1)).

Definition P_bar (k : nat) (ratings_matrix : list (list rating)) : Qc :=
  sum_over (P_i k (fleiss_categories ratings_matrix))
           (complete_rows ratings_matrix)
  / Qc_of_nat (length (complete_rows ratings_matrix)).

(** Pooled marginal proportion of category [c]. *)
Definition p_j (k : nat) (ratings_matrix : list (list rating)) (c : Z) : Qc :=
  sum_over (λ row, Qc_of_nat (n_ij row c)) (complete_rows ratings_matrix)
  / Qc_of_nat (length (complete_rows ratings_matrix) * k).

Definition P_e (k : nat) (ratings_matrix : list (list rating)) : Qc :=
  sum_over (λ c, p_j k ratings_matrix c * p_j k ratings_matrix c)
           (fleiss_categories ratings_matrix).

Definition fleiss_kappa (k : nat) (ratings_matrix : list (list rating))
    : stat_result :=
  if decide (length (complete_rows ratings_matrix) < 2)%nat then Missing
  else if decide (length (fleiss_categories ratings_matrix) < 2)%nat
  then Undefined
  else if decide (P_e k ratings_matrix = 1) then Undefined
  else Value ((P_bar k ratings_matrix - P_e k ratings_matrix) /
              (1 - P_e k ratings_matrix)).

(** *** Aggregation *)

(** How a per-variable result is read: [None] is Missing, NaN is Undefined,
    any other float is a value. *)
Inductive reading : Type :=
  | ReadMissing
  | ReadUndefined
  | ReadValue (x : npfloat).

Definition read (o : option npfloat) : reading :=
  match o with
  | None => ReadMissing
  | Some NaN => ReadUndefined
  | Some x => ReadValue x
  end.

(** The results that are neither Missing nor Undefined. *)
Definition values (results : list (option npfloat)) : list npfloat :=
  omap (λ o, match read o with ReadValue x => Some x | _ => None end) results.

(** The number of Undefined results. *)
Definition n_undefined (results : list (option npfloat)) : nat :=
  length (filter (λ o, is_nan o = true) results).

(** The arithmetic mean of the values, if there is one. *)
Definition mean_of_values (results : list (option npfloat)) : option npfloat :=
  if decide (values results = []) then None
  else Some (np_sum (values results) / np_of_nat (length (values results)))%np.

(** What the summary reports: every dataset-level mean is the mean of the
    values of its statistic over the variables, Missing and Undefined
    results left out; the number of values is reported for Kappa, AC1 and
    Alpha, and the number of Undefined results for Kappa. *)
Definition reports_means_of_values (s : summary) : Prop :=
  overall_agreement s = mean_of_values (agreement <$> variables s) ∧
  mean_kappa s = mean_of_values (kappa <$> variables s) ∧
  mean_gwet_ac1 s = mean_of_values (IRRCalculator.gwet_ac1 <$> variables s) ∧
  mean_kripp_alpha s = mean_of_values (kripp_alpha <$> variables s) ∧
  mean_icc s = mean_of_values (icc <$> variables s) ∧
  n_kappa_valid s = length (values (kappa <$> variables s)) ∧
  n_kappa_perfect_agreement s = n_undefined (kappa <$> variables s) ∧
  n_ac1_valid s = length (values (IRRCalculator.gwet_ac1 <$> variables s)) ∧
  n_kripp_valid s = length (values (kripp_alpha <$> variables s)).

End Spec.

(** ** Auxiliary facts on sums, counting and sorted sets *)

Module Aux.
Import Py.

Lemma foldl_Qcplus (a : Qc) (xs : list Qc) :
  foldl Qcplus a xs = a + foldl Qcplus 0 xs.
Proof.
  revert a. induction xs as [|x xs IH]; intros a; simpl.
  - ring.
  - rewrite (IH (a + x)), (IH (0 + x)). ring.
Qed.


Lemma py_sum_cons (x : Qc) (xs : list Qc) : py_sum (x :: xs) = x + py_sum xs.
Proof. unfold py_sum. simpl. rewrite foldl_Qcplus. ring. Qed.


Lemma py_sum_Permutation (xs ys : list Qc) : xs ≡ₚ ys → py_sum xs = py_sum ys.
Proof.
  induction 1 as [|x xs ys _ IH|x y xs|xs ys zs _ IH1 _ IH2].
  - done.
  - by rewrite !py_sum_cons, IH.
  - rewrite !py_sum_cons. ring.
  - congruence.
Qed.

Lemma Qc_of_nat_0 (n : nat) : Qc_of_nat n = 0 ↔ n = 0%nat.
Proof.
  unfold Qc_of_nat. split.
  - intros H. apply (f_equal this) in H. simpl in H.
    injection H as H. lia.
  - intros ->. apply Qc_is_canon. reflexivity.
Qed.

Lemma Qc_of_Z_0 (z : Z) : Qc_of_Z z = 0 ↔ z = 0%Z.
Proof.
  split.
  - intros H. apply (f_equal this) in H. simpl in H. by injection H.
  - intros ->. apply Qc_is_canon. reflexivity.
Qed.

(** Counting through a partial map. *)
Lemma length_filter_omap {A B} (f : A → option B)
    (P : B → Prop) `{!∀ b, Decision (P b)}
    (Q : A → Prop) `{!∀ a, Decision (Q a)} (l : list A) :
  (∀ a, a ∈ l → Q a ↔ ∃ b, f a = Some b ∧ P b) →
  length (filter P (omap f l)) = length (filter Q l).
Proof.
  induction l as [|a l IH]; intros HQ; [done|].
  assert (IH' : length (filter P (omap f l)) = length (filter Q l)).
  { apply IH. intros a' Ha'. apply HQ. by right. }
  specialize (HQ a (list_elem_of_here _ _)).
  rewrite (filter_cons Q). cbn [omap list_omap].
  destruct (f a) as [b|] eqn:Hfa.
  - rewrite (filter_cons P). destruct (decide (P b)) as [Hb|Hb].
    + rewrite decide_True by (apply HQ; eauto). cbn [length]. by rewrite IH'.
    + rewrite decide_False; [done|]. rewrite HQ. intros (b' & [= <-] & ?). done.
  - rewrite decide_False; [done|]. rewrite HQ. intros (b' & [=] & ?).
Qed.

Lemma length_omap_filter {A B} (f : A → option B)
    (Q : A → Prop) `{!∀ a, Decision (Q a)} (l : list A) :
  (∀ a, a ∈ l → Q a ↔ is_Some (f a)) →
  length (omap f l) = length (filter Q l).
Proof.
  intros HQ.
  rewrite <-(length_filter_omap f (λ _, True) Q l).
  - f_equal. induction (omap f l) as [|b bs IH]; [done|].
    rewrite filter_cons. simpl. by rewrite <-IH.
  - intros a Ha. rewrite (HQ a Ha). unfold is_Some.
    split; [intros [b ?]; eauto | intros (b & ? & _); eauto].
Qed.

Lemma omap_fmap {A B C} (f : A → B) (g : B → option C) (l : list A) :
  omap g (f <$> l) = omap (g ∘ f) l.
Proof.
  induction l as [|a l IH]; [done|].
  simpl. destruct (g (f a)); [f_equal|]; exact IH.
Qed.

Lemma omap_seq_S {B} (g : nat → option B) (n : nat) :
  omap g (seq 1 n) = omap (g ∘ S) (seq 0 n).
Proof. rewrite <-fmap_S_seq. apply omap_fmap. Qed.

(** The sorted set of a list depends on its elements only. *)
Lemma sorted_set_Permutation (xs ys : list Z) :
  (∀ x, x ∈ xs ↔ x ∈ ys) → sorted_set xs = sorted_set ys.
Proof.
  intros Hxy. unfold sorted_set.
  apply (Sorted_unique Z.le); [apply (Sorted_merge_sort Z.le)..|].
  rewrite !merge_sort_Permutation.
  apply NoDup_Permutation; [apply NoDup_remove_dups..|].
  intros x. by rewrite !elem_of_remove_dups.
Qed.

Lemma sorted_set_NoDup (xs : list Z) : NoDup (sorted_set xs).
Proof.
  unfold sorted_set. rewrite merge_sort_Permutation. apply NoDup_remove_dups.
Qed.

Lemma elem_of_sorted_set (xs : list Z) (x : Z) : x ∈ sorted_set xs ↔ x ∈ xs.
Proof.
  unfold sorted_set. by rewrite merge_sort_Permutation, elem_of_remove_dups.
Qed.

Lemma length_filter_Permutation {A} (P : A → Prop) `{!∀ a, Decision (P a)}
    (xs ys : list A) :
  xs ≡ₚ ys → length (filter P xs) = length (filter P ys).
Proof. intros Hp. by rewrite Hp. Qed.

End Aux.

(** ** The pairwise engine: percent agreement and Gwet's AC1 *)

Module PairwiseFacts.
Import Py IRRCalculator Spec Aux.

(** The valid pair of subject [i], if it is one. *)
Definition pair_at (values1 values2 : list rating) (i : nat) : option (Z * Z) :=
  a ← values1 !! i ≫= id; b ← values2 !! i ≫= id; Some (a, b).

Lemma omap_None {A B} (f : A → option B) (l : list A) :
  (∀ a, a ∈ l → f a = None) → omap f l = [].
Proof.
  induction l as [|a l IH]; intros Hf; [done|].
  simpl. rewrite (Hf a) by left. apply IH. intros a' Ha'. apply Hf. by right.
Qed.

Lemma omap_ext_in {A B} (f g : A → option B) (l : list A) :
  (∀ a, a ∈ l → f a = g a) → omap f l = omap g l.
Proof.
  intros Hfg. apply list_omap_ext, Forall2_same_length_lookup.
  split; [done|]. intros i a b Ha Hb.
  assert (a = b) as -> by congruence.
  apply Hfg. by eapply list_elem_of_lookup_2.
Qed.

Lemma valid_pairs_index (values1 values2 : list rating) :
  valid_pairs values1 values2 =
  omap (pair_at values1 values2) (seq 0 (length values1)).
Proof.
  revert values2. induction values1 as [|x v1 IH]; intros values2; [done|].
  destruct values2 as [|y v2].
  - symmetry. apply omap_None. intros i _. unfold pair_at.
    by destruct ((x :: v1) !! i ≫= id).
  - cbn [length]. rewrite <-cons_seq. unfold valid_pairs in *.
    cbn [zip zip_with omap list_omap].
    change (list_omap ?f ?l) with (omap f l).
    rewrite omap_seq_S, IH.
    assert (pair_at (x :: v1) (y :: v2) 0%nat =
            match x, y with Some a, Some b => Some (a, b) | _, _ => None end)
      as -> by (unfold pair_at; simpl; by destruct x, y).
    assert (omap (pair_at (x :: v1) (y :: v2) ∘ S) (seq 0 (length v1)) =
            omap (pair_at v1 v2) (seq 0 (length v1))) as ->
      by (by apply omap_ext_in).
    by destruct x, y.
Qed.

Lemma valid_at_pair_at (values1 values2 : list rating) (i : nat) :
  valid_at values1 values2 i ↔ is_Some (pair_at values1 values2 i).
Proof.
  unfold valid_at, pair_at.
  destruct (values1 !! i ≫= id), (values2 !! i ≫= id); simpl;
    rewrite ?is_Some_alt; naive_solver.
Qed.

Lemma match_at_pair_at (values1 values2 : list rating) (i : nat) :
  match_at values1 values2 i ↔
  ∃ p, pair_at values1 values2 i = Some p ∧ p.1 = p.2.
Proof.
  unfold match_at, valid_at, pair_at.
  destruct (values1 !! i) as [[a|]|], (values2 !! i) as [[b|]|]; simpl;
    rewrite ?is_Some_alt; naive_solver.
Qed.

Lemma length_valid_pairs (values1 values2 : list rating) :
  length (valid_pairs values1 values2) = n_valid values1 values2.
Proof.
  rewrite valid_pairs_index. apply length_omap_filter.
  intros i _. apply valid_at_pair_at.
Qed.

Lemma count_matches_valid_pairs (values1 values2 : list rating) :
  count_matches (valid_pairs values1 values2) = n_match values1 values2.
Proof.
  rewrite valid_pairs_index. apply length_filter_omap.
  intros i _. apply match_at_pair_at.
Qed.

Lemma valid_pairs_fst (values1 values2 : list rating) :
  (valid_pairs values1 values2).*1 =
  omap (valid_value values1 values2 values1) (subjects values1 values2).
Proof.
  rewrite valid_pairs_index, list_fmap_omap. apply omap_ext_in.
  intros i _. unfold valid_value, pair_at. case_decide as Hd.
  - destruct Hd as [[a Ha] [b Hb]]. by rewrite Ha, Hb.
  - destruct (values1 !! i ≫= id) eqn:E1, (values2 !! i ≫= id) eqn:E2;
      simpl; try done.
    exfalso. apply Hd. unfold valid_at. rewrite E1, E2. eauto.
Qed.

Lemma valid_pairs_snd (values1 values2 : list rating) :
  (valid_pairs values1 values2).*2 =
  omap (valid_value values1 values2 values2) (subjects values1 values2).
Proof.
  rewrite valid_pairs_index, list_fmap_omap. apply omap_ext_in.
  intros i _. unfold valid_value, pair_at. case_decide as Hd.
  - destruct Hd as [[a Ha] [b Hb]]. by rewrite Ha, Hb.
  - destruct (values1 !! i ≫= id) eqn:E1, (values2 !! i ≫= id) eqn:E2;
      simpl; try done.
    exfalso. apply Hd. unfold valid_at. rewrite E1, E2. eauto.
Qed.

Lemma pooled_valid_pairs (values1 values2 : list rating) :
  (valid_pairs values1 values2).*1 ++ (valid_pairs values1 values2).*2 =
  pooled values1 values2.
Proof. by rewrite valid_pairs_fst, valid_pairs_snd. Qed.

Lemma length_pooled (values1 values2 : list rating) :
  length (pooled values1 values2) = (2 * n_valid values1 values2)%nat.
Proof.
  rewrite <-pooled_valid_pairs, length_app, !length_fmap, length_valid_pairs.
  lia.
Qed.

Lemma valid_pairs_cons (x y : rating) (values1 values2 : list rating) :
  valid_pairs (x :: values1) (y :: values2) =
  match x, y with
  | Some a, Some b => (a, b) :: valid_pairs values1 values2
  | _, _ => valid_pairs values1 values2
  end.
Proof. by destruct x, y. Qed.

(** Swapping the raters swaps every valid pair. *)
Lemma valid_pairs_swap (values1 values2 : list rating) :
  valid_pairs values2 values1 = prod_swap <$> valid_pairs values1 values2.
Proof.
  revert values2.
  induction values1 as [|x v1 IH]; intros [|y v2]; try done.
  rewrite !valid_pairs_cons, IH. by destruct x, y.
Qed.

Lemma count_matches_swap (pairs : list (Z * Z)) :
  count_matches (prod_swap <$> pairs) = count_matches pairs.
Proof.
  unfold count_matches. induction pairs as [|[a b] ps IH]; [done|].
  rewrite fmap_cons, !filter_cons. simpl.
  destruct (decide (a = b)), (decide (b = a)); simpl; congruence.
Qed.

(** The body of [calculate_gwet_ac1] after the valid pairs are unzipped,
    as a function of their number, of the number of matches and of the
    pooled values. *)
Definition ac1_of_pooled (n matches : nat) (all_vals : list Z) : option Qc :=
  pa ← py_div (Qc_of_nat matches) (Qc_of_nat n);
  let categories := sorted_set all_vals in
  let q := length categories in
  if decide (q < 2)%nat then None
  else
    pi_k ← pooled_marginals all_vals n categories ∅;
    c ← py_div 1 (Qc_of_Z (Z.of_nat q - 1));
    let pe := c * py_sum ((λ pk, pk * (1 - pk)) <$> dict_values pi_k) in
    if decide (pe = 1) then None
    else py_div (pa - pe) (1 - pe).

Lemma calculate_gwet_ac1_unfold (values1 values2 : list rating) :
  calculate_gwet_ac1 values1 values2 =
  let valid := valid_pairs values1 values2 in
  if decide (length valid < 2)%nat then None
  else ac1_of_pooled (length valid) (count_matches valid)
                     (valid.*1 ++ valid.*2).
Proof.
  unfold calculate_gwet_ac1, ac1_of_pooled. cbv zeta.
  by rewrite zip_fst_snd, length_fmap.
Qed.

Lemma pooled_marginals_Permutation (all_vals all_vals' : list Z) (n : nat)
    (categories : list Z) (pi_k : gmap Z Qc) :
  all_vals ≡ₚ all_vals' →
  pooled_marginals all_vals n categories pi_k =
  pooled_marginals all_vals' n categories pi_k.
Proof.
  intros Hp. revert pi_k.
  induction categories as [|cat rest IH]; intros pi_k; [done|].
  cbn [pooled_marginals].
  rewrite (length_filter_Permutation _ _ _ Hp).
  destruct (py_div _ _); [apply IH|done].
Qed.

Lemma ac1_of_pooled_Permutation (n matches : nat) (all_vals all_vals' : list Z) :
  all_vals ≡ₚ all_vals' →
  ac1_of_pooled n matches all_vals = ac1_of_pooled n matches all_vals'.
Proof.
  intros Hp. unfold ac1_of_pooled.
  rewrite (sorted_set_Permutation all_vals all_vals')
    by (intros x; by rewrite Hp).
  by rewrite (pooled_marginals_Permutation _ _ _ _ _ Hp).
Qed.

Lemma py_div_Some (a b : Qc) : b ≠ 0 → py_div a b = Some (a / b).
Proof. intros Hb. unfold py_div. by rewrite decide_False. Qed.

Lemma py_sum_fmap {A} (f : A → Qc) (l : list A) :
  py_sum (f <$> l) = sum_over f l.
Proof.
  induction l as [|a l IH]; [done|].
  rewrite fmap_cons, py_sum_cons, IH. done.
Qed.

Lemma sum_over_Permutation {A} (f : A → Qc) (l l' : list A) :
  l ≡ₚ l' → sum_over f l = sum_over f l'.
Proof.
  intros Hp. rewrite <-!py_sum_fmap. apply py_sum_Permutation.
  by rewrite Hp.
Qed.

Lemma sum_over_ext {A} (f g : A → Qc) (l : list A) :
  (∀ a, a ∈ l → f a = g a) → sum_over f l = sum_over g l.
Proof.
  induction l as [|a l IH]; intros Hfg; [done|]. simpl.
  rewrite (Hfg a) by left. rewrite IH; [done|].
  intros a' Ha'. apply Hfg. by right.
Qed.

(** The dictionary [pi_k] after the loop: one entry per category. *)
Lemma pooled_marginals_Some (all_vals : list Z) (n : nat)
    (categories : list Z) (pi_k : gmap Z Qc) :
  n ≠ 0%nat → NoDup categories →
  (∀ cat, cat ∈ categories → pi_k !! cat = None) →
  ∃ pi_k',
    pooled_marginals all_vals n categories pi_k = Some pi_k' ∧
    map_to_list pi_k' ≡ₚ
      ((λ cat, (cat, Qc_of_nat (length (filter (λ v, v = cat) all_vals)) /
                     Qc_of_nat (2 * n))) <$> categories)
      ++ map_to_list pi_k.
Proof.
  intros Hn. revert pi_k.
  induction categories as [|cat rest IH]; intros pi_k Hnd Hfresh.
  - exists pi_k. by split.
  - apply NoDup_cons in Hnd as [Hcat Hnd].
    cbn [pooled_marginals].
    rewrite py_div_Some by (rewrite Qc_of_nat_0; lia). cbn.
    destruct (IH (<[cat := Qc_of_nat (length (filter (λ v, v = cat) all_vals)) /
                            Qc_of_nat (2 * n)]> pi_k) Hnd)
      as (pi_k' & Hrun & Hperm).
    { intros c Hc. rewrite lookup_insert_ne by (intros ->; done).
      apply Hfresh. by right. }
    exists pi_k'. split; [done|].
    rewrite Hperm, map_to_list_insert by (apply Hfresh; left).
    symmetry. apply Permutation_middle.
Qed.

Lemma ac1_of_pooled_spec (values1 values2 : list rating) :
  ¬ (n_valid values1 values2 < 2)%nat →
  ac1_of_pooled (n_valid values1 values2) (n_match values1 values2)
                (pooled values1 values2) =
  collapse (gwet_ac1 values1 values2).
Proof.
  intros Hn. unfold ac1_of_pooled, gwet_ac1.
  rewrite (decide_False (P := (n_valid _ _ < 2)%nat)) by done.
  rewrite (py_div_Some (Qc_of_nat _) (Qc_of_nat _))
    by (rewrite Qc_of_nat_0; lia).
  cbn. cbv zeta.
  assert (Hcats : sorted_set (pooled values1 values2) ≡ₚ
                  observed_categories values1 values2)
    by apply merge_sort_Permutation.
  assert (Hlen : length (sorted_set (pooled values1 values2)) =
                 length (observed_categories values1 values2))
    by (by rewrite Hcats).
  rewrite Hlen.
  case_decide as Hq; [done|].
  destruct (pooled_marginals_Some (pooled values1 values2)
              (n_valid values1 values2)
              (sorted_set (pooled values1 values2)) ∅)
    as (pi_k & -> & Hperm); [lia|apply sorted_set_NoDup|done|]. cbn.
  rewrite py_div_Some by (rewrite Qc_of_Z_0; lia). cbn.
  rewrite map_to_list_empty, app_nil_r in Hperm.
  assert (Hsum : py_sum ((λ pk, pk * (1 - pk)) <$> dict_values pi_k) =
                 sum_over (λ k, marginal values1 values2 k *
                                (1 - marginal values1 values2 k))
                          (observed_categories values1 values2)).
  { unfold dict_values.
    rewrite (py_sum_Permutation _ _
               (fmap_Permutation _ _ _ (fmap_Permutation snd _ _ Hperm))).
    rewrite <-!list_fmap_compose, py_sum_fmap.
    rewrite (sum_over_Permutation _ _ _ Hcats).
    apply sum_over_ext. intros k _. unfold compose, marginal. simpl.
    by rewrite length_pooled. }
  rewrite Hsum. fold (pe values1 values2). fold (pa values1 values2).
  case_decide as Hpe; [done|].
  apply py_div_Some. intros H0. apply Hpe.
  rewrite <-(Qcplus_0_l (pe values1 values2)), <-H0. ring.
Qed.

(** C1, as the code has it (spec 4.1, Gwet's AC1).  With at least 2 valid
    pairs, at least 2 observed categories and pe different from 1,
    [calculate_gwet_ac1] returns (pa - pe)/(1 - pe), with pa the fraction of
    valid pairs with equal values and pe = (1/(q-1)) . sum of
    pi_k (1 - pi_k) over the q distinct categories pooled from both raters'
    valid values.  In the cases the specification calls Undefined (one
    category, or pe = 1) and in the case it calls Missing (fewer than 2
    valid pairs) the function returns the same [None]. *)
Theorem calculate_gwet_ac1_spec (values1 values2 : list rating) :
  calculate_gwet_ac1 values1 values2 = collapse (gwet_ac1 values1 values2).
Proof.
  rewrite calculate_gwet_ac1_unfold. cbv zeta.
  rewrite pooled_valid_pairs, length_valid_pairs, count_matches_valid_pairs.
  case_decide as Hn; [|by apply ac1_of_pooled_spec].
  unfold gwet_ac1. by rewrite decide_True.
Qed.

(** C1 as stated fails: two raters who both answer 1 on two subjects are an
    Undefined case of the specification (two valid pairs, one category),
    one valid pair is a Missing case, and [calculate_gwet_ac1] returns the
    same result on both, so the distinction is not preserved. *)
Lemma calculate_gwet_ac1_undefined_is_missing :
  gwet_ac1 [Some 1; Some 1]%Z [Some 1; Some 1]%Z = Undefined ∧
  gwet_ac1 [Some 1]%Z [Some 1]%Z = Missing ∧
  calculate_gwet_ac1 [Some 1; Some 1]%Z [Some 1; Some 1]%Z =
  calculate_gwet_ac1 [Some 1]%Z [Some 1]%Z.
Proof. by vm_compute. Qed.

(** C3 (spec 4.1, percent agreement; spec 8, known value).
    [calculate_agreement] returns the number of valid pairs (subjects for
    which both raters have a value) with equal values divided by the number
    of valid pairs, and [None] (Missing) when there is no valid pair; on
    [1,1,0,0,1] against [1,0,0,0,1] it returns 0.8. *)
Theorem calculate_agreement_spec :
  (∀ values1 values2 : list rating,
     calculate_agreement values1 values2 =
     if decide (n_valid values1 values2 = 0%nat) then None
     else Some (Qc_of_nat (n_match values1 values2) /
                Qc_of_nat (n_valid values1 values2))) ∧
  calculate_agreement [Some 1; Some 1; Some 0; Some 0; Some 1]%Z
                      [Some 1; Some 0; Some 0; Some 0; Some 1]%Z =
  Some (Q2Qc 0.8).
Proof.
  split.
  - intros values1 values2. unfold calculate_agreement. cbv zeta.
    by rewrite length_valid_pairs, count_matches_valid_pairs.
  - unfold calculate_agreement. cbn. f_equal. by apply Qc_is_canon.
Qed.

(** C8 (spec 8, symmetry).  Percent agreement and Gwet's AC1 do not depend
    on the order of the two raters, whatever the result ([None]
    included). *)
Theorem agreement_and_ac1_symmetric (values1 values2 : list rating) :
  calculate_agreement values1 values2 = calculate_agreement values2 values1 ∧
  calculate_gwet_ac1 values1 values2 = calculate_gwet_ac1 values2 values1.
Proof.
  split.
  - unfold calculate_agreement. cbv zeta.
    by rewrite (valid_pairs_swap values1 values2), length_fmap,
      count_matches_swap.
  - rewrite !calculate_gwet_ac1_unfold. cbv zeta.
    rewrite (valid_pairs_swap values1 values2), length_fmap,
      count_matches_swap.
    case_decide; [done|].
    apply ac1_of_pooled_Permutation.
    rewrite <-!list_fmap_compose.
    rewrite (Permutation_app_comm (_ <$> _)).
    reflexivity.
Qed.

End PairwiseFacts.


(** ** Krippendorff's Alpha *)

Module KrippendorffFacts.
Import Py IRRCalculator Spec Aux PairwiseFacts.



Lemma sum_over_zero {A} (f : A → Qc) (l : list A) :
  (∀ a, a ∈ l → f a = 0) → sum_over f l = 0.
Proof.
  induction l as [|a l IH]; intros Hf; [done|]. simpl.
  rewrite (Hf a) by left. rewrite IH; [ring|].
  intros a' Ha'. apply Hf. by right.
Qed.

Lemma for_loop_cons {A S} (x : A) (xs : list A) (st : S)
    (body : S → A → option S) :
  for_loop (x :: xs) st body = body st x ≫= λ st', for_loop xs st' body.
Proof. done. Qed.

Section pair_loop.
Context {A : Type} (val : A → Z) (d : Z → Z → option Qc) (dist : Z → Z → Qc).
Context (xs : list A).
Hypothesis d_dist :
  ∀ a b, a ∈ xs → b ∈ xs → d (val a) (val b) = Some (dist (val a) (val b)).



End pair_loop.





















End KrippendorffFacts.


(** ** Intraclass correlation *)

Module ICCFacts.
Import Py IRRCalculator Spec Aux PairwiseFacts.

(** The clamp returns a number of [-1, 1] whatever it is given, NaN and the
    infinities included. *)
Lemma clamp_bounds (icc : npfloat) :
  ∃ x : Qc, clamp icc = Fin x ∧ -1 ≤ x ≤ 1.
Proof.
  assert (H11 : (-1 : Qc) ≤ 1) by done.
  assert (Hm1 : (-1 : Qc) ≤ -1) by done.
  assert (H1 : (1 : Qc) ≤ 1) by done.
  unfold clamp, py_max, py_min.
  destruct icc as [y| | |]; cbn [np_ltb]; try (by eexists; split; [|split]).
  - destruct (bool_decide (y < 1)) eqn:Hy1; cbn [np_ltb].
    + apply bool_decide_eq_true in Hy1.
      destruct (bool_decide (-1 < y)) eqn:Hy2.
      * apply bool_decide_eq_true in Hy2.
        exists y. split; [done|]. split; by apply Qclt_le_weak.
      * by exists (-1).
    + rewrite bool_decide_eq_true_2 by done. by exists 1.
Qed.

(** C5 (spec 4.1, ICC(2,1); spec 8, ICC bound).  [calculate_icc] returns
    [None] (Missing) with fewer than 3 valid pairs, and every result of
    [calculate_icc] and of [calculate_icc_multi] other than [None] is a
    number of the interval [-1, 1]. *)
Theorem icc_missing_and_bounds :
  (∀ values1 values2 : list rating,
     (n_valid values1 values2 < 3)%nat →
     calculate_icc values1 values2 = None) ∧
  (∀ (values1 values2 : list rating) (r : npfloat),
     calculate_icc values1 values2 = Some r →
     ∃ x : Qc, r = Fin x ∧ -1 ≤ x ≤ 1) ∧
  (∀ (value_lists : list (list rating)) (r : npfloat),
     calculate_icc_multi value_lists = Some r →
     ∃ x : Qc, r = Fin x ∧ -1 ≤ x ≤ 1).
Proof.
  split; [|split].
  - intros values1 values2 Hn. unfold calculate_icc. cbv zeta.
    rewrite length_valid_pairs. by rewrite decide_True.
  - intros values1 values2 r. unfold calculate_icc. cbv zeta.
    case_decide; [done|].
    destruct (np_eqb _ _); [done|].
    intros [= <-]. apply clamp_bounds.
  - intros value_lists r. unfold calculate_icc_multi.
    destruct (value_lists !! 0%nat) as [first|]; [|done].
    cbn [mbind option_bind].
    destruct (mapM _ _) as [rows|]; [|done].
    cbn [mbind option_bind]. cbv zeta.
    case_decide; [done|].
    destruct (_ !! 0%nat) as [row0|]; [|done].
    cbn [mbind option_bind].
    destruct (np_eqb _ _); [done|].
    intros [= <-]. apply clamp_bounds.
Qed.

Definition icc_too_few : list rating * list rating :=
  ([Some 1; Some 2; None]%Z, [Some 1; Some 2; Some 3]%Z).

Definition icc_opposed : list rating * list rating :=
  ([Some 1; Some 2; Some 3]%Z, [Some 3; Some 2; Some 1]%Z).

Definition icc_three_raters : list (list rating) :=
  [[Some 1; Some 2; Some 3]; [Some 1; Some 2; Some 4];
   [Some 1; Some 2; Some 4]]%Z.

Lemma icc_opposed_returns :
  is_Some (calculate_icc icc_opposed.1 icc_opposed.2).
Proof. vm_compute. by eexists. Qed.

Lemma icc_three_raters_returns :
  is_Some (calculate_icc_multi icc_three_raters).
Proof. vm_compute. by eexists. Qed.

Lemma icc_missing_and_bounds_witness :
  ((n_valid icc_too_few.1 icc_too_few.2 < 3)%nat ∧
   calculate_icc icc_too_few.1 icc_too_few.2 = None) ∧
  (∃ x : Qc,
     calculate_icc icc_opposed.1 icc_opposed.2 = Some (Fin x) ∧
     -1 ≤ x ≤ 1) ∧
  (∃ x : Qc,
     calculate_icc_multi icc_three_raters = Some (Fin x) ∧ -1 ≤ x ≤ 1).
Proof.
  destruct icc_missing_and_bounds as (Hmissing & Hicc & Hmulti).
  assert (Hn : (n_valid icc_too_few.1 icc_too_few.2 < 3)%nat)
    by (vm_compute; lia).
  split; [split; [exact Hn | exact (Hmissing _ _ Hn)]|]. split.
  - destruct icc_opposed_returns as [r E].
    destruct (Hicc _ _ _ E) as (x & -> & Hx). exists x. split; assumption.
  - destruct icc_three_raters_returns as [r E].
    destruct (Hmulti _ _ E) as (x & -> & Hx). exists x. split; assumption.
Defined.

End ICCFacts.


(** ** Fleiss' Kappa *)

Module FleissFacts.
Import Py IRRCalculator Spec Aux PairwiseFacts KrippendorffFacts.

Lemma Qc_of_Z_plus (a b : Z) : Qc_of_Z (a + b) = Qc_of_Z a + Qc_of_Z b.
Proof.
  apply Qc_is_canon. simpl. rewrite Qred_correct. by rewrite inject_Z_plus.
Qed.

Lemma Qc_of_nat_S (n : nat) : Qc_of_nat (S n) = Qc_of_nat n + 1.
Proof.
  unfold Qc_of_nat. rewrite Nat2Z.inj_succ, <-Z.add_1_r, Qc_of_Z_plus.
  by f_equal.
Qed.

Lemma np_of_nat_0 : np_of_nat 0 = Fin 0.
Proof. unfold np_of_nat. f_equal. by apply Qc_is_canon. Qed.

Lemma np_sum_Fin (xs : list Qc) : np_sum (Fin <$> xs) = Fin (py_sum xs).
Proof.
  unfold np_sum, py_sum. generalize (Q2Qc 0).
  induction xs as [|x xs IH]; intros a; [done|]. simpl. apply IH.
Qed.

Lemma np_div_Fin (a b : Qc) : b ≠ 0 → (Fin a / Fin b)%np = Fin (a / b).
Proof. intros Hb. simpl. by rewrite decide_False. Qed.

Lemma np_mean_Fin (xs : list Qc) :
  xs ≠ [] → np_mean (Fin <$> xs) = Fin (py_sum xs / Qc_of_nat (length xs)).
Proof.
  intros Hxs. unfold np_mean, np_of_nat.
  rewrite np_sum_Fin, length_fmap, np_div_Fin; [done|].
  rewrite Qc_of_nat_0. by destruct xs.
Qed.

(** The rank dictionary of a duplicate-free list maps each value to its
    position. *)
Lemma rank_dict_index (sorted_vals : list Z) (j : nat) (x : Z) :
  NoDup sorted_vals → sorted_vals !! j = Some x →
  rank_dict sorted_vals !! x = Some j.
Proof.
  unfold rank_dict, enumerate.
  assert (Hout : ∀ (l : list Z) (k : nat) (m : gmap Z nat),
            x ∉ l →
            foldl (λ d iv, <[iv.2 := iv.1]> d) m (zip (seq k (length l)) l)
              !! x = m !! x).
  { induction l as [|y l IH]; intros k m Hx; [done|]. simpl.
    apply not_elem_of_cons in Hx as [Hxy Hx].
    rewrite IH by done. by rewrite lookup_insert_ne. }
  assert (Hgen : ∀ (l : list Z) (j k : nat) (m : gmap Z nat),
            NoDup l → l !! j = Some x →
            foldl (λ d iv, <[iv.2 := iv.1]> d) m (zip (seq k (length l)) l)
              !! x = Some (k + j)%nat).
  { induction l as [|y l IH]; intros i k m Hnd Hi; [done|].
    apply NoDup_cons in Hnd as [Hy Hnd]. simpl.
    destruct i as [|i]; simpl in Hi.
    - injection Hi as ->. rewrite Hout by done.
      rewrite lookup_insert_eq. f_equal. lia.
    - rewrite (IH i (S k)) by done. f_equal. lia. }
  intros Hnd Hj. by rewrite (Hgen _ j 0%nat).
Qed.

(** The row of the count matrix of a subject: one count per category. *)
Definition tally (categories : list Z) (vals : list Z) : list nat :=
  (λ c, n_ij vals c) <$> categories.

Lemma n_ij_snoc (vals : list Z) (v c : Z) :
  n_ij (vals ++ [v]) c = (n_ij vals c + (if decide (v = c) then 1 else 0))%nat.
Proof.
  unfold n_ij. rewrite filter_app, length_app. f_equal.
  rewrite filter_cons, filter_nil. by case_decide.
Qed.

Lemma tally_snoc (categories : list Z) (vals : list Z) (v : Z) (j : nat) :
  NoDup categories → categories !! j = Some v →
  tally categories (vals ++ [v]) =
  <[j := S (n_ij vals v)]> (tally categories vals).
Proof.
  intros Hnd Hj. apply list_eq. intros i. unfold tally.
  destruct (decide (i = j)) as [->|Hij].
  - rewrite list_lookup_insert_eq
      by (rewrite length_fmap; by eapply lookup_lt_Some).
    rewrite list_lookup_fmap, Hj. simpl. rewrite n_ij_snoc.
    rewrite decide_True by done. f_equal. lia.
  - rewrite list_lookup_insert_ne by done. rewrite !list_lookup_fmap.
    destruct (categories !! i) as [c|] eqn:Hi; [simpl|done].
    rewrite n_ij_snoc, decide_False; [f_equal; lia|].
    intros <-. apply Hij. by eapply NoDup_lookup.
Qed.

Lemma tally_nil (categories : list Z) :
  np_of_nat <$> tally categories [] = replicate (length categories) (Fin 0).
Proof.
  unfold tally. induction categories as [|c cs IH]; [done|].
  simpl. rewrite <-IH. f_equal. apply np_of_nat_0.
Qed.

(** The loop over the values of subject [i] adds them to row [i] of the
    count matrix. *)
Lemma row_loop_spec (categories : list Z) (i : nat) (vals seen : list Z)
    (counts : list (list npfloat)) :
  NoDup categories → (∀ v, v ∈ vals → v ∈ categories) →
  counts !! i = Some (np_of_nat <$> tally categories seen) →
  for_loop vals counts (λ counts val,
    j ← rank_dict categories !! val; increment counts i j) =
  Some (<[i := np_of_nat <$> tally categories (seen ++ vals)]> counts).
Proof.
  intros Hnd. revert seen counts.
  induction vals as [|v vals IH]; intros seen counts Hvals Hrow.
  - simpl. rewrite app_nil_r. by rewrite list_insert_id.
  - destruct (list_elem_of_lookup_1 categories v) as [j Hj];
      [apply Hvals; left|].
    rewrite for_loop_cons, (rank_dict_index _ _ _ Hnd Hj).
    cbn [mbind option_bind]. unfold increment. rewrite Hrow.
    cbn [mbind option_bind].
    assert (Hc : (np_of_nat <$> tally categories seen) !! j =
                 Some (np_of_nat (n_ij seen v))).
    { unfold tally. by rewrite !list_lookup_fmap, Hj. }
    rewrite Hc. cbn [mbind option_bind].
    assert (Hnew : <[j := (np_of_nat (n_ij seen v) + Fin 1)%np]>
                     (np_of_nat <$> tally categories seen) =
                   np_of_nat <$> tally categories (seen ++ [v])).
    { rewrite (tally_snoc _ _ _ _ Hnd Hj), list_fmap_insert.
      f_equal. unfold np_of_nat. simpl. by rewrite Qc_of_nat_S. }
    rewrite Hnew.
    rewrite (IH (seen ++ [v])).
    + rewrite list_insert_insert_eq. by rewrite <-app_assoc.
    + intros v' Hv'. apply Hvals. by right.
    + apply list_lookup_insert_eq. by eapply lookup_lt_Some.
Qed.

(** The count matrix: row [i] holds the tally of subject [i]. *)
Lemma count_matrix_spec (categories : list Z) (valid_rows : list (list Z)) :
  NoDup categories →
  (∀ row v, row ∈ valid_rows → v ∈ row → v ∈ categories) →
  count_matrix valid_rows (rank_dict categories) (length valid_rows)
               (length categories) =
  Some ((λ row, np_of_nat <$> tally categories row) <$> valid_rows).
Proof.
  intros Hnd Hvals. unfold count_matrix, enumerate, zeros.
  assert (Hgen : ∀ (rest : list (list Z)) (filled : list (list npfloat)),
    (∀ row v, row ∈ rest → v ∈ row → v ∈ categories) →
    for_loop (zip (seq (length filled) (length rest)) rest)
      (filled ++ replicate (length rest)
                           (replicate (length categories) (Fin 0)))
      (λ counts ir,
         for_loop ir.2 counts (λ counts val,
           j ← rank_dict categories !! val; increment counts ir.1 j)) =
    Some (filled ++ ((λ row, np_of_nat <$> tally categories row) <$> rest))).
  { induction rest as [|row rest IH]; intros filled Hrest; [done|].
    cbn [length seq zip zip_with]. rewrite for_loop_cons. cbn [fst snd].
    rewrite (row_loop_spec categories (length filled) row []); [|done|..].
    - cbn [mbind option_bind app].
      cbn [replicate]. rewrite insert_app_r_alt by lia.
      rewrite Nat.sub_diag. cbn [insert list_insert].
      rewrite (cons_middle _ filled), app_assoc.
      specialize (IH (filled ++ [np_of_nat <$> tally categories row])).
      rewrite length_app in IH. simpl in IH.
      rewrite Nat.add_1_r in IH. rewrite IH.
      + by rewrite <-app_assoc.
      + intros r v Hr. apply Hrest. by right.
    - intros v Hv. apply (Hrest row); [left|done].
    - rewrite lookup_app_r by lia. rewrite Nat.sub_diag. simpl.
      by rewrite tally_nil. }
  apply (Hgen valid_rows []). exact Hvals.
Qed.

Lemma columns_counts (categories : list Z) (rows : list (list Z)) :
  columns (length categories)
          ((λ row, np_of_nat <$> tally categories row) <$> rows) =
  (λ c, (λ row, np_of_nat (n_ij row c)) <$> rows) <$> categories.
Proof.
  unfold columns, range. rewrite Nat.sub_0_r. apply list_eq. intros j.
  rewrite !list_lookup_fmap.
  destruct (categories !! j) as [c|] eqn:Hj.
  - rewrite lookup_seq_lt by (by eapply lookup_lt_Some). simpl. f_equal.
    rewrite omap_fmap, list_fmap_alt. apply omap_ext_in. intros row _.
    unfold compose, tally. by rewrite !list_lookup_fmap, Hj.
  - rewrite lookup_seq_ge; [done|]. by apply lookup_ge_None.
Qed.

Lemma P_i_counts (k : nat) (categories : list Z) (rows : list (list Z)) :
  (2 ≤ k)%nat →
  (λ row, (np_sum (np_sq <$> row) - np_of_nat k)
          / np_of_Z (Z.of_nat k * (Z.of_nat k - 1)))%np <$>
    ((λ row, np_of_nat <$> tally categories row) <$> rows) =
  Fin <$> (P_i k categories <$> rows).
Proof.
  intros Hk. rewrite <-!list_fmap_compose. apply list_fmap_ext.
  intros _ row _. unfold compose, tally, P_i.
  assert (np_sq <$> (np_of_nat <$> ((λ c, n_ij row c) <$> categories)) =
          Fin <$> ((λ c, Qc_of_nat (n_ij row c) * Qc_of_nat (n_ij row c))
                   <$> categories)) as ->
    by (by rewrite <-!list_fmap_compose).
  rewrite np_sum_Fin, py_sum_fmap.
  unfold np_of_nat, np_of_Z, np_sub. cbn [np_opp np_add].
  rewrite np_div_Fin by (rewrite Qc_of_Z_0; nia). done.
Qed.

Lemma p_j_counts (k : nat) (categories : list Z) (rows : list (list Z)) :
  (2 ≤ k)%nat → (2 ≤ length rows)%nat →
  (λ col, np_sum col / np_of_nat (length rows * k))%np <$>
    ((λ c, (λ row, np_of_nat (n_ij row c)) <$> rows) <$> categories) =
  Fin <$> ((λ c, sum_over (λ row, Qc_of_nat (n_ij row c)) rows
                 / Qc_of_nat (length rows * k)) <$> categories).
Proof.
  intros Hk Hn. rewrite <-!list_fmap_compose. apply list_fmap_ext.
  intros _ c _. unfold compose.
  assert ((λ row, np_of_nat (n_ij row c)) <$> rows =
          Fin <$> ((λ row, Qc_of_nat (n_ij row c)) <$> rows)) as ->
    by (by rewrite <-!list_fmap_compose).
  rewrite np_sum_Fin, py_sum_fmap.
  unfold np_of_nat. by rewrite np_div_Fin by (rewrite Qc_of_nat_0; nia).
Qed.

Lemma length_complete_rows (k : nat) (ratings_matrix : list (list rating)) :
  Forall (λ row, length row = k) ratings_matrix →
  Forall (λ row, length row = k) (complete_rows ratings_matrix).
Proof.
  intros Hlen. apply Forall_forall. intros vals.
  unfold complete_rows. rewrite list_elem_of_omap.
  intros (row & Hrow & Hvals).
  rewrite Forall_forall in Hlen. rewrite <-(Hlen row Hrow).
  symmetry. by eapply length_mapM.
Qed.

(** C4 (spec 4.2, Fleiss' Kappa).  For a matrix with [k] ratings per subject,
    [k] at least 2 (so for every k of 3 or more), [calculate_fleiss_kappa]
    counts categories over the subjects rated by all [k] raters only,
    returns [None] with fewer than 2 such subjects or fewer than 2 observed
    categories, [None] (commented Undefined in the code) when P_e = 1, and
    otherwise kappa = (P_bar - P_e)/(1 - P_e), with P_bar the mean of the
    per-subject Fleiss agreement and P_e the sum of p_j^2 over the pooled
    category marginals. *)
Theorem calculate_fleiss_kappa_spec (k : nat)
    (ratings_matrix : list (list rating)) :
  (2 ≤ k)%nat →
  Forall (λ row, length row = k) ratings_matrix →
  calculate_fleiss_kappa ratings_matrix =
    Fin <$> collapse (fleiss_kappa k ratings_matrix).
Proof.
  intros Hk Hlen. unfold calculate_fleiss_kappa, fleiss_kappa.
  change (omap all_present ratings_matrix)
    with (complete_rows ratings_matrix).
  pose proof (length_complete_rows k ratings_matrix Hlen) as Hrows.
  set (rows := complete_rows ratings_matrix) in *.
  cbv zeta. case_decide as Hn; [done|].
  destruct (lookup_lt_is_Some_2 rows 0) as [row0 Hrow0]; [lia|].
  rewrite Hrow0. cbn [mbind option_bind].
  rewrite (Forall_lookup_1 _ _ _ _ Hrows Hrow0).
  assert (Hcats : sorted_set (concat rows) ≡ₚ
                  fleiss_categories ratings_matrix)
    by apply merge_sort_Permutation.
  assert (Hq : length (sorted_set (concat rows)) =
               length (fleiss_categories ratings_matrix))
    by (by rewrite Hcats).
  rewrite Hq. case_decide as Hq2; [done|]. rewrite <-Hq.
  rewrite count_matrix_spec.
  2:{ apply sorted_set_NoDup. }
  2:{ intros row v Hrow Hv. apply elem_of_sorted_set.
      apply list_elem_of_bind. by exists row. }
  cbn [mbind option_bind].
  rewrite columns_counts, p_j_counts, P_i_counts by lia.
  rewrite np_mean_Fin.
  2:{ intros Hnil%(f_equal length). rewrite length_fmap in Hnil.
      simpl in Hnil. lia. }
  rewrite length_fmap, py_sum_fmap.
  assert (np_sq <$> (Fin <$> ((λ c, sum_over (λ row, Qc_of_nat (n_ij row c))
                                    rows / Qc_of_nat (length rows * k))
                              <$> sorted_set (concat rows))) =
          Fin <$> ((λ c, p_j k ratings_matrix c * p_j k ratings_matrix c)
                   <$> sorted_set (concat rows))) as ->
    by (by rewrite <-!list_fmap_compose).
  rewrite np_sum_Fin, py_sum_fmap.
  rewrite (sum_over_Permutation _ _ _ Hcats).
  fold (P_e k ratings_matrix).
  assert (sum_over (P_i k (sorted_set (concat rows))) rows /
          Qc_of_nat (length rows) = P_bar k ratings_matrix) as ->.
  { unfold P_bar. fold rows. f_equal. apply sum_over_ext. intros row _.
    unfold P_i. by rewrite (sum_over_Permutation _ _ _ Hcats). }
  cbn [np_eqb]. case_bool_decide as HPe.
  - by rewrite decide_True.
  - rewrite decide_False by done. cbn [collapse fmap option_fmap option_map].
    f_equal. unfold np_sub. cbn [np_opp np_add].
    apply np_div_Fin. intros H0. apply HPe.
    rewrite <-(Qcplus_0_l (P_e k ratings_matrix)), <-H0. ring.
Qed.

(** Three raters, four subjects, the last one rated by two raters only. *)
Definition fleiss_example : list (list rating) :=
  [ [Some 1; Some 1; Some 0];
    [Some 1; Some 1; Some 1];
    [Some 0; Some 0; Some 0];
    [Some 0; None;   Some 0] ]%Z.

Lemma calculate_fleiss_kappa_spec_witness :
  (2 ≤ 3)%nat ∧
  Forall (λ row, length row = 3%nat) fleiss_example ∧
  complete_rows fleiss_example = [[1; 1; 0]; [1; 1; 1]; [0; 0; 0]]%Z ∧
  calculate_fleiss_kappa fleiss_example =
    Fin <$> collapse (fleiss_kappa 3 fleiss_example).
Proof.
  assert (Hk : (2 ≤ 3)%nat) by lia.
  assert (Hlen : Forall (λ row, length row = 3%nat) fleiss_example)
    by (by repeat constructor).
  split; [exact Hk|]. split; [exact Hlen|]. split; [reflexivity|].
  exact (calculate_fleiss_kappa_spec 3 fleiss_example Hk Hlen).
Defined.

End FleissFacts.


(** ** Normalisation of raw values *)

Module NormalizeFacts.
Import Py IRRCalculator Spec Aux PairwiseFacts.

Section normalize.
Context `{Externals}.

(** A raw value that parses as a number is truncated to an integer. *)
Lemma normalize_number (v : raw) (var : string) (x : Qc) :
  py_float v = Returns (Fin x) →
  _normalize_value v var = Returns (Some (Qc_trunc x)).
Proof.
  destruct v as [|z|f|s]; simpl; try done.
  - by intros [= <-].
  - by intros [= ->].
  - destruct (py_blank s) eqn:Hblank.
    + by rewrite (float_of_str_blank s Hblank).
    + unfold _normalize_value. rewrite Hblank. simpl.
      destruct (float_of_str s) as [f|]; [|done]. by intros [= ->].
Qed.

(** A raw value that fails to parse, or parses as NaN, is Missing. *)
Lemma normalize_failure (v : raw) (var : string) :
  (∃ e, py_float v = Raises e) ∨ py_float v = Returns NaN →
  _normalize_value v var = Returns None.
Proof.
  destruct v as [|z|f|s]; simpl.
  - done.
  - by intros [[e [=]]|[=]].
  - intros [[e [=]]|[= ->]]. done.
  - unfold _normalize_value. destruct (py_blank s); [done|]. simpl.
    destruct (float_of_str s) as [f|]; [|done].
    by intros [[e [=]]|[= ->]].
Qed.

Lemma normalize_blank (s : string) (var : string) :
  py_blank s = true → _normalize_value (RStr s) var = Returns None.
Proof. intros Hs. unfold _normalize_value. by rewrite Hs. Qed.

(** An infinite float is not caught: [int] raises [OverflowError]. *)
Lemma normalize_infinite (v : raw) (var : string) :
  py_float v = Returns PInf ∨ py_float v = Returns NInf →
  _normalize_value v var = Raises OverflowError.
Proof.
  destruct v as [|z|f|s]; simpl.
  - by intros [[=]|[=]].
  - by intros [[=]|[=]].
  - by intros [[= ->]|[= ->]].
  - destruct (py_blank s) eqn:Hblank.
    + rewrite (float_of_str_blank s Hblank). by intros [[=]|[=]].
    + unfold _normalize_value. rewrite Hblank. simpl.
      destruct (float_of_str s) as [f|]; [|by intros [[=]|[=]]].
      by intros [[= ->]|[= ->]].
Qed.

(** The valid pairs on which the two coders differ. *)
Definition disagreeing (values1 values2 : list rating) : list (Z * Z) :=
  filter (λ p : Z * Z, p.1 ≠ p.2) (valid_pairs values1 values2).

(** What the first loop of [compare_coders] has built for the variable [var]
    after the platforms [ids]: the two lists of normalised values and the
    disagreements between them. *)
Definition collected (coder1_results coder2_results : coder_results)
    (ids : list string) (variable_data : gmap string var_data)
    (var : string) : Prop :=
  let data := get_var_data variable_data var in
  Forall2 (λ pid v,
             _normalize_value
               (dict_get (default ∅ (coder1_results !! pid)) var) var =
             Returns v) ids (vd_coder1 data) ∧
  Forall2 (λ pid v,
             _normalize_value
               (dict_get (default ∅ (coder2_results !! pid)) var) var =
             Returns v) ids (vd_coder2 data) ∧
  (λ d, (d_value1 d, d_value2 d)) <$> vd_disagreements data =
    disagreeing (vd_coder1 data) (vd_coder2 data).

Lemma valid_pairs_app (l1 l2 k1 k2 : list rating) :
  length l1 = length l2 →
  valid_pairs (l1 ++ k1) (l2 ++ k2) = valid_pairs l1 l2 ++ valid_pairs k1 k2.
Proof.
  revert l2. induction l1 as [|x l1 IH]; intros [|y l2] Hlen;
    simpl in Hlen; try done.
  rewrite <-!app_comm_cons, !valid_pairs_cons, IH by lia.
  by destruct x, y.
Qed.

Lemma PRIMARY_VARIABLES_NoDup : NoDup PRIMARY_VARIABLES.
Proof. apply (bool_decide_unpack _). by vm_compute. Qed.

(** The loop over the variables, for one platform. *)
Lemma variables_loop_spec (platform_id : string) (r1 r2 : gmap string raw)
    (vars : list string) (variable_data variable_data' : gmap string var_data) :
  NoDup vars →
  for_each vars variable_data (λ variable_data var,
    v1 ← _normalize_value (dict_get r1 var) var;
    v2 ← _normalize_value (dict_get r2 var) var;
    let data := get_var_data variable_data var in
    Returns (<[var := record_values platform_id r1 data v1 v2]>
               variable_data)) = Returns variable_data' →
  (∀ var, var ∉ vars → variable_data' !! var = variable_data !! var) ∧
  (∀ var, var ∈ vars →
     ∃ v1 v2,
       _normalize_value (dict_get r1 var) var = Returns v1 ∧
       _normalize_value (dict_get r2 var) var = Returns v2 ∧
       get_var_data variable_data' var =
       record_values platform_id r1 (get_var_data variable_data var) v1 v2).
Proof.
  revert variable_data.
  induction vars as [|var vars IH]; intros variable_data Hnd Hrun.
  - simpl in Hrun. injection Hrun as <-. split; [done|].
    by intros var ?%elem_of_nil.
  - apply NoDup_cons in Hnd as [Hvar Hnd]. cbn [for_each] in Hrun.
    destruct (_normalize_value (dict_get r1 var) var) as [v1|e] eqn:Hv1;
      [|done].
    destruct (_normalize_value (dict_get r2 var) var) as [v2|e] eqn:Hv2;
      [|done].
    cbn [mbind outcome_bind] in Hrun.
    destruct (IH _ Hnd Hrun) as [Hother Hvars]. split.
    + intros var' [Hne Hnot]%not_elem_of_cons.
      rewrite (Hother var' Hnot). by rewrite lookup_insert_ne.
    + intros var' [->|Hin]%elem_of_cons.
      * exists v1, v2. split; [done|]. split; [done|].
        unfold get_var_data at 1. rewrite (Hother var Hvar).
        by rewrite lookup_insert_eq.
      * destruct (Hvars var' Hin) as (w1 & w2 & Hw1 & Hw2 & Hdata).
        exists w1, w2. split; [done|]. split; [done|].
        rewrite Hdata. unfold get_var_data.
        rewrite lookup_insert_ne; [done|]. by intros ->.
Qed.

Lemma collected_step (coder1_results coder2_results : coder_results)
    (ids : list string) (pid : string)
    (variable_data variable_data' : gmap string var_data)
    (var : string) (v1 v2 : rating) :
  collected coder1_results coder2_results ids variable_data var →
  _normalize_value (dict_get (default ∅ (coder1_results !! pid)) var) var =
    Returns v1 →
  _normalize_value (dict_get (default ∅ (coder2_results !! pid)) var) var =
    Returns v2 →
  get_var_data variable_data' var =
    record_values pid (default ∅ (coder1_results !! pid))
                  (get_var_data variable_data var) v1 v2 →
  collected coder1_results coder2_results (ids ++ [pid]) variable_data' var.
Proof.
  intros (Hc1 & Hc2 & Hdis) Hv1 Hv2 Hdata. unfold collected.
  rewrite Hdata. cbn [record_values vd_coder1 vd_coder2 vd_disagreements].
  split; [apply Forall2_app; [done|by constructor]|].
  split; [apply Forall2_app; [done|by constructor]|].
  unfold disagreeing in *.
  rewrite valid_pairs_app, filter_app, <-Hdis
    by (rewrite <-(Forall2_length _ _ _ Hc1); by apply Forall2_length in Hc2).
  destruct v1 as [a|], v2 as [b|]; cbn; rewrite ?app_nil_r; try done.
  destruct (decide (a ≠ b)); [|by rewrite app_nil_r].
  by rewrite fmap_app.
Qed.

(** The first loop of [compare_coders]: whenever it ends without raising,
    the lists of every variable hold the normalised values of the common
    platforms, and the recorded disagreements are those of these lists. *)
Lemma collect_spec (coder1_results coder2_results : coder_results)
    (ids : list string) (variable_data : gmap string var_data) :
  collect coder1_results coder2_results ids = Returns variable_data →
  ∀ var, var ∈ PRIMARY_VARIABLES →
         collected coder1_results coder2_results ids variable_data var.
Proof.
  unfold collect.
  assert (Hgen : ∀ (rest seen : list string) (vd vd' : gmap string var_data),
    (∀ var, var ∈ PRIMARY_VARIABLES →
            collected coder1_results coder2_results seen vd var) →
    for_each rest vd (λ variable_data platform_id,
      let r1 := default ∅ (coder1_results !! platform_id) in
      let r2 := default ∅ (coder2_results !! platform_id) in
      for_each PRIMARY_VARIABLES variable_data (λ variable_data var,
        v1 ← _normalize_value (dict_get r1 var) var;
        v2 ← _normalize_value (dict_get r2 var) var;
        let data := get_var_data variable_data var in
        Returns (<[var := record_values platform_id r1 data v1 v2]>
                   variable_data))) = Returns vd' →
    ∀ var, var ∈ PRIMARY_VARIABLES →
           collected coder1_results coder2_results (seen ++ rest) vd' var).
  { induction rest as [|pid rest IH]; intros seen vd vd' Hseen Hrun.
    - simpl in Hrun. injection Hrun as <-. by rewrite app_nil_r.
    - cbn [for_each] in Hrun. cbv zeta in Hrun.
      destruct (for_each PRIMARY_VARIABLES vd _) as [vd1|e] eqn:Hinner;
        [|done].
      cbn [mbind outcome_bind] in Hrun.
      destruct (variables_loop_spec _ _ _ _ _ _ PRIMARY_VARIABLES_NoDup Hinner)
        as [_ Hvars].
      rewrite (cons_middle pid seen rest), app_assoc.
      apply (IH (seen ++ [pid]) vd1 vd'); [|done].
      intros var Hvar.
      destruct (Hvars var Hvar) as (v1 & v2 & Hv1 & Hv2 & Hdata).
      exact (collected_step _ _ seen pid vd vd1 var v1 v2
               (Hseen var Hvar) Hv1 Hv2 Hdata). }
  intros Hrun. apply (Hgen ids [] ∅ variable_data); [|done].
  intros var _. unfold collected, get_var_data, disagreeing.
  rewrite lookup_empty. simpl. by repeat split.
Qed.


End normalize.





End NormalizeFacts.


(** ** Aggregation over the variables *)

Module AggregateFacts.
Import Py IRRCalculator Spec Aux PairwiseFacts.

Lemma is_nan_read (o : option npfloat) :
  is_nan o = true ↔ read o = ReadUndefined.
Proof. by destruct o as [[]|]. Qed.

Lemma not_none_nan_values (results : list (option npfloat)) :
  not_none_nan results = values results.
Proof.
  unfold not_none_nan, values. apply omap_ext_in. intros o _.
  by destruct o as [[]|].
Qed.

(** Where no result is NaN, dropping [None] leaves the values. *)
Lemma not_none_values (results : list (option npfloat)) :
  Forall (λ o, is_nan o = false) results → not_none results = values results.
Proof.
  intros Hfin. unfold not_none, values. apply omap_ext_in. intros o Ho.
  rewrite Forall_forall in Hfin. specialize (Hfin o Ho).
  by destruct o as [[]|].
Qed.

Lemma mean_or_none_values (results : list (option npfloat)) :
  mean_or_none (values results) = mean_of_values results.
Proof.
  unfold mean_or_none, mean_of_values, np_mean.
  by destruct (values results).
Qed.

Lemma n_undefined_kappa (results : list var_result) :
  length (filter (λ r, is_nan (kappa r) = true) results) =
  n_undefined (kappa <$> results).
Proof.
  unfold n_undefined. induction results as [|r results IH]; [done|].
  rewrite fmap_cons, !filter_cons.
  destruct (decide (is_nan (kappa r) = true)); simpl; by rewrite IH.
Qed.

Section aggregate.
Context `{Externals}.

(** Percent agreement is never NaN. *)
Lemma agreement_not_nan (variable_data : gmap string var_data)
    (vars : list string) :
  Forall (λ o, is_nan o = false)
         (agreement <$> (variable_result variable_data <$> vars)).
Proof.
  apply Forall_fmap, Forall_fmap, Forall_forall. intros var _. simpl.
  by destruct (IRRCalculator.calculate_agreement _ _).
Qed.

(** The overall statistics, for any collected data. *)
Lemma summarise_spec (variable_data : gmap string var_data)
    (common_ids : list string) (coder1_name coder2_name : string) :
  reports_means_of_values
    (summarise (variable_result variable_data <$> PRIMARY_VARIABLES)
               common_ids coder1_name coder2_name).
Proof.
  unfold reports_means_of_values, summarise.
  cbn [overall_agreement mean_kappa mean_gwet_ac1 mean_kripp_alpha mean_icc
       n_kappa_valid n_kappa_perfect_agreement n_ac1_valid n_kripp_valid
       variables].
  rewrite !not_none_nan_values, !mean_or_none_values.
  rewrite not_none_values by apply agreement_not_nan.
  rewrite mean_or_none_values.
  repeat split; try done.
  apply n_undefined_kappa.
Qed.

(** C7, as the code has it (spec 4.4 and 7, aggregation).  In the summary of
    [compare_coders] the overall agreement and the means of Cohen's Kappa,
    Gwet's AC1, Krippendorff's Alpha and ICC are each the arithmetic mean of
    the per-variable results that are neither [None] (Missing) nor NaN
    (Undefined), so none of these counts as zero; the summary gives the
    number of values for Kappa, AC1 and Alpha, and the number of Undefined
    results for Kappa only. *)
Theorem compare_coders_means_of_values
    (coder1_results coder2_results : coder_results)
    (coder1_name coder2_name : string) (s : summary) :
  compare_coders coder1_results coder2_results coder1_name coder2_name =
    Returns s →
  reports_means_of_values s.
Proof.
  unfold compare_coders. cbv zeta.
  destruct (collect _ _ _) as [variable_data|e]; [|done].
  cbn [mbind outcome_bind]. intros [= <-]. apply summarise_spec.
Qed.

End aggregate.

(** Three platforms on which both coders answer 1 for DEVP and 3 for METH. *)
Definition constant_coder : coder_results :=
  {[ "p1" := {[ "DEVP" := RInt 1; "METH" := RInt 3 ]};
     "p2" := {[ "DEVP" := RInt 1; "METH" := RInt 3 ]};
     "p3" := {[ "DEVP" := RInt 1; "METH" := RInt 3 ]} ]}.

(** The same answers, given for the first platform only (DEVP) or for the
    first two (METH). *)
Definition sparse_coder : coder_results :=
  {[ "p1" := {[ "DEVP" := RInt 1; "METH" := RInt 3 ]};
     "p2" := {[ "METH" := RInt 3 ]};
     "p3" := ∅ ]}.

(** Two coders who differ on some platforms. *)
Definition coder_a : coder_results :=
  {[ "p1" := {[ "DEVP" := RInt 1; "METH" := RInt 3 ]};
     "p2" := {[ "DEVP" := RInt 1; "METH" := RInt 5 ]};
     "p3" := {[ "DEVP" := RInt 0; "METH" := RInt 5 ]} ]}.
Definition coder_b : coder_results :=
  {[ "p1" := {[ "DEVP" := RInt 1; "METH" := RInt 3 ]};
     "p2" := {[ "DEVP" := RInt 0; "METH" := RInt 4 ]};
     "p3" := {[ "DEVP" := RInt 0; "METH" := RInt 6 ]} ]}.

(** A part of the summary, when [compare_coders] returns one. *)
Definition report_of {A} (f : summary → A) (o : outcome summary) : option A :=
  match o with
  | Returns s => Some (f s)
  | Raises _ => None
  end.

(** What the summary says about AC1: its mean and its number of values. *)
Definition ac1_report (s : summary) : option npfloat * nat :=
  (mean_gwet_ac1 s, n_ac1_valid s).

(** The DEVP entry of the summary: valid pairs and AC1. *)
Definition devp_entry (s : summary) : option (string * nat * option npfloat) :=
  (λ r, (variable r, n r, IRRCalculator.gwet_ac1 r)) <$> head (variables s).

(** C7 as stated fails for AC1: with a constant coder against itself DEVP
    has 3 valid pairs and one category, an Undefined AC1; against the sparse
    coder it has 1 valid pair, a Missing AC1.  The summary says the same
    about AC1 in both runs (no mean, 0 values): the number of Undefined AC1
    results is not reported. *)
Lemma compare_coders_undefined_ac1_not_counted :
  let undefined_run :=
    compare_coders (H := Reference.reference_externals)
      constant_coder constant_coder "Claude" "ChatGPT" in
  let missing_run :=
    compare_coders (H := Reference.reference_externals)
      constant_coder sparse_coder "Claude" "ChatGPT" in
  Spec.gwet_ac1 [Some 1; Some 1; Some 1]%Z [Some 1; Some 1; Some 1]%Z
    = Undefined ∧
  Spec.gwet_ac1 [Some 1; Some 1; Some 1]%Z [Some 1; None; None]%Z = Missing ∧
  report_of devp_entry undefined_run = Some (Some ("DEVP", 3%nat, None)) ∧
  report_of devp_entry missing_run = Some (Some ("DEVP", 1%nat, None)) ∧
  report_of ac1_report undefined_run = Some (None, 0%nat) ∧
  report_of ac1_report missing_run = Some (None, 0%nat).
Proof. by vm_compute. Qed.

Lemma coders_a_b_return :
  ∃ s, compare_coders (H := Reference.reference_externals)
         coder_a coder_b "Claude" "ChatGPT" = Returns s.
Proof. vm_compute. by eexists. Qed.

(** On [coder_a] against [coder_b] two variables have a percent agreement
    (2/3 and 1/3) and 43 have none: the overall agreement is 1/2. *)
Lemma compare_coders_means_of_values_witness :
  ∃ s, compare_coders (H := Reference.reference_externals)
         coder_a coder_b "Claude" "ChatGPT" = Returns s ∧
       reports_means_of_values s ∧
       length (values (agreement <$> variables s)) = 2%nat ∧
       ((λ x, np_eqb x (Fin (Q2Qc 0.5))) <$> overall_agreement s) = Some true.
Proof.
  destruct coders_a_b_return as [s Hs]. exists s.
  split; [exact Hs|].
  split; [exact (compare_coders_means_of_values
                   (H := Reference.reference_externals) _ _ _ _ s Hs)|].
  revert Hs. vm_compute. intros [= <-]. by split.
Defined.

End AggregateFacts.


(** ** The human IRR calculator *)

Module HumanFacts.
Import Py HumanIRR.

(** The three classes of a subject rated by three coders. *)
Inductive agreement_level : Type := AllAgree | MajorityAgree | NoneAgree.

Global Instance agreement_level_eq_dec : EqDecision agreement_level.
Proof. solve_decision. Defined.




Section human.
Context `{Externals}.



Definition agree (c : comparison) : Prop :=
  calculate_agreement (c_value1 c) (c_value2 c) = true.

Global Instance agree_dec c : Decision (agree c).
Proof. unfold agree. apply _. Defined.










(** *** Three coders *)

(** The triples classified for one platform: one per variable of the human
    coder that both other coders have too. *)
Definition triples_of_platform
    (human claude chatgpt : gmap string (gmap string raw)) (pid : string)
    : list (raw * raw * raw) :=
  omap (λ kv : string * raw,
          c_val ← default ∅ (claude !! pid) !! kv.1;
          g_val ← default ∅ (chatgpt !! pid) !! kv.1;
          Some (kv.2, c_val, g_val))
       (map_to_list (default ∅ (human !! pid))).

(** All triples classified by [calculate_three_way_agreement], in order. *)
Definition triples (human claude chatgpt : gmap string (gmap string raw))
    : list (raw * raw * raw) :=
  elements (dom human ∩ dom claude ∩ dom chatgpt) ≫=
    triples_of_platform human claude chatgpt.







(** The number of values of a triple that are not missing. *)
Definition non_missing (t : raw * raw * raw) : nat :=
  length (filter (λ v, pd_isna v = false) [t.1.1; t.1.2; t.2]).

(** A qualifying subject has at least 2 values that are not missing. *)
Definition qualifying_subject (t : raw * raw * raw) : Prop :=
  (2 ≤ non_missing t)%nat.

Global Instance qualifying_subject_dec t : Decision (qualifying_subject t).
Proof. unfold qualifying_subject. apply _. Defined.




















End human.









End HumanFacts.


(** ** Further properties of the code *)

Module QcOrder.
Import Py.

Lemma Qc_of_nat_le (n m : nat) : (n ≤ m)%nat → Qc_of_nat n ≤ Qc_of_nat m.
Proof. intros Hnm. unfold Qc_of_nat. apply (proj1 (Z2Qc_inj_le _ _)). lia. Qed.

Lemma Qc_of_nat_pos (n : nat) : (0 < n)%nat → 0 < Qc_of_nat n.
Proof.
  intros Hn. unfold Qc_of_nat. rewrite <-Z2Qc_inj_0.
  apply (proj1 (Z2Qc_inj_lt _ _)). lia.
Qed.

Lemma Qc_of_nat_nonneg (n : nat) : 0 ≤ Qc_of_nat n.
Proof.
  unfold Qc_of_nat. rewrite <-Z2Qc_inj_0.
  apply (proj1 (Z2Qc_inj_le _ _)). lia.
Qed.

Lemma Qc_pos_ne_0 (d : Qc) : 0 < d → d ≠ 0.
Proof. intros Hd ->. by apply (irreflexivity Qclt 0). Qed.

Lemma Qc_div_nonneg (a d : Qc) : 0 ≤ a → 0 < d → 0 ≤ a / d.
Proof.
  intros Ha Hd. unfold Qcdiv. apply Qcmult_nonneg_nonneg; [done|].
  by apply Qclt_le_weak, Qcinv_pos.
Qed.

Lemma Qc_div_le (a b d : Qc) : 0 < d → a / d ≤ b ↔ a ≤ b * d.
Proof.
  intros Hd. rewrite (Qcmult_le_mono_pos_r (a / d) b d Hd).
  unfold Qcdiv. rewrite <-Qcmult_assoc, (Qcmult_comm (/ d)).
  by rewrite Qcmult_inv_r, Qcmult_1_r by by apply Qc_pos_ne_0.
Qed.

Lemma Qc_le_div (a b d : Qc) : 0 < d → b ≤ a / d ↔ b * d ≤ a.
Proof.
  intros Hd. rewrite (Qcmult_le_mono_pos_r b (a / d) d Hd).
  unfold Qcdiv. rewrite <-Qcmult_assoc, (Qcmult_comm (/ d)).
  by rewrite Qcmult_inv_r, Qcmult_1_r by by apply Qc_pos_ne_0.
Qed.

Lemma Qc_div_eq (a b d : Qc) : d ≠ 0 → a / d = b ↔ a = b * d.
Proof.
  intros Hd. split.
  - intros <-. unfold Qcdiv. rewrite <-Qcmult_assoc, (Qcmult_comm (/ d)).
    by rewrite Qcmult_inv_r, Qcmult_1_r.
  - intros ->. by apply Qcdiv_mult_l.
Qed.

Lemma Qc_square_nonneg (x : Qc) : 0 ≤ x * x.
Proof.
  destruct (total Qcle 0 x) as [Hx|Hx].
  - by apply Qcmult_nonneg_nonneg.
  - replace (x * x) with ((- x) * (- x)) by ring.
    assert (0 ≤ - x).
    { apply Qcopp_le_compat in Hx. by replace (- 0) with 0 in Hx by ring. }
    by apply Qcmult_nonneg_nonneg.
Qed.

(** [p (1 - p)] is at most 1/4. *)
Lemma Qc_variance_bound (p : Qc) : p * (1 - p) ≤ Q2Qc (1 # 4).
Proof.
  apply Qcle_minus_iff.
  replace (Q2Qc (1 # 4) + - (p * (1 - p)))
    with ((p - Q2Qc (1 # 2)) * (p - Q2Qc (1 # 2))).
  - apply Qc_square_nonneg.
  - assert (Q2Qc (1 # 4) = Q2Qc (1 # 2) * Q2Qc (1 # 2)) as ->
      by (by apply Qc_is_canon).
    assert (H2 : 1 = Q2Qc (1 # 2) + Q2Qc (1 # 2)) by (by apply Qc_is_canon).
    rewrite H2 at 1. generalize (Q2Qc (1 # 2)). intros h. ring.
Qed.

(** Linear arithmetic on [Qc], through [Q]. *)
Lemma this_plus (x y : Qc) : (this (x + y) == this x + this y)%Q.
Proof. apply Qred_correct. Qed.

Lemma this_mult (x y : Qc) : (this (x * y) == this x * this y)%Q.
Proof. apply Qred_correct. Qed.

Lemma this_opp (x : Qc) : (this (- x) == - this x)%Q.
Proof. apply Qred_correct. Qed.

Lemma this_minus (x y : Qc) : (this (x - y) == this x - this y)%Q.
Proof. unfold Qcminus. rewrite this_plus, this_opp. reflexivity. Qed.

Lemma this_Q2Qc (q : Q) : (this (Q2Qc q) == q)%Q.
Proof. apply Qred_correct. Qed.

Lemma Qc_eq_Qeq (x y : Qc) : x = y ↔ (this x == this y)%Q.
Proof. split; [by intros ->|apply Qc_is_canon]. Qed.

Ltac qc_push_in H :=
  repeat first
    [ rewrite this_plus in H | rewrite this_mult in H | rewrite this_opp in H
    | rewrite this_minus in H | rewrite this_Q2Qc in H ].

Ltac qc_to_q :=
  unfold Qcle, Qclt in *;
  repeat match goal with
  | H : @eq Qc _ _ |- _ => apply Qc_eq_Qeq in H
  | H : ¬ @eq Qc _ _ |- _ => rewrite Qc_eq_Qeq in H
  | |- @eq Qc _ _ => apply Qc_eq_Qeq
  | |- ¬ @eq Qc _ _ => rewrite Qc_eq_Qeq
  end;
  repeat match goal with
  | H : context [this (_ + _)] |- _ => qc_push_in H
  | H : context [this (_ * _)] |- _ => qc_push_in H
  | H : context [this (_ - _)] |- _ => qc_push_in H
  | H : context [this (- _)] |- _ => qc_push_in H
  | H : context [this (Q2Qc _)] |- _ => qc_push_in H
  end;
  repeat first
    [ rewrite this_plus | rewrite this_mult | rewrite this_opp
    | rewrite this_minus | rewrite this_Q2Qc ].

Ltac qc_lra := qc_to_q; lra.

(** Bounds of a sum from bounds of its terms. *)
Lemma sum_over_le {A} (f : A → Qc) (hi : Qc) (l : list A) :
  (∀ a, a ∈ l → f a ≤ hi) →
  Spec.sum_over f l ≤ hi * Qc_of_nat (length l).
Proof.
  unfold Spec.sum_over. induction l as [|a l IH]; intros Hf.
  - simpl. rewrite (proj2 (Aux.Qc_of_nat_0 0%nat)), Qcmult_0_r by done.
    apply Qcle_refl.
  - cbn [foldr length]. rewrite FleissFacts.Qc_of_nat_S.
    pose proof (Hf a (list_elem_of_here _ _)).
    assert (foldr (λ a s, f a + s) 0 l ≤ hi * Qc_of_nat (length l))
      by (apply IH; intros; apply Hf; by right).
    qc_lra.
Qed.

Lemma sum_over_nonneg {A} (f : A → Qc) (l : list A) :
  (∀ a, a ∈ l → 0 ≤ f a) → 0 ≤ Spec.sum_over f l.
Proof.
  unfold Spec.sum_over. induction l as [|a l IH]; intros Hf.
  - apply Qcle_refl.
  - cbn [foldr]. apply Qcplus_nonneg_nonneg; [apply Hf; by left|].
    apply IH. intros. apply Hf. by right.
Qed.

End QcOrder.

Module BoundsFacts.
Import Py IRRCalculator Spec Aux PairwiseFacts QcOrder.

Lemma length_filter_all {A} (P : A → Prop) `{!∀ a, Decision (P a)}
    (l : list A) :
  length (filter P l) = length l ↔ Forall P l.
Proof.
  induction l as [|a l IH]; [by split|].
  rewrite filter_cons, Forall_cons. pose proof (length_filter P l).
  case_decide; simpl; [rewrite <-IH|]; split; intros; try lia; naive_solver.
Qed.

Lemma length_filter_none {A} (P : A → Prop) `{!∀ a, Decision (P a)}
    (l : list A) :
  length (filter P l) = 0%nat ↔ Forall (λ a, ¬ P a) l.
Proof.
  induction l as [|a l IH]; [by split|].
  rewrite filter_cons, Forall_cons.
  case_decide; simpl; [|rewrite IH]; split; intros; try lia; naive_solver.
Qed.

(** A proportion [m / n] of a part in a whole. *)
Lemma proportion_bounds (m n : nat) :
  (m ≤ n)%nat → (0 < n)%nat →
  0 ≤ Qc_of_nat m / Qc_of_nat n ∧ Qc_of_nat m / Qc_of_nat n ≤ 1 ∧
  (Qc_of_nat m / Qc_of_nat n = 1 ↔ m = n) ∧
  (Qc_of_nat m / Qc_of_nat n = 0 ↔ m = 0%nat).
Proof.
  intros Hle Hn.
  assert (Hpos : 0 < Qc_of_nat n) by (by apply Qc_of_nat_pos).
  split_and!.
  - apply Qc_div_nonneg; [apply Qc_of_nat_nonneg|done].
  - apply Qc_div_le; [done|]. rewrite Qcmult_1_l. by apply Qc_of_nat_le.
  - rewrite Qc_div_eq, Qcmult_1_l by by apply Qc_pos_ne_0.
    unfold Qc_of_nat. by rewrite Z2Qc_inj_iff, Nat2Z.inj_iff.
  - rewrite Qc_div_eq, Qcmult_0_l by by apply Qc_pos_ne_0.
    by rewrite Qc_of_nat_0.
Qed.

(** Percent agreement lies in [0, 1]; it is 1 exactly when every valid pair
    matches and 0 exactly when none does. *)
Theorem calculate_agreement_bounds (values1 values2 : list rating) (x : Qc) :
  calculate_agreement values1 values2 = Some x →
  0 ≤ x ∧ x ≤ 1 ∧
  (x = 1 ↔ Forall (λ p : Z * Z, p.1 = p.2) (valid_pairs values1 values2)) ∧
  (x = 0 ↔ Forall (λ p : Z * Z, p.1 ≠ p.2) (valid_pairs values1 values2)).
Proof.
  unfold calculate_agreement, count_matches. cbv zeta.
  case_decide as Hn; [done|]. intros [= <-].
  destruct (proportion_bounds
              (length (filter (λ p : Z * Z, p.1 = p.2)
                              (valid_pairs values1 values2)))
              (length (valid_pairs values1 values2)))
    as (H0 & H1 & Hall & Hnone); [apply length_filter|lia|].
  split; [done|]. split; [done|].
  by rewrite Hall, Hnone, length_filter_all, length_filter_none.
Qed.

(** The pooled marginal of a category is a proportion. *)
Lemma marginal_bounds (values1 values2 : list rating) (k : Z) :
  (0 < n_valid values1 values2)%nat →
  0 ≤ marginal values1 values2 k ∧ marginal values1 values2 k ≤ 1.
Proof.
  intros Hn. unfold marginal.
  pose proof (length_filter (λ v, v = k) (pooled values1 values2)) as Hle.
  assert (0 < Qc_of_nat (length (pooled values1 values2)))
    by (apply Qc_of_nat_pos; rewrite length_pooled; lia).
  split.
  - apply Qc_div_nonneg; [apply Qc_of_nat_nonneg|done].
  - apply Qc_div_le; [done|]. rewrite Qcmult_1_l. by apply Qc_of_nat_le.
Qed.

(** The chance agreement of AC1 lies in [0, 1/2]. *)
Lemma pe_bounds (values1 values2 : list rating) :
  (0 < n_valid values1 values2)%nat →
  (2 ≤ length (observed_categories values1 values2))%nat →
  0 ≤ pe values1 values2 ∧ pe values1 values2 ≤ Q2Qc (1 # 2).
Proof.
  intros Hn Hq. unfold pe. cbv zeta.
  set (Sm := sum_over _ _).
  set (q := length (observed_categories values1 values2)) in *.
  assert (Hc : Qc_of_Z (Z.of_nat q - 1) = Qc_of_nat q - 1)
    by (by rewrite Z2Qc_inj_sub, Z2Qc_inj_1).
  assert (Hq2 : 2 ≤ Qc_of_nat q).
  { rewrite <-Z2Qc_inj_2. unfold Qc_of_nat.
    apply (proj1 (Z2Qc_inj_le _ _)). lia. }
  assert (Hpos : 0 < Qc_of_Z (Z.of_nat q - 1)) by (rewrite Hc; qc_lra).
  assert (HS0 : 0 ≤ Sm).
  { apply sum_over_nonneg. intros k _.
    destruct (marginal_bounds values1 values2 k Hn).
    apply Qcmult_nonneg_nonneg; [done|qc_lra]. }
  assert (HS1 : Sm ≤ Q2Qc (1 # 4) * Qc_of_nat q).
  { apply sum_over_le. intros k _. apply Qc_variance_bound. }
  replace (1 / Qc_of_Z (Z.of_nat q - 1) * Sm)
    with (Sm / Qc_of_Z (Z.of_nat q - 1))
    by (field; by apply Qc_pos_ne_0).
  split.
  - by apply Qc_div_nonneg.
  - apply Qc_div_le; [done|]. rewrite Hc. clear Hc Hpos. qc_lra.
Qed.

(** With at least 2 valid pairs and 2 categories AC1 has a value: the test
    [pe == 1.0] never holds. *)
Lemma calculate_gwet_ac1_value (values1 values2 : list rating) :
  (2 ≤ n_valid values1 values2)%nat →
  (2 ≤ length (observed_categories values1 values2))%nat →
  calculate_gwet_ac1 values1 values2 =
  Some ((pa values1 values2 - pe values1 values2) /
        (1 - pe values1 values2)).
Proof.
  intros Hn Hq. rewrite calculate_gwet_ac1_unfold. cbv zeta.
  rewrite pooled_valid_pairs, length_valid_pairs, count_matches_valid_pairs.
  rewrite decide_False by lia. rewrite ac1_of_pooled_spec by lia.
  unfold gwet_ac1. rewrite !decide_False; [done| |lia|lia].
  destruct (pe_bounds values1 values2) as [_ Hpe]; [lia|done|].
  intros H1. rewrite H1 in Hpe. by vm_compute in Hpe.
Qed.

Lemma pa_bounds (values1 values2 : list rating) :
  (0 < n_valid values1 values2)%nat →
  0 ≤ pa values1 values2 ∧ pa values1 values2 ≤ 1 ∧
  (pa values1 values2 = 1 ↔
   Forall (λ p : Z * Z, p.1 = p.2) (valid_pairs values1 values2)).
Proof.
  intros Hn. unfold pa.
  rewrite <-length_valid_pairs, <-count_matches_valid_pairs in *.
  destruct (proportion_bounds (count_matches (valid_pairs values1 values2))
                              (length (valid_pairs values1 values2)))
    as (H0 & H1 & Hall & _); [apply length_filter|lia|].
  split; [done|]. split; [done|].
  rewrite Hall. apply length_filter_all.
Qed.

Lemma length_sorted_set_pooled (values1 values2 : list rating) :
  length (sorted_set ((valid_pairs values1 values2).*1 ++
                      (valid_pairs values1 values2).*2)) =
  length (observed_categories values1 values2).
Proof.
  rewrite pooled_valid_pairs. unfold sorted_set, observed_categories.
  by rewrite merge_sort_Permutation.
Qed.

(** [calculate_gwet_ac1] returns [None] only through its first two guards:
    fewer than 2 valid pairs, or fewer than 2 distinct values among them.
    The later test [pe == 1.0] never holds, as pe is at most 1/2. *)
Theorem calculate_gwet_ac1_None (values1 values2 : list rating) :
  let valid := valid_pairs values1 values2 in
  calculate_gwet_ac1 values1 values2 = None ↔
  (length valid < 2)%nat ∨
  (length (sorted_set (valid.*1 ++ valid.*2)) < 2)%nat.
Proof.
  cbv zeta. rewrite length_sorted_set_pooled, length_valid_pairs.
  destruct (decide (n_valid values1 values2 < 2)%nat) as [Hn|Hn].
  { split; [by left|]. intros _. rewrite calculate_gwet_ac1_unfold.
    cbv zeta. by rewrite length_valid_pairs, decide_True. }
  destruct (decide (length (observed_categories values1 values2) < 2)%nat)
    as [Hq|Hq].
  { split; [by right|]. intros _. rewrite calculate_gwet_ac1_unfold.
    cbv zeta.
    rewrite pooled_valid_pairs, length_valid_pairs, count_matches_valid_pairs.
    rewrite decide_False, ac1_of_pooled_spec by done.
    unfold gwet_ac1. by rewrite decide_False, decide_True. }
  rewrite calculate_gwet_ac1_value by lia. split; [done|lia].
Qed.

(** A value of AC1 lies in [-1, 1], and it is 1 exactly when every valid
    pair matches. *)
Theorem calculate_gwet_ac1_bounds (values1 values2 : list rating) (x : Qc) :
  calculate_gwet_ac1 values1 values2 = Some x →
  -1 ≤ x ∧ x ≤ 1 ∧
  (x = 1 ↔ Forall (λ p : Z * Z, p.1 = p.2) (valid_pairs values1 values2)).
Proof.
  intros Hx.
  assert (Hn : (2 ≤ n_valid values1 values2)%nat).
  { destruct (decide (n_valid values1 values2 < 2)%nat) as [Hn|Hn]; [|lia].
    rewrite calculate_gwet_ac1_unfold in Hx. cbv zeta in Hx.
    by rewrite length_valid_pairs, decide_True in Hx. }
  assert (Hq : (2 ≤ length (observed_categories values1 values2))%nat).
  { destruct (decide (length (observed_categories values1 values2) < 2)%nat)
      as [Hq|Hq]; [|lia].
    rewrite calculate_gwet_ac1_unfold in Hx. cbv zeta in Hx.
    rewrite pooled_valid_pairs, length_valid_pairs, count_matches_valid_pairs
      in Hx.
    rewrite decide_False, ac1_of_pooled_spec in Hx by lia.
    unfold gwet_ac1 in Hx. by rewrite decide_False, decide_True in Hx by lia. }
  rewrite calculate_gwet_ac1_value in Hx by done. injection Hx as <-.
  destruct (pe_bounds values1 values2) as [Hpe0 Hpe]; [lia|done|].
  destruct (pa_bounds values1 values2) as (Hpa0 & Hpa1 & Hall); [lia|].
  rewrite <-Hall. clear Hall.
  assert (Hhalf : Q2Qc (1 # 2) + Q2Qc (1 # 2) = 1) by (by apply Qc_is_canon).
  assert (Hpos : 0 < 1 - pe values1 values2) by qc_lra.
  split_and!.
  - apply Qc_le_div; [done|]. qc_lra.
  - apply Qc_div_le; [done|]. qc_lra.
  - rewrite Qc_div_eq by by apply Qc_pos_ne_0.
    split; intros; qc_lra.
Qed.

Lemma calculate_agreement_bounds_witness :
  calculate_agreement [Some 1; Some 0; None]%Z [Some 1; Some 1; Some 1]%Z =
    Some (Q2Qc (1 # 2)) ∧
  0 ≤ Q2Qc (1 # 2) ∧ Q2Qc (1 # 2) ≤ 1.
Proof.
  assert (Hrun : calculate_agreement [Some 1; Some 0; None]%Z
                   [Some 1; Some 1; Some 1]%Z = Some (Q2Qc (1 # 2))).
  { unfold calculate_agreement. cbn. by f_equal. }
  destruct (calculate_agreement_bounds _ _ _ Hrun) as (H0 & H1 & _).
  split; [exact Hrun|]. split; [exact H0|exact H1].
Defined.

Lemma ac1_example_returns :
  ∃ x, calculate_gwet_ac1 [Some 1; Some 0; Some 1]%Z
                          [Some 1; Some 1; Some 1]%Z = Some x.
Proof. vm_compute. by eexists. Qed.

Lemma calculate_gwet_ac1_bounds_witness :
  ∃ x, calculate_gwet_ac1 [Some 1; Some 0; Some 1]%Z
                          [Some 1; Some 1; Some 1]%Z = Some x ∧
       -1 ≤ x ∧ x ≤ 1.
Proof.
  destruct ac1_example_returns as [x Hx]. exists x.
  destruct (calculate_gwet_ac1_bounds _ _ _ Hx) as (H0 & H1 & _).
  split; [exact Hx|]. split; [exact H0|exact H1].
Defined.

End BoundsFacts.

Module AlphaFacts.
Import Py IRRCalculator Spec Aux PairwiseFacts KrippendorffFacts QcOrder.






(** A sum of terms that are not negative is 0 only if every term is. *)
Lemma sum_over_0 {A} (f : A → Qc) (l : list A) :
  (∀ a, a ∈ l → 0 ≤ f a) →
  sum_over f l = 0 ↔ ∀ a, a ∈ l → f a = 0.
Proof.
  intros Hf. split; [|apply sum_over_zero].
  induction l as [|a l IH]; [by intros _ ? ?%elem_of_nil|].
  cbn [sum_over foldr]. intros Hsum.
  assert (0 ≤ f a) by (apply Hf; by left).
  assert (0 ≤ sum_over f l)
    by (apply sum_over_nonneg; intros; apply Hf; by right).
  unfold sum_over in *.
  assert (f a = 0) by qc_lra.
  assert (foldr (λ a s, f a + s) 0 l = 0) by qc_lra.
  intros a' [->|Ha']%elem_of_cons; [done|].
  apply IH; [|done..]. intros. apply Hf. by right.
Qed.





End AlphaFacts.

Module CountFacts.
Import Py IRRCalculator Spec Aux PairwiseFacts KrippendorffFacts FleissFacts.
Import QcOrder.

Lemma sum_over_cons {A} (f : A → Qc) (a : A) (l : list A) :
  sum_over f (a :: l) = f a + sum_over f l.
Proof. done. Qed.

Lemma sum_over_plus {A} (f g : A → Qc) (l : list A) :
  sum_over (λ a, f a + g a) l = sum_over f l + sum_over g l.
Proof.
  induction l as [|a l IH]; [by apply Qc_is_canon|].
  rewrite !sum_over_cons, IH. ring.
Qed.

Lemma sum_over_swap {A B} (f : A → B → Qc) (l : list A) (k : list B) :
  sum_over (λ a, sum_over (f a) k) l =
  sum_over (λ b, sum_over (λ a, f a b) l) k.
Proof.
  induction l as [|a l IH].
  - symmetry. by apply sum_over_zero.
  - rewrite sum_over_cons, IH, <-sum_over_plus. done.
Qed.

Lemma sum_over_scale {A} (f : A → Qc) (c : Qc) (l : list A) :
  sum_over (λ a, f a / c) l = sum_over f l / c.
Proof.
  induction l as [|a l IH].
  - unfold Qcdiv. by rewrite Qcmult_0_l.
  - rewrite !sum_over_cons, IH. unfold Qcdiv. ring.
Qed.

Lemma sum_over_const {A} (c : Qc) (l : list A) :
  sum_over (λ _, c) l = c * Qc_of_nat (length l).
Proof.
  induction l as [|a l IH].
  - cbn [length]. rewrite (proj2 (Qc_of_nat_0 0%nat)) by done.
    by rewrite Qcmult_0_r.
  - cbn [length]. rewrite sum_over_cons, IH, Qc_of_nat_S. ring.
Qed.

(** Every value of a row is counted in one category. *)
Lemma sum_over_n_ij (categories : list Z) (row : list Z) :
  NoDup categories → (∀ v, v ∈ row → v ∈ categories) →
  sum_over (λ c, Qc_of_nat (n_ij row c)) categories =
  Qc_of_nat (length row).
Proof.
  intros Hnd. induction row as [|v row IH]; intros Hrow.
  - cbn [length]. rewrite (proj2 (Qc_of_nat_0 0%nat)) by done.
    apply sum_over_zero. intros c _. by apply Qc_of_nat_0.
  - assert (Hone : sum_over (λ c, if decide (v = c) then 1 else 0)
                            categories = 1).
    { assert (Hv : v ∈ categories) by (apply Hrow; left).
      clear IH Hrow. induction Hnd as [|c cs Hc Hnd IHnd].
      - by apply elem_of_nil in Hv.
      - rewrite sum_over_cons. apply elem_of_cons in Hv as [->|Hv].
        + rewrite decide_True by done.
          rewrite sum_over_zero; [ring|].
          intros c' Hc'. rewrite decide_False; [done|]. by intros <-.
        + rewrite decide_False by (by intros <-).
          rewrite IHnd by done. ring. }
    rewrite <-(sum_over_ext
                 (λ c, (if decide (v = c) then 1 else 0) +
                       Qc_of_nat (n_ij row c))).
    + rewrite sum_over_plus, Hone, IH by (intros; apply Hrow; by right).
      cbn [length]. rewrite Qc_of_nat_S. ring.
    + intros c _. unfold n_ij. rewrite filter_cons.
      case_decide; [|ring]. cbn [length]. rewrite Qc_of_nat_S. ring.
Qed.

(** The squares of proportions add up to less than the proportions. *)
Lemma sum_over_squares_le {A} (p : A → Qc) (l : list A) :
  (∀ a, a ∈ l → 0 ≤ p a) → sum_over p l ≤ 1 →
  sum_over (λ a, p a * p a) l ≤ sum_over p l.
Proof.
  induction l as [|a l IH]; intros Hp Hsum; [apply Qcle_refl|].
  rewrite !sum_over_cons in *.
  assert (H0 : 0 ≤ p a) by (apply Hp; left).
  assert (Hl : 0 ≤ sum_over p l)
    by (apply sum_over_nonneg; intros; apply Hp; by right).
  assert (H1 : p a ≤ 1) by qc_lra.
  assert (Hsq : p a * p a ≤ p a * 1)
    by (by apply Qcmult_le_mono_nonneg_l).
  rewrite Qcmult_1_r in Hsq.
  assert (sum_over (λ a, p a * p a) l ≤ sum_over p l).
  { apply IH; [intros; apply Hp; by right|]. qc_lra. }
  apply Qcplus_le_compat; done.
Qed.

Lemma sum_over_squares_lt_1 {A} (p : A → Qc) (l : list A) :
  (2 ≤ length l)%nat → (∀ a, a ∈ l → 0 < p a) → sum_over p l = 1 →
  sum_over (λ a, p a * p a) l < 1.
Proof.
  destruct l as [|a [|b l]]; cbn [length]; intros Hlen Hp Hsum; try lia.
  rewrite sum_over_cons in *.
  assert (Ha : 0 < p a) by (apply Hp; left).
  assert (Hb : 0 < p b) by (apply Hp; right; left).
  assert (Hrest : 0 ≤ sum_over p l).
  { apply sum_over_nonneg. intros c Hc. apply Qclt_le_weak, Hp.
    by do 2 right. }
  assert (Htail : sum_over (λ a, p a * p a) (b :: l) ≤ sum_over p (b :: l)).
  { apply sum_over_squares_le.
    - intros c Hc. apply Qclt_le_weak, Hp. by right.
    - rewrite sum_over_cons in *. qc_lra. }
  rewrite (sum_over_cons p b) in Hsum.
  assert (Ha1 : p a < 1) by qc_lra.
  assert (Hsq : p a * p a < p a * 1)
    by (by apply Qcmult_lt_mono_pos_l).
  rewrite Qcmult_1_r in Hsq. rewrite (sum_over_cons p b) in Htail.
  clear Hp. qc_lra.
Qed.

Section marginals.
Context (k : nat) (rows : list (list Z)) (categories : list Z).
Hypothesis k_pos : (0 < k)%nat.
Hypothesis rows_length : Forall (λ row, length row = k) rows.
Hypothesis rows_nonempty : (0 < length rows)%nat.
Hypothesis categories_NoDup : NoDup categories.
Hypothesis categories_rows : ∀ c, c ∈ categories ↔ c ∈ concat rows.

(** The pooled marginal of a category, as both multi-rater statistics
    compute it. *)
Definition proportion (c : Z) : Qc :=
  sum_over (λ row, Qc_of_nat (n_ij row c)) rows / Qc_of_nat (length rows * k).

Lemma total_pos : 0 < Qc_of_nat (length rows * k).
Proof. apply Qc_of_nat_pos. nia. Qed.

(** The marginals add up to 1. *)
Lemma sum_over_proportion : sum_over proportion categories = 1.
Proof.
  unfold proportion. rewrite sum_over_scale, <-sum_over_swap.
  rewrite (sum_over_ext _ (λ _, Qc_of_nat k)).
  - rewrite sum_over_const. apply Qc_div_eq; [apply Qc_pos_ne_0, total_pos|].
    rewrite Qcmult_1_l. unfold Qc_of_nat.
    rewrite <-Z2Qc_inj_mul. f_equal. lia.
  - intros row Hrow. rewrite sum_over_n_ij; [|done|].
    + f_equal. by eapply Forall_forall in rows_length.
    + intros v Hv. apply categories_rows, list_elem_of_bind. eauto.
Qed.

(** Every observed category has a positive marginal. *)
Lemma proportion_pos (c : Z) : c ∈ categories → 0 < proportion c.
Proof.
  intros Hc. unfold proportion.
  assert (Hsum : 0 ≤ sum_over (λ row, Qc_of_nat (n_ij row c)) rows)
    by (apply sum_over_nonneg; intros; apply Qc_of_nat_nonneg).
  assert (Hne : sum_over (λ row, Qc_of_nat (n_ij row c)) rows ≠ 0).
  { rewrite AlphaFacts.sum_over_0 by (intros; apply Qc_of_nat_nonneg).
    intros Hall.
    apply categories_rows, list_elem_of_bind in Hc as (row & Hc & Hrow).
    specialize (Hall row Hrow). apply Qc_of_nat_0 in Hall.
    unfold n_ij in Hall. apply length_zero_iff_nil in Hall.
    assert (c ∈ filter (λ v, v = c) row) as Hin
      by (by apply list_elem_of_filter).
    rewrite Hall in Hin. by apply elem_of_nil in Hin. }
  pose proof total_pos as Hpos.
  assert (0 ≤ sum_over (λ row, Qc_of_nat (n_ij row c)) rows /
              Qc_of_nat (length rows * k)) as Hq
    by (by apply Qc_div_nonneg).
  apply Qcle_lt_or_eq in Hq as [|Hq]; [done|]. exfalso. apply Hne.
  symmetry in Hq. apply Qc_div_eq in Hq; [|by apply Qc_pos_ne_0].
  by rewrite Qcmult_0_l in Hq.
Qed.

End marginals.

End CountFacts.

Module MultiFacts.
Import Py IRRCalculator Spec Aux PairwiseFacts KrippendorffFacts.
Import FleissFacts QcOrder CountFacts.

(** Chance agreement of the multi-rater AC1. *)
Definition pe_multi (k : nat) (rows : list (list Z)) (categories : list Z)
    : Qc :=
  1 / Qc_of_Z (Z.of_nat (length categories) - 1) *
  sum_over (λ c, proportion k rows c * (1 - proportion k rows c)) categories.

(** Observed agreement of both multi-rater statistics. *)
Definition P_bar_rows (k : nat) (rows : list (list Z)) (categories : list Z)
    : Qc :=
  sum_over (P_i k categories) rows / Qc_of_nat (length rows).

Lemma proportion_bounds_multi (k : nat) (rows : list (list Z))
    (categories : list Z) (c : Z) :
  (0 < k)%nat → Forall (λ row, length row = k) rows →
  (0 < length rows)%nat → NoDup categories →
  (∀ c, c ∈ categories ↔ c ∈ concat rows) →
  c ∈ categories →
  0 < proportion k rows c ∧ proportion k rows c ≤ 1.
Proof.
  intros Hk Hlen Hn Hnd Hcats Hc.
  pose proof (proportion_pos k rows categories Hk Hn Hcats c Hc) as Hpos.
  split; [done|].
  pose proof (sum_over_proportion k rows categories Hk Hlen Hn Hnd Hcats)
    as Hsum.
  apply elem_of_Permutation in Hc as [rest Hperm].
  rewrite (sum_over_Permutation _ _ _ Hperm), sum_over_cons in Hsum.
  assert (0 ≤ sum_over (proportion k rows) rest).
  { apply sum_over_nonneg. intros c' Hc'. apply Qclt_le_weak.
    apply (proportion_pos k rows categories Hk Hn Hcats).
    rewrite Hperm. by right. }
  qc_lra.
Qed.

(** The categories of the complete rows. *)
Lemma categories_complete_rows (rows : list (list Z)) :
  NoDup (sorted_set (concat rows)) ∧
  (∀ c, c ∈ sorted_set (concat rows) ↔ c ∈ concat rows) ∧
  (∀ row v, row ∈ rows → v ∈ row → v ∈ sorted_set (concat rows)).
Proof.
  split; [apply sorted_set_NoDup|]. split; [apply elem_of_sorted_set|].
  intros row v Hrow Hv. apply elem_of_sorted_set, list_elem_of_bind.
  by exists row.
Qed.

(** The sum of the squares of terms that are not negative is at most the
    square of their sum. *)
Lemma sum_over_squares_le_square {A} (f : A → Qc) (l : list A) :
  (∀ a, a ∈ l → 0 ≤ f a) →
  sum_over (λ a, f a * f a) l ≤ sum_over f l * sum_over f l.
Proof.
  induction l as [|a l IH]; intros Hf; [by vm_compute|].
  rewrite !sum_over_cons.
  assert (Ha : 0 ≤ f a) by (apply Hf; left).
  assert (Hl : 0 ≤ sum_over f l)
    by (apply sum_over_nonneg; intros; apply Hf; by right).
  assert (HP : 0 ≤ f a * sum_over f l) by (by apply Qcmult_nonneg_nonneg).
  assert (HIH : sum_over (λ a, f a * f a) l ≤ sum_over f l * sum_over f l)
    by (apply IH; intros; apply Hf; by right).
  replace ((f a + sum_over f l) * (f a + sum_over f l))
    with (f a * f a + (f a * sum_over f l + f a * sum_over f l) +
          sum_over f l * sum_over f l) by ring.
  revert HP HIH. generalize (f a * f a), (f a * sum_over f l),
    (sum_over f l * sum_over f l), (sum_over (λ a, f a * f a) l).
  intros. qc_lra.
Qed.

Lemma Qc_of_nat_square_ge (n : nat) : Qc_of_nat n ≤ Qc_of_nat n * Qc_of_nat n.
Proof.
  unfold Qc_of_nat. rewrite <-Z2Qc_inj_mul.
  apply (proj1 (Z2Qc_inj_le _ _)). nia.
Qed.

Lemma sum_over_mono {A} (f g : A → Qc) (l : list A) :
  (∀ a, a ∈ l → f a ≤ g a) → sum_over f l ≤ sum_over g l.
Proof.
  induction l as [|a l IH]; intros Hfg; [apply Qcle_refl|].
  rewrite !sum_over_cons. apply Qcplus_le_compat; [apply Hfg; left|].
  apply IH. intros. apply Hfg. by right.
Qed.

(** The Fleiss agreement of one subject lies in [0, 1]. *)
Lemma P_i_bounds (k : nat) (categories : list Z) (row : list Z) :
  (2 ≤ k)%nat → length row = k → NoDup categories →
  (∀ v, v ∈ row → v ∈ categories) →
  0 ≤ P_i k categories row ∧ P_i k categories row ≤ 1.
Proof.
  intros Hk Hrow Hnd Hvals. unfold P_i.
  pose proof (sum_over_n_ij categories row Hnd Hvals) as Hsum.
  rewrite Hrow in Hsum.
  pose proof (sum_over_squares_le_square
                (λ c, Qc_of_nat (n_ij row c)) categories
                (λ c _, Qc_of_nat_nonneg _)) as Hhi.
  pose proof (sum_over_mono (λ c, Qc_of_nat (n_ij row c))
                (λ c, Qc_of_nat (n_ij row c) * Qc_of_nat (n_ij row c))
                categories (λ c _, Qc_of_nat_square_ge _)) as Hlo.
  rewrite Hsum in Hhi, Hlo.
  assert (Hden : Qc_of_Z (Z.of_nat k * (Z.of_nat k - 1)) =
                 Qc_of_nat k * Qc_of_nat k - Qc_of_nat k).
  { rewrite Z2Qc_inj_mul, Z2Qc_inj_sub, Z2Qc_inj_1. unfold Qc_of_nat. ring. }
  assert (Hpos : 0 < Qc_of_Z (Z.of_nat k * (Z.of_nat k - 1))).
  { rewrite <-Z2Qc_inj_0. apply (proj1 (Z2Qc_inj_lt _ _)). nia. }
  split.
  - apply Qc_div_nonneg; [|done]. clear Hden Hpos Hhi. qc_lra.
  - apply Qc_div_le; [done|]. rewrite Hden. clear Hden Hpos Hlo.
    revert Hhi. generalize (Qc_of_nat k * Qc_of_nat k). intros. qc_lra.
Qed.

(** The mean of proportions is a proportion. *)
Lemma mean_bounds {A} (f : A → Qc) (l : list A) :
  (0 < length l)%nat → (∀ a, a ∈ l → 0 ≤ f a ∧ f a ≤ 1) →
  0 ≤ sum_over f l / Qc_of_nat (length l) ∧
  sum_over f l / Qc_of_nat (length l) ≤ 1.
Proof.
  intros Hn Hf. pose proof (Qc_of_nat_pos _ Hn) as Hpos. split.
  - apply Qc_div_nonneg; [|done]. apply sum_over_nonneg.
    intros a Ha. by apply Hf.
  - apply Qc_div_le; [done|]. apply sum_over_le. intros a Ha. by apply Hf.
Qed.

Lemma P_bar_rows_bounds (k : nat) (rows : list (list Z)) :
  (2 ≤ k)%nat → Forall (λ row, length row = k) rows →
  (0 < length rows)%nat →
  0 ≤ P_bar_rows k rows (sorted_set (concat rows)) ∧
  P_bar_rows k rows (sorted_set (concat rows)) ≤ 1.
Proof.
  intros Hk Hlen Hn. apply mean_bounds; [done|]. intros row Hrow.
  destruct (categories_complete_rows rows) as (Hnd & _ & Hvals).
  apply P_i_bounds; [done| |done|intros v Hv; by apply (Hvals row)].
  by eapply Forall_forall in Hlen.
Qed.

(** The chance agreement of the multi-rater AC1 lies in [0, 1/2]. *)
Lemma pe_multi_bounds (k : nat) (rows : list (list Z)) :
  (0 < k)%nat → Forall (λ row, length row = k) rows →
  (0 < length rows)%nat →
  (2 ≤ length (sorted_set (concat rows)))%nat →
  0 ≤ pe_multi k rows (sorted_set (concat rows)) ∧
  pe_multi k rows (sorted_set (concat rows)) ≤ Q2Qc (1 # 2).
Proof.
  intros Hk Hlen Hn Hq. unfold pe_multi.
  destruct (categories_complete_rows rows) as (Hnd & Hcats & _).
  set (cats := sorted_set (concat rows)) in *.
  set (Sm := sum_over _ _).
  set (q := length cats) in *.
  assert (Hc : Qc_of_Z (Z.of_nat q - 1) = Qc_of_nat q - 1)
    by (by rewrite Z2Qc_inj_sub, Z2Qc_inj_1).
  assert (Hq2 : 2 ≤ Qc_of_nat q).
  { rewrite <-Z2Qc_inj_2. unfold Qc_of_nat.
    apply (proj1 (Z2Qc_inj_le _ _)). lia. }
  assert (Hpos : 0 < Qc_of_Z (Z.of_nat q - 1)) by (rewrite Hc; qc_lra).
  assert (HS0 : 0 ≤ Sm).
  { apply sum_over_nonneg. intros c Hc'.
    destruct (proportion_bounds_multi k rows cats c) as [? ?]; try done.
    apply Qcmult_nonneg_nonneg; [by apply Qclt_le_weak|qc_lra]. }
  assert (HS1 : Sm ≤ Q2Qc (1 # 4) * Qc_of_nat q).
  { apply sum_over_le. intros c _. apply Qc_variance_bound. }
  replace (1 / Qc_of_Z (Z.of_nat q - 1) * Sm)
    with (Sm / Qc_of_Z (Z.of_nat q - 1))
    by (field; by apply Qc_pos_ne_0).
  split.
  - by apply Qc_div_nonneg.
  - apply Qc_div_le; [done|]. rewrite Hc. clear Hc Hpos. qc_lra.
Qed.

Lemma calculate_gwet_ac1_multi_value (k : nat)
    (ratings_matrix : list (list rating)) :
  (2 ≤ k)%nat →
  Forall (λ row, length row = k) ratings_matrix →
  let rows := complete_rows ratings_matrix in
  let categories := sorted_set (concat rows) in
  calculate_gwet_ac1_multi ratings_matrix =
    if decide (length rows < 2)%nat then None
     else if decide (length categories < 2)%nat then None
     else Some (Fin ((P_bar_rows k rows categories -
                      pe_multi k rows categories) /
                     (1 - pe_multi k rows categories))).
Proof.
  intros Hk Hlen. cbv zeta.
  unfold calculate_gwet_ac1_multi.
  change (omap all_present ratings_matrix)
    with (complete_rows ratings_matrix).
  pose proof (length_complete_rows k ratings_matrix Hlen) as Hrows.
  set (rows := complete_rows ratings_matrix) in *.
  cbv zeta. case_decide as Hn; [done|].
  destruct (lookup_lt_is_Some_2 rows 0) as [row0 Hrow0]; [lia|].
  rewrite Hrow0. cbn [mbind option_bind].
  rewrite (Forall_lookup_1 _ _ _ _ Hrows Hrow0).
  case_decide as Hq; [done|].
  destruct (categories_complete_rows rows) as (Hnd & Hcats & Hvals).
  rewrite count_matrix_spec by done.
  cbn [mbind option_bind].
  rewrite columns_counts, p_j_counts, P_i_counts by lia.
  rewrite np_mean_Fin.
  2:{ intros Hnil%(f_equal length). rewrite length_fmap in Hnil.
      simpl in Hnil. lia. }
  rewrite length_fmap, py_sum_fmap.
  rewrite py_div_Some by (rewrite Qc_of_Z_0; lia).
  cbn [mbind option_bind].
  assert ((λ p, p * (Fin 1 - p))%np <$>
            (Fin <$> ((λ c, sum_over (λ row, Qc_of_nat (n_ij row c)) rows
                            / Qc_of_nat (length rows * k))
                      <$> sorted_set (concat rows))) =
          Fin <$> ((λ c, proportion k rows c * (1 - proportion k rows c))
                   <$> sorted_set (concat rows))) as ->
    by (by rewrite <-!list_fmap_compose).
  rewrite np_sum_Fin, py_sum_fmap.
  cbn [np_mul]. fold (pe_multi k rows (sorted_set (concat rows))).
  fold (P_bar_rows k rows (sorted_set (concat rows))).
  destruct (pe_multi_bounds k rows) as [_ Hpe]; [lia|done|lia|lia|].
  assert (Hne : pe_multi k rows (sorted_set (concat rows)) ≠ 1).
  { intros H1. rewrite H1 in Hpe. by vm_compute in Hpe. }
  cbn [np_eqb]. rewrite bool_decide_eq_false_2 by done.
  f_equal. unfold np_sub. cbn [np_opp np_add].
  apply np_div_Fin. intros H0. apply Hne.
  rewrite <-(Qcplus_0_l (pe_multi _ _ _)), <-H0. ring.
Qed.

(** [calculate_gwet_ac1_multi] on a matrix with [k] ratings per subject
    (at least 2): over the subjects rated by all raters it returns
    (P_bar - pe)/(1 - pe), with P_bar the mean per-subject Fleiss agreement
    and pe = (1/(q-1)) . sum of pi_k (1 - pi_k) over the pooled marginals
    of the q observed categories.  It returns [None] only with fewer than 2
    such subjects or fewer than 2 categories: pe is at most 1/2, so the
    test [pe == 1.0] never holds. *)
Theorem calculate_gwet_ac1_multi_spec (k : nat)
    (ratings_matrix : list (list rating)) :
  (2 ≤ k)%nat →
  Forall (λ row, length row = k) ratings_matrix →
  let rows := complete_rows ratings_matrix in
  let categories := sorted_set (concat rows) in
  calculate_gwet_ac1_multi ratings_matrix =
    (if decide (length rows < 2)%nat then None
     else if decide (length categories < 2)%nat then None
     else Some (Fin ((P_bar_rows k rows categories -
                      pe_multi k rows categories) /
                     (1 - pe_multi k rows categories)))) ∧
  ((2 ≤ length rows)%nat → (2 ≤ length categories)%nat →
   pe_multi k rows categories ≤ Q2Qc (1 # 2)).
Proof.
  intros Hk Hlen. cbv zeta. split.
  - apply (calculate_gwet_ac1_multi_value k _ Hk Hlen).
  - intros Hn Hq. apply pe_multi_bounds; [lia| |lia|done].
    by apply length_complete_rows.
Qed.

(** A value of the multi-rater AC1 is a number in [-1, 1]. *)
Theorem calculate_gwet_ac1_multi_bounds (k : nat)
    (ratings_matrix : list (list rating)) (r : npfloat) :
  (2 ≤ k)%nat →
  Forall (λ row, length row = k) ratings_matrix →
  calculate_gwet_ac1_multi ratings_matrix = Some r →
  ∃ x : Qc, r = Fin x ∧ -1 ≤ x ∧ x ≤ 1.
Proof.
  intros Hk Hlen.
  rewrite (calculate_gwet_ac1_multi_value k ratings_matrix Hk Hlen).
  cbv zeta.
  pose proof (length_complete_rows k ratings_matrix Hlen) as Hrows.
  set (rows := complete_rows ratings_matrix) in *.
  case_decide as Hn; [done|]. case_decide as Hq; [done|].
  intros [= <-]. eexists. split; [done|].
  destruct (pe_multi_bounds k rows) as [Hpe0 Hpe]; [lia|done|lia|lia|].
  destruct (P_bar_rows_bounds k rows) as [HP0 HP1]; [lia|done|lia|].
  assert (Hhalf : Q2Qc (1 # 2) + Q2Qc (1 # 2) = 1) by (by apply Qc_is_canon).
  assert (Hpos : 0 < 1 - pe_multi k rows (sorted_set (concat rows)))
    by qc_lra.
  split.
  - apply Qc_le_div; [done|]. qc_lra.
  - apply Qc_div_le; [done|]. qc_lra.
Qed.

(** Chance agreement of Fleiss' Kappa. *)
Definition P_e_rows (k : nat) (rows : list (list Z)) (categories : list Z)
    : Qc :=
  sum_over (λ c, proportion k rows c * proportion k rows c) categories.

(** With two observed categories the chance agreement of Fleiss' Kappa is
    below 1. *)
Lemma P_e_rows_lt_1 (k : nat) (rows : list (list Z)) :
  (0 < k)%nat → Forall (λ row, length row = k) rows →
  (0 < length rows)%nat →
  (2 ≤ length (sorted_set (concat rows)))%nat →
  P_e_rows k rows (sorted_set (concat rows)) < 1.
Proof.
  intros Hk Hlen Hn Hq.
  destruct (categories_complete_rows rows) as (Hnd & Hcats & _).
  apply sum_over_squares_lt_1; [done| |].
  - intros c Hc. by apply (proportion_pos k rows (sorted_set (concat rows))).
  - by apply sum_over_proportion.
Qed.

Lemma calculate_fleiss_kappa_value (k : nat)
    (ratings_matrix : list (list rating)) :
  (2 ≤ k)%nat →
  Forall (λ row, length row = k) ratings_matrix →
  let rows := complete_rows ratings_matrix in
  let categories := sorted_set (concat rows) in
  calculate_fleiss_kappa ratings_matrix =
    if decide (length rows < 2)%nat then None
    else if decide (length categories < 2)%nat then None
    else Some (Fin ((P_bar_rows k rows categories -
                     P_e_rows k rows categories) /
                    (1 - P_e_rows k rows categories))).
Proof.
  intros Hk Hlen. cbv zeta. unfold calculate_fleiss_kappa.
  change (omap all_present ratings_matrix)
    with (complete_rows ratings_matrix).
  pose proof (length_complete_rows k ratings_matrix Hlen) as Hrows.
  set (rows := complete_rows ratings_matrix) in *.
  cbv zeta. case_decide as Hn; [done|].
  destruct (lookup_lt_is_Some_2 rows 0) as [row0 Hrow0]; [lia|].
  rewrite Hrow0. cbn [mbind option_bind].
  rewrite (Forall_lookup_1 _ _ _ _ Hrows Hrow0).
  case_decide as Hq; [done|].
  destruct (categories_complete_rows rows) as (Hnd & Hcats & Hvals).
  rewrite count_matrix_spec by done.
  cbn [mbind option_bind].
  rewrite columns_counts, p_j_counts, P_i_counts by lia.
  rewrite np_mean_Fin.
  2:{ intros Hnil%(f_equal length). rewrite length_fmap in Hnil.
      simpl in Hnil. lia. }
  rewrite length_fmap, py_sum_fmap.
  assert (np_sq <$>
            (Fin <$> ((λ c, sum_over (λ row, Qc_of_nat (n_ij row c)) rows
                            / Qc_of_nat (length rows * k))
                      <$> sorted_set (concat rows))) =
          Fin <$> ((λ c, proportion k rows c * proportion k rows c)
                   <$> sorted_set (concat rows))) as ->
    by (by rewrite <-!list_fmap_compose).
  rewrite np_sum_Fin, py_sum_fmap.
  fold (P_e_rows k rows (sorted_set (concat rows))).
  fold (P_bar_rows k rows (sorted_set (concat rows))).
  pose proof (P_e_rows_lt_1 k rows) as Hlt.
  assert (Hne : P_e_rows k rows (sorted_set (concat rows)) ≠ 1).
  { intros H1. rewrite H1 in Hlt.
    apply (irreflexivity Qclt 1), Hlt; [lia|done|lia|lia]. }
  cbn [np_eqb]. rewrite bool_decide_eq_false_2 by done.
  f_equal. unfold np_sub. cbn [np_opp np_add].
  apply np_div_Fin. intros H0. apply Hne.
  rewrite <-(Qcplus_0_l (P_e_rows _ _ _)), <-H0. ring.
Qed.

(** [calculate_fleiss_kappa] returns [None] only through its first two
    guards: fewer than 2 subjects rated by all raters, or fewer than 2
    observed categories.  With two categories P_e is below 1, so the test
    [P_e == 1.0] never holds. *)
Theorem calculate_fleiss_kappa_None (k : nat)
    (ratings_matrix : list (list rating)) :
  (2 ≤ k)%nat →
  Forall (λ row, length row = k) ratings_matrix →
  let valid_rows := omap all_present ratings_matrix in
  calculate_fleiss_kappa ratings_matrix = None ↔
  (length valid_rows < 2)%nat ∨
  (length (sorted_set (concat valid_rows)) < 2)%nat.
Proof.
  intros Hk Hlen. cbv zeta.
  rewrite (calculate_fleiss_kappa_value k ratings_matrix Hk Hlen).
  cbv zeta.
  change (omap all_present ratings_matrix)
    with (complete_rows ratings_matrix).
  repeat case_decide; split; intros; try done; try lia; auto.
Qed.

(** A value of Fleiss' Kappa is a number, at most 1. *)
Theorem calculate_fleiss_kappa_le_1 (k : nat)
    (ratings_matrix : list (list rating)) (r : npfloat) :
  (2 ≤ k)%nat →
  Forall (λ row, length row = k) ratings_matrix →
  calculate_fleiss_kappa ratings_matrix = Some r →
  ∃ x : Qc, r = Fin x ∧ x ≤ 1.
Proof.
  intros Hk Hlen.
  rewrite (calculate_fleiss_kappa_value k ratings_matrix Hk Hlen).
  cbv zeta.
  pose proof (length_complete_rows k ratings_matrix Hlen) as Hrows.
  set (rows := complete_rows ratings_matrix) in *.
  case_decide as Hn; [done|]. case_decide as Hq; [done|].
  intros [= <-]. eexists. split; [done|].
  pose proof (P_e_rows_lt_1 k rows) as Hlt.
  destruct (P_bar_rows_bounds k rows) as [HP0 HP1]; [lia|done|lia|].
  assert (Hpos : 0 < 1 - P_e_rows k rows (sorted_set (concat rows))).
  { assert (P_e_rows k rows (sorted_set (concat rows)) < 1)
      by (apply Hlt; [lia|done|lia|lia]).
    clear Hlt. qc_lra. }
  apply Qc_div_le; [done|]. clear Hlt. qc_lra.
Qed.

Lemma fleiss_example_rows :
  (2 ≤ 3)%nat ∧ Forall (λ row, length row = 3%nat) fleiss_example.
Proof. split; [lia|by repeat constructor]. Qed.

Lemma ac1_multi_example_returns :
  ∃ r, calculate_gwet_ac1_multi fleiss_example = Some r.
Proof. vm_compute. by eexists. Qed.

Lemma fleiss_example_returns :
  ∃ r, calculate_fleiss_kappa fleiss_example = Some r.
Proof. vm_compute. by eexists. Qed.

Lemma calculate_gwet_ac1_multi_spec_witness :
  calculate_gwet_ac1_multi fleiss_example =
    Some (Fin ((P_bar_rows 3 (complete_rows fleiss_example)
                  (sorted_set (concat (complete_rows fleiss_example))) -
                pe_multi 3 (complete_rows fleiss_example)
                  (sorted_set (concat (complete_rows fleiss_example)))) /
               (1 - pe_multi 3 (complete_rows fleiss_example)
                      (sorted_set (concat (complete_rows fleiss_example)))))).
Proof.
  destruct fleiss_example_rows as [Hk Hlen].
  exact (proj1 (calculate_gwet_ac1_multi_spec 3 fleiss_example Hk Hlen)).
Defined.

Lemma calculate_gwet_ac1_multi_bounds_witness :
  ∃ r x, calculate_gwet_ac1_multi fleiss_example = Some r ∧
         r = Fin x ∧ -1 ≤ x ∧ x ≤ 1.
Proof.
  destruct fleiss_example_rows as [Hk Hlen].
  destruct ac1_multi_example_returns as [r Hr].
  destruct (calculate_gwet_ac1_multi_bounds 3 fleiss_example r Hk Hlen Hr)
    as (x & Hx & H0 & H1).
  exists r, x. split; [exact Hr|]. split; [exact Hx|].
  split; [exact H0|exact H1].
Defined.

Lemma calculate_fleiss_kappa_None_witness :
  calculate_fleiss_kappa fleiss_example = None ↔
  (length (omap all_present fleiss_example) < 2)%nat ∨
  (length (sorted_set (concat (omap all_present fleiss_example))) < 2)%nat.
Proof.
  destruct fleiss_example_rows as [Hk Hlen].
  exact (calculate_fleiss_kappa_None 3 fleiss_example Hk Hlen).
Defined.

Lemma calculate_fleiss_kappa_le_1_witness :
  ∃ r x, calculate_fleiss_kappa fleiss_example = Some r ∧
         r = Fin x ∧ x ≤ 1.
Proof.
  destruct fleiss_example_rows as [Hk Hlen].
  destruct fleiss_example_returns as [r Hr].
  destruct (calculate_fleiss_kappa_le_1 3 fleiss_example r Hk Hlen Hr)
    as (x & Hx & H1).
  exists r, x. split; [exact Hr|]. split; [exact Hx|exact H1].
Defined.

End MultiFacts.

Module CompareFacts.
Import Py IRRCalculator Spec Aux PairwiseFacts NormalizeFacts QcOrder.
Import BoundsFacts.

(** A loop whose body returns on every element returns. *)
Lemma for_each_returns {A S} (xs : list A) (st : S)
    (body : S → A → outcome S) :
  (∀ st x, x ∈ xs → ∃ st', body st x = Returns st') →
  ∃ st', for_each xs st body = Returns st'.
Proof.
  revert st. induction xs as [|x xs IH]; intros st Hbody; [by eexists|].
  cbn [for_each]. destruct (Hbody st x) as [st' ->]; [left|].
  cbn [mbind outcome_bind]. apply IH. intros st'' y Hy. apply Hbody.
  by right.
Qed.

(** A loop raises what its body raises on some element. *)
Lemma for_each_raises {A S} (xs : list A) (st : S)
    (body : S → A → outcome S) (e : exn) :
  for_each xs st body = Raises e →
  ∃ st' x, x ∈ xs ∧ body st' x = Raises e.
Proof.
  revert st. induction xs as [|x xs IH]; intros st; [done|].
  cbn [for_each]. destruct (body st x) as [st'|e'] eqn:Hx.
  - cbn [mbind outcome_bind]. intros (st'' & y & Hy & Hraise)%IH.
    exists st'', y. split; [by right|done].
  - cbn [mbind outcome_bind]. intros [= ->]. exists st, x.
    split; [left|done].
Qed.

Lemma length_omap_le {A B} (f : A → option B) (l : list A) :
  (length (omap f l) ≤ length l)%nat.
Proof.
  induction l as [|a l IH]; [done|]. cbn [omap list_omap length].
  destruct (f a); simpl; lia.
Qed.

(** A list splits into the elements that pass a test and those that fail. *)
Lemma length_filter_split {A} (P : A → Prop) `{!∀ a, Decision (P a)}
    (l : list A) :
  (length (filter P l) + length (filter (λ a, ¬ P a) l))%nat = length l.
Proof.
  induction l as [|a l IH]; [done|]. rewrite !(filter_cons _ a).
  destruct (decide (P a)).
  - rewrite decide_False by auto. simpl. lia.
  - rewrite decide_True by auto. simpl. lia.
Qed.

(** Loops with the same body on the elements of the list are equal. *)
Lemma for_each_ext {A S} (xs : list A) (st : S)
    (f g : S → A → outcome S) :
  (∀ st x, x ∈ xs → f st x = g st x) →
  for_each xs st f = for_each xs st g.
Proof.
  revert st. induction xs as [|x xs IH]; intros st Hfg; [done|].
  cbn [for_each]. rewrite Hfg by left.
  destruct (g st x) as [st'|e]; [|done]. cbn [mbind outcome_bind].
  apply IH. intros st'' y Hy. apply Hfg. by right.
Qed.

Lemma Forall2_fmap_eq {A B} (f : A → B) (l l' : list A) :
  Forall2 (λ a a', f a' = f a) l l' → f <$> l' = f <$> l.
Proof.
  induction 1 as [|a a' l l' Ha _ IH]; [done|].
  by rewrite !fmap_cons, IH, Ha.
Qed.

Lemma str_le_total : Total str_le.
Proof. intros a b. apply String.leb_total. Qed.

Section compare.
Context `{Externals}.

(** A raw value that [float] turns into an infinity. *)
Definition infinite (v : raw) : Prop :=
  py_float v = Returns PInf ∨ py_float v = Returns NInf.

(** [_normalize_value] returns, except on an infinite value, where the
    [OverflowError] of [int] is not caught. *)
Lemma normalize_outcome (v : raw) (var : string) :
  (¬ infinite v ∧ ∃ r, _normalize_value v var = Returns r) ∨
  (infinite v ∧ _normalize_value v var = Raises OverflowError).
Proof.
  destruct (py_float v) as [[x| | |]|e] eqn:Hf.
  - left. split; [unfold infinite; rewrite Hf; by intros [|]|].
    eexists. by apply normalize_number.
  - right. split; [by left|]. apply normalize_infinite. by left.
  - right. split; [by right|]. apply normalize_infinite. by right.
  - left. split; [unfold infinite; rewrite Hf; by intros [|]|].
    eexists. apply normalize_failure. by right.
  - left. split; [unfold infinite; rewrite Hf; by intros [|]|].
    eexists. apply normalize_failure. left. by exists e.
Qed.

(** No value of a primary variable on a common platform is infinite. *)
Definition no_infinite (coder1_results coder2_results : coder_results)
    : Prop :=
  ∀ pid var,
    pid ∈ common_platforms coder1_results coder2_results →
    var ∈ PRIMARY_VARIABLES →
    ¬ infinite (dict_get (default ∅ (coder1_results !! pid)) var) ∧
    ¬ infinite (dict_get (default ∅ (coder2_results !! pid)) var).

Lemma collect_returns (coder1_results coder2_results : coder_results)
    (ids : list string) :
  (∀ pid var, pid ∈ ids → var ∈ PRIMARY_VARIABLES →
     ¬ infinite (dict_get (default ∅ (coder1_results !! pid)) var) ∧
     ¬ infinite (dict_get (default ∅ (coder2_results !! pid)) var)) →
  ∃ variable_data,
    collect coder1_results coder2_results ids = Returns variable_data.
Proof.
  intros Hfin. unfold collect. apply for_each_returns.
  intros variable_data pid Hpid. cbv zeta. apply for_each_returns.
  intros vd var Hvar. destruct (Hfin pid var Hpid Hvar) as [H1 H2].
  destruct (normalize_outcome
              (dict_get (default ∅ (coder1_results !! pid)) var) var)
    as [[_ [v1 ->]]|[? _]]; [|done].
  destruct (normalize_outcome
              (dict_get (default ∅ (coder2_results !! pid)) var) var)
    as [[_ [v2 ->]]|[? _]]; [|done].
  by eexists.
Qed.

Lemma collect_raises (coder1_results coder2_results : coder_results)
    (ids : list string) (e : exn) :
  collect coder1_results coder2_results ids = Raises e →
  e = OverflowError ∧
  ∃ pid var, pid ∈ ids ∧ var ∈ PRIMARY_VARIABLES ∧
    (infinite (dict_get (default ∅ (coder1_results !! pid)) var) ∨
     infinite (dict_get (default ∅ (coder2_results !! pid)) var)).
Proof.
  unfold collect. intros (vd & pid & Hpid & Hinner)%for_each_raises.
  cbv zeta in Hinner.
  apply for_each_raises in Hinner as (vd' & var & Hvar & Hbody).
  destruct (normalize_outcome
              (dict_get (default ∅ (coder1_results !! pid)) var) var)
    as [[_ [v1 Hv1]]|[Hinf1 Hv1]]; rewrite Hv1 in Hbody.
  - destruct (normalize_outcome
                (dict_get (default ∅ (coder2_results !! pid)) var) var)
      as [[_ [v2 Hv2]]|[Hinf2 Hv2]]; rewrite Hv2 in Hbody; [done|].
    injection Hbody as <-. split; [done|]. exists pid, var. auto.
  - injection Hbody as <-. split; [done|]. exists pid, var. auto.
Qed.

(** The first loop records disagreements of the platforms it visits. *)
Lemma variables_loop_ids (platform_id : string) (r1 r2 : gmap string raw)
    (ids : list string) (vars : list string)
    (variable_data variable_data' : gmap string var_data) :
  platform_id ∈ ids →
  (∀ var, Forall (λ d, d_platform_id d ∈ ids)
                 (vd_disagreements (get_var_data variable_data var))) →
  for_each vars variable_data (λ variable_data var,
    v1 ← _normalize_value (dict_get r1 var) var;
    v2 ← _normalize_value (dict_get r2 var) var;
    let data := get_var_data variable_data var in
    Returns (<[var := record_values platform_id r1 data v1 v2]>
               variable_data)) = Returns variable_data' →
  ∀ var, Forall (λ d, d_platform_id d ∈ ids)
                (vd_disagreements (get_var_data variable_data' var)).
Proof.
  intros Hpid. revert variable_data.
  induction vars as [|var vars IH]; intros variable_data Hall Hrun.
  - simpl in Hrun. by injection Hrun as <-.
  - cbn [for_each] in Hrun.
    destruct (_normalize_value (dict_get r1 var) var) as [v1|e]; [|done].
    destruct (_normalize_value (dict_get r2 var) var) as [v2|e]; [|done].
    cbn [mbind outcome_bind] in Hrun. refine (IH _ _ Hrun).
    intros var'. unfold get_var_data at 1.
    destruct (decide (var = var')) as [->|Hne].
    + rewrite lookup_insert_eq. cbn [default].
      specialize (Hall var'). unfold record_values. cbn [vd_disagreements].
      destruct v1 as [a|], v2 as [b|]; try done.
      case_decide; [|done]. apply Forall_app. split; [done|].
      by apply Forall_singleton.
    + rewrite lookup_insert_ne by done. apply Hall.
Qed.

Lemma collect_ids (coder1_results coder2_results : coder_results)
    (ids : list string) (variable_data : gmap string var_data) :
  collect coder1_results coder2_results ids = Returns variable_data →
  ∀ var, var ∈ PRIMARY_VARIABLES →
    let data := get_var_data variable_data var in
    Forall2 (λ pid v,
               _normalize_value
                 (dict_get (default ∅ (coder1_results !! pid)) var) var =
               Returns v) ids (vd_coder1 data) ∧
    Forall2 (λ pid v,
               _normalize_value
                 (dict_get (default ∅ (coder2_results !! pid)) var) var =
               Returns v) ids (vd_coder2 data) ∧
    (λ d, (d_value1 d, d_value2 d)) <$> vd_disagreements data =
      disagreeing (vd_coder1 data) (vd_coder2 data) ∧
    Forall (λ d, d_platform_id d ∈ ids) (vd_disagreements data).
Proof.
  intros Hcollect var Hvar. cbv zeta.
  destruct (collect_spec _ _ _ _ Hcollect var Hvar) as (H1 & H2 & Hdis).
  split; [done|]. split; [done|]. split; [done|].
  clear H1 H2 Hdis. revert var Hvar. unfold collect in Hcollect.
  assert (Hgen : ∀ (rest : list string) (vd vd' : gmap string var_data),
    rest ⊆ ids →
    (∀ var, Forall (λ d, d_platform_id d ∈ ids)
                   (vd_disagreements (get_var_data vd var))) →
    for_each rest vd (λ variable_data platform_id,
      let r1 := default ∅ (coder1_results !! platform_id) in
      let r2 := default ∅ (coder2_results !! platform_id) in
      for_each PRIMARY_VARIABLES variable_data (λ variable_data var,
        v1 ← _normalize_value (dict_get r1 var) var;
        v2 ← _normalize_value (dict_get r2 var) var;
        let data := get_var_data variable_data var in
        Returns (<[var := record_values platform_id r1 data v1 v2]>
                   variable_data))) = Returns vd' →
    ∀ var, Forall (λ d, d_platform_id d ∈ ids)
                  (vd_disagreements (get_var_data vd' var))).
  { induction rest as [|pid rest IH]; intros vd vd' Hsub Hall Hrun.
    - simpl in Hrun. by injection Hrun as <-.
    - cbn [for_each] in Hrun. cbv zeta in Hrun.
      destruct (for_each PRIMARY_VARIABLES vd _) as [vd1|e] eqn:Hinner;
        [|done].
      cbn [mbind outcome_bind] in Hrun.
      apply (IH vd1 vd'); [intros x Hx; apply Hsub; by right| |done].
      eapply variables_loop_ids; [|exact Hall|exact Hinner].
      apply Hsub. left. }
  intros var _. apply (Hgen ids ∅ variable_data); [done| |done].
  intros var'. unfold get_var_data. by rewrite lookup_empty.
Qed.

Lemma compare_coders_overflow (coder1_results coder2_results : coder_results)
    (coder1_name coder2_name : string) (e : exn) :
  compare_coders coder1_results coder2_results coder1_name coder2_name =
    Raises e →
  e = OverflowError.
Proof.
  unfold compare_coders. cbv zeta.
  destruct (collect _ _ _) as [vd|e'] eqn:Hcollect; [done|].
  intros [= ->]. by apply collect_raises in Hcollect as [-> _].
Qed.

(** A value of a primary variable, on a platform of both coders, that
    [float] turns into an infinity ([inf], [1e999]) makes [compare_coders]
    raise [OverflowError]; and [compare_coders] raises nothing else. *)
Theorem compare_coders_raises (coder1_results coder2_results : coder_results)
    (coder1_name coder2_name : string) :
  (∀ pid var,
     pid ∈ common_platforms coder1_results coder2_results →
     var ∈ PRIMARY_VARIABLES →
     infinite (dict_get (default ∅ (coder1_results !! pid)) var) ∨
     infinite (dict_get (default ∅ (coder2_results !! pid)) var) →
     compare_coders coder1_results coder2_results coder1_name coder2_name =
     Raises OverflowError) ∧
  (∀ e, compare_coders coder1_results coder2_results
          coder1_name coder2_name = Raises e → e = OverflowError).
Proof.
  pose proof (compare_coders_overflow coder1_results coder2_results
                coder1_name coder2_name) as Hraise.
  split; [|done].
  intros pid var Hpid Hvar Hinf.
  destruct (compare_coders coder1_results coder2_results
              coder1_name coder2_name) as [s|e] eqn:Hrun.
  2:{ by rewrite (Hraise e). }
  exfalso. unfold compare_coders in Hrun. cbv zeta in Hrun.
  destruct (collect _ _ _) as [vd|e] eqn:Hcollect; [|done].
  destruct (collect_spec _ _ _ _ Hcollect var Hvar) as (H1 & H2 & _).
  apply list_elem_of_lookup in Hpid as [i Hi].
  destruct (Forall2_lookup_l _ _ _ _ _ H1 Hi) as (v1 & _ & Hv1).
  destruct (Forall2_lookup_l _ _ _ _ _ H2 Hi) as (v2 & _ & Hv2).
  destruct Hinf as [Hinf|Hinf].
  - destruct (normalize_outcome
                (dict_get (default ∅ (coder1_results !! pid)) var) var)
      as [[Hfin _]|[_ Hr]]; [done|congruence].
  - destruct (normalize_outcome
                (dict_get (default ∅ (coder2_results !! pid)) var) var)
      as [[Hfin _]|[_ Hr]]; [done|congruence].
Qed.

(** The entries of the summary are consistent: for every variable the
    disagreements are valid pairs with different values, there are at most
    [n] of them, [n] is at most the number of platforms, and the percent
    agreement is the share of the valid pairs that are not disagreements. *)
Theorem compare_coders_entries (coder1_results coder2_results : coder_results)
    (coder1_name coder2_name : string) (s : summary) :
  compare_coders coder1_results coder2_results coder1_name coder2_name =
    Returns s →
  variable <$> variables s = PRIMARY_VARIABLES ∧
  n_variables s = length (variables s) ∧
  ∀ r, r ∈ variables s →
    (n r ≤ n_platforms s)%nat ∧
    n_disagreements r = length (disagreements r) ∧
    (n_disagreements r ≤ n r)%nat ∧
    Forall (λ d, d_value1 d ≠ d_value2 d ∧
                 d_platform_id d ∈ platform_ids s) (disagreements r) ∧
    agreement r =
      (if decide (n r = 0%nat) then None
       else Some (Fin (Qc_of_nat (n r - n_disagreements r) /
                       Qc_of_nat (n r)))).
Proof.
  unfold compare_coders. cbv zeta.
  destruct (collect _ _ _) as [vd|e] eqn:Hcollect; [|done].
  cbn [mbind outcome_bind]. intros Hs.
  apply (f_equal (λ o, match o with Returns x => x | Raises _ => s end))
    in Hs.
  cbv beta iota in Hs. subst s.
  unfold summarise. cbn [variables n_variables n_platforms platform_ids].
  split; [by rewrite <-list_fmap_compose, list_fmap_id|].
  split; [by rewrite length_fmap|].
  intros r (var & -> & Hvar)%list_elem_of_fmap.
  destruct (collect_ids _ _ _ _ Hcollect var Hvar) as (H1 & H2 & Hdis & Hids).
  cbn [variable_result n n_disagreements disagreements agreement].
  set (data := get_var_data vd var) in *.
  assert (Hlen : length (vd_disagreements data) =
                 length (disagreeing (vd_coder1 data) (vd_coder2 data)))
    by (by rewrite <-Hdis, length_fmap).
  assert (Hsplit : (count_matches (valid_pairs (vd_coder1 data)
                                               (vd_coder2 data)) +
                    length (vd_disagreements data))%nat =
                   length (valid_pairs (vd_coder1 data) (vd_coder2 data))).
  { rewrite Hlen. unfold count_matches, disagreeing.
    apply length_filter_split. }
  split_and!.
  - rewrite (Forall2_length _ _ _ H1).
    unfold valid_pairs. etrans; [apply length_omap_le|].
    rewrite length_zip. lia.
  - done.
  - lia.
  - apply Forall_forall. intros d Hd. split.
    + assert ((d_value1 d, d_value2 d) ∈
              disagreeing (vd_coder1 data) (vd_coder2 data)) as Hin
        by (rewrite <-Hdis; apply list_elem_of_fmap; eauto).
      by apply list_elem_of_filter in Hin as [? _].
    + by eapply Forall_forall in Hids.
  - unfold calculate_agreement. cbv zeta. case_decide; [done|].
    cbn [fmap option_fmap option_map].
    replace (length (valid_pairs (vd_coder1 data) (vd_coder2 data)) -
             length (vd_disagreements data))%nat
      with (count_matches (valid_pairs (vd_coder1 data) (vd_coder2 data)))
      by lia.
    done.
Qed.

Lemma elem_of_common_platforms
    (coder1_results coder2_results : coder_results) (pid : string) :
  pid ∈ common_platforms coder1_results coder2_results ↔
  is_Some (coder1_results !! pid) ∧ is_Some (coder2_results !! pid).
Proof.
  unfold common_platforms. rewrite merge_sort_Permutation.
  by rewrite elem_of_elements, elem_of_intersection, !elem_of_dom.
Qed.

(** [platform_ids] lists the platforms that both coders have, each once, in
    ascending order, and [n_platforms] is their number. *)
Theorem compare_coders_platforms
    (coder1_results coder2_results : coder_results)
    (coder1_name coder2_name : string) (s : summary) :
  compare_coders coder1_results coder2_results coder1_name coder2_name =
    Returns s →
  (∀ pid, pid ∈ platform_ids s ↔
          is_Some (coder1_results !! pid) ∧ is_Some (coder2_results !! pid)) ∧
  NoDup (platform_ids s) ∧
  Sorted str_le (platform_ids s) ∧
  n_platforms s = length (platform_ids s).
Proof.
  unfold compare_coders. cbv zeta.
  destruct (collect _ _ _) as [vd|e]; [|done].
  cbn [mbind outcome_bind]. intros Hs.
  apply (f_equal (λ o, match o with Returns x => x | Raises _ => s end))
    in Hs.
  cbv beta iota in Hs. subst s.
  unfold summarise. cbn [n_platforms platform_ids].
  split; [apply elem_of_common_platforms|].
  split; [|split; [|done]].
  - unfold common_platforms. rewrite merge_sort_Permutation.
    apply NoDup_elements.
  - apply Sorted_merge_sort, str_le_total.
Qed.

(** [compare_coders] reads the platforms that both coders have and, on
    these, the primary variables and the first coder's [platform_name]:
    two pairs of results that agree there give the same outcome. *)
Theorem compare_coders_ext
    (coder1_results coder2_results coder1_results' coder2_results'
       : coder_results)
    (coder1_name coder2_name : string) :
  dom coder1_results ∩ dom coder2_results =
    dom coder1_results' ∩ dom coder2_results' →
  (∀ pid var,
     pid ∈ dom coder1_results ∩ dom coder2_results →
     var ∈ "platform_name" :: PRIMARY_VARIABLES →
     default ∅ (coder1_results !! pid) !! var =
       default ∅ (coder1_results' !! pid) !! var) →
  (∀ pid var,
     pid ∈ dom coder1_results ∩ dom coder2_results →
     var ∈ PRIMARY_VARIABLES →
     default ∅ (coder2_results !! pid) !! var =
       default ∅ (coder2_results' !! pid) !! var) →
  compare_coders coder1_results coder2_results coder1_name coder2_name =
  compare_coders coder1_results' coder2_results' coder1_name coder2_name.
Proof.
  intros Hdom H1 H2. unfold compare_coders, common_platforms. cbv zeta.
  rewrite <-Hdom.
  set (ids := merge_sort str_le _).
  assert (Hids : ∀ pid, pid ∈ ids →
                        pid ∈ dom coder1_results ∩ dom coder2_results).
  { intros pid. unfold ids.
    by rewrite merge_sort_Permutation, elem_of_elements. }
  assert (collect coder1_results coder2_results ids =
          collect coder1_results' coder2_results' ids) as ->; [|done].
  unfold collect. apply for_each_ext. intros vd pid Hpid. cbv zeta.
  apply for_each_ext. intros vd' var Hvar.
  unfold dict_get, record_values.
  rewrite (H1 pid var), (H1 pid "platform_name"), (H2 pid var);
    auto using list_elem_of_here, list_elem_of_further.
Qed.

(** Percent agreement and AC1 of two lists, whichever comes first. *)
Lemma calculate_agreement_swap (values1 values2 : list rating) :
  calculate_agreement values2 values1 = calculate_agreement values1 values2.
Proof.
  unfold calculate_agreement. cbv zeta.
  by rewrite (valid_pairs_swap values1 values2), length_fmap,
    count_matches_swap.
Qed.

Lemma calculate_gwet_ac1_swap (values1 values2 : list rating) :
  calculate_gwet_ac1 values2 values1 = calculate_gwet_ac1 values1 values2.
Proof.
  rewrite !calculate_gwet_ac1_unfold. cbv zeta.
  rewrite (valid_pairs_swap values1 values2), length_fmap,
    count_matches_swap.
  case_decide; [done|].
  apply ac1_of_pooled_Permutation.
  rewrite <-!list_fmap_compose.
  rewrite (Permutation_app_comm (_ <$> _)).
  reflexivity.
Qed.

Lemma length_disagreeing_swap (values1 values2 : list rating) :
  length (disagreeing values2 values1) = length (disagreeing values1 values2).
Proof.
  unfold disagreeing. rewrite (valid_pairs_swap values1 values2).
  induction (valid_pairs values1 values2) as [|[a b] ps IH]; [done|].
  rewrite fmap_cons, !filter_cons. simpl.
  destruct (decide (a ≠ b)), (decide (b ≠ a)); simpl; try congruence.
  - exfalso. naive_solver.
  - exfalso. naive_solver.
Qed.

(** The lists that the first loop builds are determined by the platforms. *)
Lemma normalised_unique (results : coder_results) (var : string)
    (ids : list string) (l l' : list rating) :
  Forall2 (λ pid v,
             _normalize_value (dict_get (default ∅ (results !! pid)) var) var
             = Returns v) ids l →
  Forall2 (λ pid v,
             _normalize_value (dict_get (default ∅ (results !! pid)) var) var
             = Returns v) ids l' →
  l = l'.
Proof.
  intros Hl. revert l'. induction Hl as [|pid v ids l Hv _ IH]; intros l' Hl'.
  - by apply Forall2_nil_inv_l in Hl'.
  - apply Forall2_cons_inv_l in Hl' as (v' & l'' & Hv' & Hl'' & ->).
    f_equal; [congruence|by apply IH].
Qed.

(** Comparing the coders in the other order gives, for every variable, the
    same number of valid pairs, percent agreement, AC1 and number of
    disagreements, and the same overall agreement and mean AC1. *)
Theorem compare_coders_swap (coder1_results coder2_results : coder_results)
    (coder1_name coder2_name : string) (s : summary) :
  compare_coders coder1_results coder2_results coder1_name coder2_name =
    Returns s →
  ∃ s',
    compare_coders coder2_results coder1_results coder2_name coder1_name =
      Returns s' ∧
    platform_ids s' = platform_ids s ∧
    Forall2 (λ r r',
               variable r' = variable r ∧ n r' = n r ∧
               agreement r' = agreement r ∧
               IRRCalculator.gwet_ac1 r' = IRRCalculator.gwet_ac1 r ∧
               n_disagreements r' = n_disagreements r)
            (variables s) (variables s') ∧
    overall_agreement s' = overall_agreement s ∧
    mean_gwet_ac1 s' = mean_gwet_ac1 s ∧
    n_ac1_valid s' = n_ac1_valid s.
Proof.
  unfold compare_coders. cbv zeta.
  assert (Hcommon : common_platforms coder2_results coder1_results =
                    common_platforms coder1_results coder2_results).
  { unfold common_platforms. f_equal. f_equal. set_solver. }
  rewrite Hcommon.
  set (ids := common_platforms coder1_results coder2_results).
  destruct (collect coder1_results coder2_results ids) as [vd|e] eqn:Hvd;
    [|done].
  cbn [mbind outcome_bind]. intros Hs.
  apply (f_equal (λ o, match o with Returns x => x | Raises _ => s end))
    in Hs.
  cbv beta iota in Hs. subst s.
  pose proof (collect_spec _ _ _ _ Hvd) as Hspec.
  destruct (collect_returns coder2_results coder1_results ids) as [vd' Hvd'].
  { intros pid var Hpid Hvar.
    destruct (Hspec var Hvar) as (H1 & H2 & _).
    apply list_elem_of_lookup in Hpid as [i Hi].
    destruct (Forall2_lookup_l _ _ _ _ _ H1 Hi) as (v1 & _ & Hv1).
    destruct (Forall2_lookup_l _ _ _ _ _ H2 Hi) as (v2 & _ & Hv2).
    split; intros Hinf.
    - destruct (normalize_outcome
                  (dict_get (default ∅ (coder2_results !! pid)) var) var)
        as [[Hfin _]|[_ Hr]]; [done|congruence].
    - destruct (normalize_outcome
                  (dict_get (default ∅ (coder1_results !! pid)) var) var)
        as [[Hfin _]|[_ Hr]]; [done|congruence]. }
  rewrite Hvd'. cbn [mbind outcome_bind]. eexists. split; [done|].
  pose proof (collect_spec _ _ _ _ Hvd') as Hspec'.
  unfold summarise.
  cbn [platform_ids variables overall_agreement mean_gwet_ac1 n_ac1_valid].
  assert (Hvars : Forall2 (λ r r',
               variable r' = variable r ∧ n r' = n r ∧
               agreement r' = agreement r ∧
               IRRCalculator.gwet_ac1 r' = IRRCalculator.gwet_ac1 r ∧
               n_disagreements r' = n_disagreements r)
            (variable_result vd <$> PRIMARY_VARIABLES)
            (variable_result vd' <$> PRIMARY_VARIABLES)).
  { apply Forall2_fmap, Forall_Forall2_diag, Forall_forall.
    intros var Hvar.
    destruct (Hspec var Hvar) as (H1 & H2 & Hdis).
    destruct (Hspec' var Hvar) as (H1' & H2' & Hdis').
    pose proof (normalised_unique _ _ _ _ _ H1 H2') as E1.
    pose proof (normalised_unique _ _ _ _ _ H2 H1') as E2.
    unfold variable_result. cbv zeta.
    cbn [variable n agreement IRRCalculator.gwet_ac1 n_disagreements].
    rewrite <-E1, <-E2.
    rewrite calculate_agreement_swap, calculate_gwet_ac1_swap.
    rewrite (valid_pairs_swap (vd_coder1 (get_var_data vd var))), length_fmap.
    split_and!; try done.
    rewrite <-(length_fmap (λ d, (d_value1 d, d_value2 d))
                           (vd_disagreements (get_var_data vd' var))), Hdis'.
    rewrite <-(length_fmap (λ d, (d_value1 d, d_value2 d))
                           (vd_disagreements (get_var_data vd var))), Hdis.
    rewrite <-E1, <-E2. apply length_disagreeing_swap. }
  split; [done|]. split; [done|].
  rewrite (Forall2_fmap_eq agreement _ _
             (Forall2_impl _ _ _ _ Hvars (λ r r' Hr, proj1 (proj2 (proj2 Hr))))).
  rewrite (Forall2_fmap_eq IRRCalculator.gwet_ac1 _ _
             (Forall2_impl _ _ _ _ Hvars
                (λ r r' Hr, proj1 (proj2 (proj2 (proj2 Hr)))))).
  done.
Qed.

End compare.

(** Two coders; the second has a platform the first lacks and a variable
    that is not a primary variable. *)
Definition coder_c : coder_results :=
  {[ "p1" := {[ "DEVP" := RInt 1; "METH" := RInt 3 ]};
     "p2" := {[ "DEVP" := RInt 1; "METH" := RInt 5 ]} ]}.

Definition coder_d : coder_results :=
  {[ "p1" := {[ "DEVP" := RInt 1; "METH" := RInt 3 ]};
     "p2" := {[ "DEVP" := RInt 0; "METH" := RInt 4; "NOTE" := RStr "x" ]};
     "p9" := {[ "DEVP" := RInt 0 ]} ]}.

(** The same as [coder_d] on what [compare_coders] reads. *)
Definition coder_d' : coder_results :=
  {[ "p1" := {[ "DEVP" := RInt 1; "METH" := RInt 3 ]};
     "p2" := {[ "DEVP" := RInt 0; "METH" := RInt 4 ]} ]}.

(** A coder with an infinite value. *)
Definition coder_inf : coder_results :=
  {[ "p1" := {[ "DEVP" := RInt 1; "METH" := RFloat PInf ]};
     "p2" := {[ "DEVP" := RInt 1; "METH" := RInt 5 ]} ]}.

Lemma coders_c_d_return :
  ∃ s, compare_coders (H := Reference.reference_externals)
         coder_c coder_d "Claude" "ChatGPT" = Returns s.
Proof. vm_compute. by eexists. Qed.

Lemma compare_coders_raises_witness :
  compare_coders (H := Reference.reference_externals)
    coder_inf coder_d "Claude" "ChatGPT" = Raises OverflowError.
Proof.
  refine (proj1 (compare_coders_raises (H := Reference.reference_externals)
                   coder_inf coder_d "Claude" "ChatGPT") "p1" "METH" _ _ _).
  - by vm_compute; left.
  - by vm_compute; do 35 right; left.
  - left. by left.
Defined.

Lemma compare_coders_entries_witness :
  ∃ s, compare_coders (H := Reference.reference_externals)
         coder_c coder_d "Claude" "ChatGPT" = Returns s ∧
       variable <$> variables s = PRIMARY_VARIABLES ∧
       n_variables s = length (variables s).
Proof.
  destruct coders_c_d_return as [s Hs]. exists s.
  destruct (compare_coders_entries (H := Reference.reference_externals)
              _ _ _ _ s Hs) as (Hvars & Hn & _).
  split; [exact Hs|]. split; [exact Hvars|exact Hn].
Defined.

Lemma compare_coders_platforms_witness :
  ∃ s, compare_coders (H := Reference.reference_externals)
         coder_c coder_d "Claude" "ChatGPT" = Returns s ∧
       NoDup (platform_ids s) ∧ Sorted str_le (platform_ids s) ∧
       n_platforms s = length (platform_ids s).
Proof.
  destruct coders_c_d_return as [s Hs]. exists s.
  destruct (compare_coders_platforms (H := Reference.reference_externals)
              _ _ _ _ s Hs) as (_ & Hnd & Hsorted & Hn).
  split; [exact Hs|]. split; [exact Hnd|]. split; [exact Hsorted|exact Hn].
Defined.

Lemma coders_d_d'_agree :
  dom coder_c ∩ dom coder_d = dom coder_c ∩ dom coder_d' ∧
  (∀ pid var,
     pid ∈ dom coder_c ∩ dom coder_d →
     var ∈ "platform_name" :: PRIMARY_VARIABLES →
     default ∅ (coder_c !! pid) !! var = default ∅ (coder_c !! pid) !! var) ∧
  (∀ pid var,
     pid ∈ dom coder_c ∩ dom coder_d →
     var ∈ PRIMARY_VARIABLES →
     default ∅ (coder_d !! pid) !! var = default ∅ (coder_d' !! pid) !! var).
Proof.
  split; [by vm_compute|]. split; [done|].
  intros pid var Hpid Hvar.
  assert (Hids : pid ∈ ["p1"; "p2"]).
  { apply elem_of_elements in Hpid. revert Hpid. by vm_compute. }
  revert var Hvar. apply Forall_forall.
  apply elem_of_cons in Hids as [->|Hids];
    [vm_compute; repeat constructor|].
  apply elem_of_cons in Hids as [->|Hids];
    [vm_compute; repeat constructor|].
  by apply elem_of_nil in Hids.
Qed.

Lemma compare_coders_ext_witness :
  compare_coders (H := Reference.reference_externals)
    coder_c coder_d "Claude" "ChatGPT" =
  compare_coders (H := Reference.reference_externals)
    coder_c coder_d' "Claude" "ChatGPT".
Proof.
  destruct coders_d_d'_agree as (Hdom & H1 & H2).
  exact (compare_coders_ext (H := Reference.reference_externals)
           coder_c coder_d coder_c coder_d' "Claude" "ChatGPT" Hdom H1 H2).
Defined.

Lemma compare_coders_swap_witness :
  ∃ s s',
    compare_coders (H := Reference.reference_externals)
      coder_c coder_d "Claude" "ChatGPT" = Returns s ∧
    compare_coders (H := Reference.reference_externals)
      coder_d coder_c "ChatGPT" "Claude" = Returns s' ∧
    overall_agreement s' = overall_agreement s ∧
    mean_gwet_ac1 s' = mean_gwet_ac1 s.
Proof.
  destruct coders_c_d_return as [s Hs].
  destruct (compare_coders_swap (H := Reference.reference_externals)
              _ _ _ _ s Hs) as (s' & Hs' & _ & _ & Ha & Hac1 & _).
  exists s, s'. split; [exact Hs|]. split; [exact Hs'|].
  split; [exact Ha|exact Hac1].
Defined.

End CompareFacts.

Module HumanPairFacts.
Import Py HumanIRR HumanFacts QcOrder BoundsFacts.


Section pairwise.
Context `{Externals}.


(** The comparison with the two values exchanged. *)
Definition swap_comparison (c : comparison) : comparison :=
  {| c_platform_id := c_platform_id c; c_variable := c_variable c;
     c_value1 := c_value2 c; c_value2 := c_value1 c |}.

Global Instance swap_comparison_inj : Inj (=) (=) swap_comparison.
Proof. intros [] [] [=]. by simplify_eq/=. Qed.










End pairwise.

End HumanPairFacts.

Module InterpretationFacts.
Import Py IRRCalculator QcOrder.

(** The labels, from the lowest to the highest. *)
Definition labels : list string :=
  ["Poor"; "Slight"; "Fair"; "Moderate"; "Substantial"; "Almost Perfect"].

Lemma np_geb_Fin (x y : Qc) : np_geb (Fin x) (Fin y) = bool_decide (y ≤ x).
Proof.
  unfold np_geb. cbn [np_ltb np_eqb].
  destruct (decide (y ≤ x)) as [Hle|Hgt].
  - rewrite (bool_decide_eq_true_2 (y ≤ x)) by done.
    apply Qcle_lt_or_eq in Hle as [Hlt| ->].
    + by rewrite (bool_decide_eq_true_2 (y < x)).
    + rewrite (bool_decide_eq_true_2 (x = x)) by done. apply orb_true_r.
  - rewrite (bool_decide_eq_false_2 (y ≤ x)) by done.
    rewrite (bool_decide_eq_false_2 (y < x))
      by (intros ?; by apply Hgt, Qclt_le_weak).
    rewrite (bool_decide_eq_false_2 (x = y)); [done|].
    intros ->. apply Hgt, Qcle_refl.
Qed.

(** The position of the label of a number in [labels]. *)
Definition band (x : Qc) : nat :=
  if decide (Q2Qc 0.81 ≤ x) then 5
  else if decide (Q2Qc 0.61 ≤ x) then 4
  else if decide (Q2Qc 0.41 ≤ x) then 3
  else if decide (Q2Qc 0.21 ≤ x) then 2
  else if decide (0 ≤ x) then 1
  else 0.

Lemma interpretation_band (x : Qc) :
  labels !! band x = Some (_kappa_interpretation (Some (Fin x))).
Proof.
  unfold _kappa_interpretation, band. rewrite !np_geb_Fin.
  repeat case_decide;
    repeat (first [ rewrite bool_decide_eq_true_2 by done
                  | rewrite bool_decide_eq_false_2 by done ]); done.
Qed.

Lemma band_mono (x y : Qc) : x ≤ y → (band x ≤ band y)%nat.
Proof.
  intros Hxy. unfold band.
  assert (H1 : Q2Qc 0.21 ≤ Q2Qc 0.41) by (by vm_compute).
  assert (H2 : Q2Qc 0.41 ≤ Q2Qc 0.61) by (by vm_compute).
  assert (H3 : Q2Qc 0.61 ≤ Q2Qc 0.81) by (by vm_compute).
  assert (H0 : 0 ≤ Q2Qc 0.21) by (by vm_compute).
  repeat case_decide; try lia; exfalso;
    repeat match goal with
    | Hn : ¬ (_ ≤ _) |- _ => apply Qclt_nge in Hn
    end;
    generalize dependent (Q2Qc 0.21); generalize dependent (Q2Qc 0.41);
    generalize dependent (Q2Qc 0.61); generalize dependent (Q2Qc 0.81);
    intros; qc_lra.
Qed.

(** [_kappa_interpretation] gives every number one of six labels, a greater
    number never a lower label; the labels change at 0, 0.21, 0.41, 0.61
    and 0.81.  [None] is labelled N/A, and NaN, on which every comparison
    fails, is labelled Poor. *)
Theorem kappa_interpretation_monotone :
  (∀ x y : Qc, x ≤ y →
     ∃ i j, labels !! i = Some (_kappa_interpretation (Some (Fin x))) ∧
            labels !! j = Some (_kappa_interpretation (Some (Fin y))) ∧
            (i ≤ j)%nat) ∧
  (∀ x : Qc,
     (_kappa_interpretation (Some (Fin x)) = "Poor" ↔ x < 0) ∧
     (_kappa_interpretation (Some (Fin x)) = "Slight" ↔
        0 ≤ x ∧ x < Q2Qc 0.21) ∧
     (_kappa_interpretation (Some (Fin x)) = "Almost Perfect" ↔
        Q2Qc 0.81 ≤ x)) ∧
  _kappa_interpretation None = "N/A" ∧
  _kappa_interpretation (Some NaN) = "Poor" ∧
  _kappa_interpretation (Some PInf) = "Almost Perfect" ∧
  _kappa_interpretation (Some NInf) = "Poor".
Proof.
  split_and!; try done.
  - intros x y Hxy. exists (band x), (band y).
    split; [apply interpretation_band|].
    split; [apply interpretation_band|by apply band_mono].
  - intros x.
    assert (H0 : 0 ≤ Q2Qc 0.21) by (by vm_compute).
    assert (H1 : Q2Qc 0.21 ≤ Q2Qc 0.41) by (by vm_compute).
    assert (H2 : Q2Qc 0.41 ≤ Q2Qc 0.61) by (by vm_compute).
    assert (H3 : Q2Qc 0.61 ≤ Q2Qc 0.81) by (by vm_compute).
    unfold _kappa_interpretation. rewrite !np_geb_Fin.
    rewrite !Qclt_nge.
    repeat case_bool_decide; split_and!; split; try done; intros;
      try (destruct_and?; done); exfalso;
      repeat match goal with
      | Hn : ¬ (_ ≤ _) |- _ => apply Qclt_nge in Hn
      end;
      generalize dependent (Q2Qc 0.21); generalize dependent (Q2Qc 0.41);
      generalize dependent (Q2Qc 0.61); generalize dependent (Q2Qc 0.81);
      intros; qc_lra.
Qed.

End InterpretationFacts.

Module TwoRaterFacts.
Import Py IRRCalculator Spec Aux PairwiseFacts KrippendorffFacts.
Import FleissFacts QcOrder BoundsFacts CountFacts MultiFacts.

(** The matrix of two raters: one row of two ratings per subject. *)
Definition two_rater_matrix (values1 values2 : list rating)
    : list (list rating) :=
  zip_with (λ a b, [a; b]) values1 values2.

Lemma two_rater_matrix_length (values1 values2 : list rating) :
  Forall (λ row, length row = 2%nat) (two_rater_matrix values1 values2).
Proof.
  unfold two_rater_matrix. revert values2.
  induction values1 as [|a v1 IH]; intros [|b v2]; simpl; try done.
  constructor; [done|apply IH].
Qed.

(** Its complete rows are the valid pairs. *)
Lemma two_rater_complete_rows (values1 values2 : list rating) :
  complete_rows (two_rater_matrix values1 values2) =
  (λ p : Z * Z, [p.1; p.2]) <$> valid_pairs values1 values2.
Proof.
  unfold complete_rows, two_rater_matrix. revert values2.
  induction values1 as [|a v1 IH]; intros [|b v2]; try done.
  rewrite valid_pairs_cons. cbn [zip_with omap list_omap].
  rewrite IH. by destruct a, b.
Qed.

Lemma concat_pairs (pairs : list (Z * Z)) :
  concat ((λ p : Z * Z, [p.1; p.2]) <$> pairs) ≡ₚ pairs.*1 ++ pairs.*2.
Proof.
  induction pairs as [|[a b] ps IH]; [done|].
  cbn [fmap list_fmap concat app fst snd]. rewrite IH.
  by rewrite Permutation_middle.
Qed.

(** The counts of a category add up over the rows. *)
Lemma sum_over_n_ij_rows (rows : list (list Z)) (c : Z) :
  sum_over (λ row, Qc_of_nat (n_ij row c)) rows =
  Qc_of_nat (length (filter (λ v, v = c) (concat rows))).
Proof.
  induction rows as [|row rows IH].
  - by apply Qc_is_canon.
  - rewrite sum_over_cons, IH. cbn [concat].
    rewrite filter_app, length_app. unfold n_ij, Qc_of_nat.
    by rewrite Nat2Z.inj_add, Z2Qc_inj_add.
Qed.

(** The Fleiss agreement of a subject with two ratings is 1 when they are
    equal and 0 when they differ. *)
Lemma P_i_pair (categories : list Z) (a b : Z) :
  NoDup categories → a ∈ categories → b ∈ categories →
  P_i 2 categories [a; b] = if decide (a = b) then 1 else 0.
Proof.
  intros Hnd Ha Hb. unfold P_i.
  assert (Hden : Qc_of_Z (Z.of_nat 2 * (Z.of_nat 2 - 1)) = 2)
    by (by apply Qc_is_canon).
  rewrite Hden.
  assert (H2 : (2 : Qc) ≠ 0) by (by intros [=]).
  apply elem_of_Permutation in Ha as [rest Ha].
  assert (Hrest : NoDup (a :: rest)) by (by rewrite <-Ha).
  apply NoDup_cons in Hrest as [Ha_rest Hrest].
  rewrite (sum_over_Permutation _ _ _ Ha), sum_over_cons.
  case_decide as Hab.
  - subst b.
    rewrite sum_over_zero.
    + unfold n_ij. rewrite !filter_cons, !decide_True by done.
      rewrite filter_nil. apply Qc_div_eq; [done|]. by apply Qc_is_canon.
    + intros c Hc. unfold n_ij.
      rewrite !filter_cons, !decide_False by (by intros <-).
      rewrite filter_nil. by apply Qc_is_canon.
  - assert (Hb' : b ∈ rest).
    { rewrite Ha in Hb. by apply elem_of_cons in Hb as [->|]. }
    apply elem_of_Permutation in Hb' as [rest' Hb'].
    assert (Hrest' : NoDup (b :: rest')) by (by rewrite <-Hb').
    apply NoDup_cons in Hrest' as [Hb_rest Hrest'].
    rewrite (sum_over_Permutation _ _ _ Hb'), sum_over_cons.
    rewrite sum_over_zero.
    + unfold n_ij.
      rewrite !filter_cons, (decide_True (P := a = a)),
        (decide_False (P := b = a)), (decide_False (P := a = b)),
        (decide_True (P := b = b)) by done.
      rewrite filter_nil. apply Qc_div_eq; [done|]. by apply Qc_is_canon.
    + intros c Hc. unfold n_ij.
      assert (c ≠ a).
      { intros ->. apply Ha_rest. rewrite Hb'. by right. }
      assert (c ≠ b) by (by intros ->).
      rewrite !filter_cons, !decide_False by done.
      rewrite filter_nil. by apply Qc_is_canon.
Qed.

(** The mean Fleiss agreement of two raters is their percent agreement. *)
Lemma P_bar_pair (pairs : list (Z * Z)) (categories : list Z) :
  NoDup categories →
  (∀ p, p ∈ pairs → p.1 ∈ categories ∧ p.2 ∈ categories) →
  sum_over (P_i 2 categories) ((λ p : Z * Z, [p.1; p.2]) <$> pairs) =
  Qc_of_nat (count_matches pairs).
Proof.
  intros Hnd. unfold count_matches.
  induction pairs as [|[a b] ps IH]; intros Hin.
  - by apply Qc_is_canon.
  - rewrite fmap_cons, sum_over_cons, IH
      by (intros; apply Hin; by right).
    destruct (Hin (a, b)) as [Ha Hb]; [left|]. simpl in Ha, Hb.
    cbn [fst snd]. rewrite (P_i_pair _ _ _ Hnd Ha Hb), filter_cons.
    cbn [fst snd]. case_decide.
    + cbn [length]. rewrite Qc_of_nat_S. ring.
    + ring.
Qed.

(** On the matrix of two raters the multi-rater AC1 is the two-rater
    AC1. *)
Theorem calculate_gwet_ac1_multi_two_raters (values1 values2 : list rating) :
  calculate_gwet_ac1_multi (two_rater_matrix values1 values2) =
  Fin <$> calculate_gwet_ac1 values1 values2.
Proof.
  rewrite (calculate_gwet_ac1_multi_value 2 _ (le_n 2)
             (two_rater_matrix_length values1 values2)).
  cbv zeta. rewrite two_rater_complete_rows.
  set (pairs := valid_pairs values1 values2).
  set (rows := (λ p : Z * Z, [p.1; p.2]) <$> pairs).
  assert (Hconcat : concat rows ≡ₚ pooled values1 values2)
    by (unfold rows, pairs; by rewrite concat_pairs, pooled_valid_pairs).
  assert (Hcats : sorted_set (concat rows) =
                  sorted_set (pooled values1 values2))
    by (apply sorted_set_Permutation; intros x; by rewrite Hconcat).
  assert (Hobserved : sorted_set (pooled values1 values2) ≡ₚ
                      observed_categories values1 values2)
    by apply merge_sort_Permutation.
  assert (Hlen : length rows = n_valid values1 values2)
    by (unfold rows, pairs; by rewrite length_fmap, length_valid_pairs).
  rewrite Hcats, Hlen.
  assert (Hq : length (sorted_set (pooled values1 values2)) =
               length (observed_categories values1 values2))
    by (by rewrite Hobserved).
  rewrite Hq.
  destruct (decide (n_valid values1 values2 < 2)%nat) as [Hn|Hn].
  { rewrite calculate_gwet_ac1_unfold. cbv zeta.
    by rewrite length_valid_pairs, decide_True. }
  destruct (decide (length (observed_categories values1 values2) < 2)%nat)
    as [Hq2|Hq2].
  { rewrite calculate_gwet_ac1_unfold. cbv zeta.
    rewrite pooled_valid_pairs, length_valid_pairs, count_matches_valid_pairs.
    rewrite decide_False, ac1_of_pooled_spec by done.
    unfold gwet_ac1. by rewrite decide_False, decide_True. }
  rewrite calculate_gwet_ac1_value by lia.
  cbn [fmap option_fmap option_map]. do 2 f_equal.
  assert (HP : P_bar_rows 2 rows (sorted_set (pooled values1 values2)) =
               pa values1 values2).
  { unfold P_bar_rows, pa, rows. rewrite P_bar_pair.
    - rewrite length_fmap. unfold pairs.
      by rewrite count_matches_valid_pairs, length_valid_pairs.
    - apply sorted_set_NoDup.
    - intros p Hp. rewrite !elem_of_sorted_set, <-pooled_valid_pairs.
      rewrite !elem_of_app, !list_elem_of_fmap. split; eauto. }
  assert (Hpe : pe_multi 2 rows (sorted_set (pooled values1 values2)) =
                pe values1 values2).
  { unfold pe_multi, pe. cbv zeta. rewrite Hq. f_equal.
    rewrite (sum_over_Permutation _ _ _ Hobserved).
    apply sum_over_ext. intros c _.
    assert (proportion 2 rows c = marginal values1 values2 c) as ->; [|done].
    unfold proportion, marginal. rewrite sum_over_n_ij_rows.
    rewrite (length_filter_Permutation _ _ _ Hconcat).
    rewrite length_pooled. unfold rows, pairs.
    rewrite length_fmap, length_valid_pairs. do 2 f_equal. lia. }
  by rewrite HP, Hpe.
Qed.

End TwoRaterFacts.

Module ThreeWayFacts.
Import Py IRRCalculator Spec Aux PairwiseFacts NormalizeFacts.
Import QcOrder BoundsFacts CompareFacts.

Section three_way.
Context `{Externals}.

(** When [compare_coders] returns, every value of a primary variable on a
    common platform was normalised without an exception. *)
Lemma compare_coders_normalised
    (coder1_results coder2_results : coder_results)
    (coder1_name coder2_name : string) (s : summary)
    (pid var : string) :
  compare_coders coder1_results coder2_results coder1_name coder2_name =
    Returns s →
  pid ∈ common_platforms coder1_results coder2_results →
  var ∈ PRIMARY_VARIABLES →
  (∃ v, _normalize_value
          (dict_get (default ∅ (coder1_results !! pid)) var) var =
        Returns v) ∧
  (∃ v, _normalize_value
          (dict_get (default ∅ (coder2_results !! pid)) var) var =
        Returns v).
Proof.
  unfold compare_coders. cbv zeta.
  destruct (collect _ _ _) as [vd|e] eqn:Hcollect; [|done].
  intros _ Hpid Hvar.
  destruct (collect_spec _ _ _ _ Hcollect var Hvar) as (H1 & H2 & _).
  apply list_elem_of_lookup in Hpid as [i Hi].
  destruct (Forall2_lookup_l _ _ _ _ _ H1 Hi) as (v1 & _ & Hv1).
  destruct (Forall2_lookup_l _ _ _ _ _ H2 Hi) as (v2 & _ & Hv2).
  eauto.
Qed.

Lemma elem_of_common_all
    (claude_results chatgpt_results human_results : coder_results)
    (pid : string) :
  pid ∈ common_all claude_results chatgpt_results human_results ↔
  is_Some (claude_results !! pid) ∧ is_Some (chatgpt_results !! pid) ∧
  is_Some (human_results !! pid).
Proof.
  unfold common_all. rewrite merge_sort_Permutation.
  rewrite elem_of_elements, !elem_of_intersection, !elem_of_dom.
  naive_solver.
Qed.

(** The body of the loop of [three_way_values] returns when the three
    values are normalised without an exception. *)
Lemma three_way_values_returns
    (claude_results chatgpt_results human_results : coder_results)
    (ids : list string) (var : string) :
  (∀ pid, pid ∈ ids →
     (∃ v, _normalize_value
             (dict_get (default ∅ (claude_results !! pid)) var) var =
           Returns v) ∧
     (∃ v, _normalize_value
             (dict_get (default ∅ (chatgpt_results !! pid)) var) var =
           Returns v) ∧
     (∃ v, _normalize_value
             (dict_get (default ∅ (human_results !! pid)) var) var =
           Returns v)) →
  ∃ st, three_way_values claude_results chatgpt_results human_results
          ids var = Returns st.
Proof.
  intros Hids. unfold three_way_values. apply for_each_returns.
  intros [[[cv gv] hv] dis] pid Hpid.
  destruct (Hids pid Hpid) as ([vc ->] & [vg ->] & [vh ->]).
  by eexists.
Qed.

Lemma three_way_values_raises
    (claude_results chatgpt_results human_results : coder_results)
    (ids : list string) (var : string) (e : exn) :
  three_way_values claude_results chatgpt_results human_results ids var =
    Raises e →
  e = OverflowError.
Proof.
  unfold three_way_values.
  intros ([[[cv gv] hv] dis] & pid & _ & Hbody)%for_each_raises.
  destruct (normalize_outcome
              (dict_get (default ∅ (claude_results !! pid)) var) var)
    as [[_ [vc Hvc]]|[_ Hvc]]; rewrite Hvc in Hbody; [|by injection Hbody].
  destruct (normalize_outcome
              (dict_get (default ∅ (chatgpt_results !! pid)) var) var)
    as [[_ [vg Hvg]]|[_ Hvg]]; rewrite Hvg in Hbody; [|by injection Hbody].
  destruct (normalize_outcome
              (dict_get (default ∅ (human_results !! pid)) var) var)
    as [[_ [vh Hvh]]|[_ Hvh]]; rewrite Hvh in Hbody; [done|].
  by injection Hbody.
Qed.

(** [compare_three_way] returns exactly when its three pairwise comparisons
    return, which are then the pairwise part of the analysis: the loop over
    the platforms of all three coders raises nothing more.  It raises no
    exception other than [OverflowError]. *)
Theorem compare_three_way_returns
    (claude_results chatgpt_results human_results : coder_results) :
  ((∃ a, compare_three_way claude_results chatgpt_results human_results =
         Returns a) ↔
   (∃ s1 s2 s3,
      compare_coders claude_results chatgpt_results "Claude" "ChatGPT" =
        Returns s1 ∧
      compare_coders claude_results human_results "Claude" "Human" =
        Returns s2 ∧
      compare_coders chatgpt_results human_results "ChatGPT" "Human" =
        Returns s3)) ∧
  (∀ a, compare_three_way claude_results chatgpt_results human_results =
        Returns a →
     compare_coders claude_results chatgpt_results "Claude" "ChatGPT" =
       Returns (claude_vs_chatgpt a) ∧
     compare_coders claude_results human_results "Claude" "Human" =
       Returns (claude_vs_human a) ∧
     compare_coders chatgpt_results human_results "ChatGPT" "Human" =
       Returns (chatgpt_vs_human a)) ∧
  (∀ e, compare_three_way claude_results chatgpt_results human_results =
        Raises e → e = OverflowError).
Proof.
  unfold compare_three_way. cbv zeta.
  destruct (compare_coders claude_results chatgpt_results "Claude" "ChatGPT")
    as [s1|e1] eqn:H1.
  2:{ cbn [mbind outcome_bind]. split_and!.
      - split; [by intros [? ?]|by intros (? & ? & ? & ? & _)].
      - done.
      - intros e [= <-].
        by apply (compare_coders_overflow claude_results chatgpt_results "Claude" "ChatGPT"). }
  destruct (compare_coders claude_results human_results "Claude" "Human")
    as [s2|e2] eqn:H2.
  2:{ cbn [mbind outcome_bind]. split_and!.
      - split; [by intros [? ?]|by intros (? & ? & ? & _ & ? & _)].
      - done.
      - intros e [= <-].
        by apply (compare_coders_overflow claude_results human_results "Claude" "Human"). }
  destruct (compare_coders chatgpt_results human_results "ChatGPT" "Human")
    as [s3|e3] eqn:H3.
  2:{ cbn [mbind outcome_bind]. split_and!.
      - split; [by intros [? ?]|by intros (? & ? & ? & _ & _ & ?)].
      - done.
      - intros e [= <-].
        by apply (compare_coders_overflow chatgpt_results human_results "ChatGPT" "Human"). }
  cbn [mbind outcome_bind].
  destruct (for_each_returns PRIMARY_VARIABLES []
              (λ three_way_vars var,
                 st ← three_way_values claude_results chatgpt_results
                        human_results
                        (common_all claude_results chatgpt_results
                                    human_results) var;
                 Returns (three_way_vars ++ [three_way_variable var st])))
    as [vars Hvars].
  { intros vars var Hvar.
    destruct (three_way_values_returns claude_results chatgpt_results
                human_results
                (common_all claude_results chatgpt_results human_results) var)
      as [st ->]; [|by eexists].
    intros pid (Hc & Hg & Hh)%elem_of_common_all.
    destruct (compare_coders_normalised _ _ _ _ _ pid var H1) as [Hvc Hvg];
      [by apply elem_of_common_platforms|done|].
    destruct (compare_coders_normalised _ _ _ _ _ pid var H3) as [_ Hvh];
      [by apply elem_of_common_platforms|done|].
    done. }
  rewrite Hvars. cbn [mbind outcome_bind]. split_and!.
  - split; [intros _; by exists s1, s2, s3|intros _; by eexists].
  - by intros a [= <-].
  - done.
Qed.

(** A loop that appends one result per element. *)
Lemma for_each_append {A B C} (f : A → outcome B) (g : A → B → C)
    (xs : list A) (acc res : list C) :
  for_each xs acc (λ acc x, y ← f x; Returns (acc ++ [g x y])) =
    Returns res →
  ∃ ys, Forall2 (λ x y, f x = Returns y) xs ys ∧
        res = acc ++ zip_with g xs ys.
Proof.
  revert acc. induction xs as [|x xs IH]; intros acc.
  - intros [= <-]. exists []. split; [constructor|by rewrite app_nil_r].
  - cbn [for_each]. destruct (f x) as [y|e] eqn:Hfx; [|done].
    cbn [mbind outcome_bind]. intros (ys & Hys & ->)%IH.
    exists (y :: ys). split; [by constructor|].
    by rewrite <-app_assoc.
Qed.

Lemma valid_triples_app (l1 l2 l3 k1 k2 k3 : list rating) :
  length l1 = length l2 → length l2 = length l3 →
  valid_triples (l1 ++ k1) (l2 ++ k2) (l3 ++ k3) =
  valid_triples l1 l2 l3 ++ valid_triples k1 k2 k3.
Proof.
  intros H12 H23. unfold valid_triples.
  rewrite !zip_with_app, omap_app; [done| |done].
  rewrite length_zip_with. lia.
Qed.

(** The three-way disagreements among valid triples. *)
Definition disagreeing3 (triples : list (Z * Z * Z)) : list (Z * Z * Z) :=
  filter (λ t : Z * Z * Z, ¬ (t.1.1 = t.1.2 ∧ t.1.2 = t.2)) triples.

(** What the loop of [three_way_values] has built after the platforms
    [ids]. *)
Definition collected3
    (ids : list string)
    (st : list rating * list rating * list rating *
          list three_way_disagreement) : Prop :=
  let '(cv, gv, hv, dis) := st in
  length cv = length ids ∧ length gv = length ids ∧
  length hv = length ids ∧
  (λ d, (t3_claude d, t3_chatgpt d, t3_human d)) <$> dis =
    disagreeing3 (valid_triples cv gv hv) ∧
  Forall (λ d, t3_platform_id d ∈ ids) dis.

Lemma three_way_values_spec
    (claude_results chatgpt_results human_results : coder_results)
    (ids : list string) (var : string)
    (st : list rating * list rating * list rating *
          list three_way_disagreement) :
  three_way_values claude_results chatgpt_results human_results ids var =
    Returns st →
  collected3 ids st.
Proof.
  unfold three_way_values.
  set (body := λ (st : list rating * list rating * list rating *
                      list three_way_disagreement) (pid : string), _).
  assert (Hgen : ∀ rest seen st0 st1,
            collected3 seen st0 →
            for_each rest st0 body = Returns st1 →
            collected3 (seen ++ rest) st1).
  { induction rest as [|pid rest IH]; intros seen st0 st1 Hseen.
    - intros [= <-]. by rewrite app_nil_r.
    - cbn [for_each]. destruct (body st0 pid) as [st'|e] eqn:Hbody; [|done].
      cbn [mbind outcome_bind]. intros Hrest.
      rewrite (cons_middle pid seen rest), app_assoc.
      apply (IH _ st' st1); [|done]. clear Hrest IH.
      destruct st0 as [[[cv gv] hv] dis].
      destruct Hseen as (Hc & Hg & Hh & Hdis & Hids).
      unfold body in Hbody. cbv beta iota zeta in Hbody.
      destruct (_normalize_value
                  (dict_get (default ∅ (claude_results !! pid)) var) var)
        as [vc|?] in Hbody; cbn [mbind outcome_bind] in Hbody; [|done].
      destruct (_normalize_value
                  (dict_get (default ∅ (chatgpt_results !! pid)) var) var)
        as [vg|?] in Hbody; cbn [mbind outcome_bind] in Hbody; [|done].
      destruct (_normalize_value
                  (dict_get (default ∅ (human_results !! pid)) var) var)
        as [vh|?] in Hbody; cbn [mbind outcome_bind] in Hbody; [|done].
      injection Hbody as <-.
      unfold collected3. rewrite !length_app. cbn [length].
      split; [lia|]. split; [lia|]. split; [lia|].
      unfold disagreeing3 in *.
      rewrite valid_triples_app, filter_app, <-Hdis by lia.
      assert (Hold : Forall (λ d, t3_platform_id d ∈ seen ++ [pid]) dis).
      { eapply Forall_impl; [exact Hids|]. intros d Hd.
        apply elem_of_app. by left. }
      destruct vc as [c|], vg as [g|], vh as [h|];
        cbn; rewrite ?app_nil_r; try done.
      destruct (decide (c = g ∧ g = h)) as [Heq|Hne].
      + rewrite decide_False by tauto. by rewrite app_nil_r.
      + rewrite decide_True by done. rewrite fmap_app. split; [done|].
        apply Forall_app. split; [done|]. apply Forall_singleton.
        cbn. apply elem_of_app. right. by left. }
  intros Hrun. apply (Hgen ids [] ([], [], [], []) st); [|done].
  unfold collected3, disagreeing3. by repeat split.
Qed.

(** The entries of the three-way summary are consistent: one per primary
    variable; the disagreements of a variable are valid triples whose three
    values are not all equal, on platforms of all three coders;
    [n_disagreements] is their number, at most [n], which is at most the
    number of platforms; and the three-way agreement is the share of the
    valid triples that are not disagreements. *)
Theorem compare_three_way_entries
    (claude_results chatgpt_results human_results : coder_results)
    (a : three_way_analysis) :
  compare_three_way claude_results chatgpt_results human_results =
    Returns a →
  let tw := three_way a in
  (∀ pid, pid ∈ ts_platform_ids tw ↔
          is_Some (claude_results !! pid) ∧
          is_Some (chatgpt_results !! pid) ∧
          is_Some (human_results !! pid)) ∧
  ts_n_platforms tw = length (ts_platform_ids tw) ∧
  tv_variable <$> ts_variables tw = PRIMARY_VARIABLES ∧
  ts_n_variables tw = length (ts_variables tw) ∧
  ∀ v, v ∈ ts_variables tw →
    (tv_n v ≤ ts_n_platforms tw)%nat ∧
    tv_n_disagreements v = length (tv_disagreements v) ∧
    (tv_n_disagreements v ≤ tv_n v)%nat ∧
    Forall (λ d, ¬ (t3_claude d = t3_chatgpt d ∧ t3_chatgpt d = t3_human d) ∧
                 t3_platform_id d ∈ ts_platform_ids tw)
           (tv_disagreements v) ∧
    tv_three_way_agreement v =
      (if decide (tv_n v = 0%nat) then None
       else Some (Fin (Qc_of_nat (tv_n v - tv_n_disagreements v) /
                       Qc_of_nat (tv_n v)))).
Proof.
  unfold compare_three_way. cbv zeta.
  destruct (compare_coders claude_results chatgpt_results _ _) as [s1|?];
    [|done].
  destruct (compare_coders claude_results human_results _ _) as [s2|?];
    [|done].
  destruct (compare_coders chatgpt_results human_results _ _) as [s3|?];
    [|done].
  cbn [mbind outcome_bind].
  set (ids := common_all claude_results chatgpt_results human_results).
  destruct (for_each PRIMARY_VARIABLES [] _) as [vars|?] eqn:Hvars; [|done].
  cbn [mbind outcome_bind]. intros Ha.
  apply (f_equal (λ o, match o with Returns x => x | Raises _ => a end))
    in Ha.
  cbv beta iota in Ha. subst a.
  cbn [three_way]. unfold three_way_summarise.
  cbn [ts_platform_ids ts_n_platforms ts_variables ts_n_variables].
  apply (for_each_append
           (three_way_values claude_results chatgpt_results human_results ids)
           three_way_variable) in Hvars as (sts & Hsts & ->).
  rewrite app_nil_l.
  split; [intros pid; apply elem_of_common_all|]. split; [done|].
  assert (Hnames : ∀ (vars : list string) sts,
            length vars = length sts →
            tv_variable <$> zip_with three_way_variable vars sts = vars).
  { induction vars as [|var vars IH]; intros [|st sts']; try done.
    intros [= Hlen]. cbn [zip_with fmap list_fmap].
    rewrite <-(IH sts' Hlen) at 2. f_equal. by destruct st as [[[??]?]?]. }
  split; [apply Hnames; by eapply Forall2_length|].
  split.
  { rewrite length_zip_with, <-(Forall2_length _ _ _ Hsts). lia. }
  intros v (i & Hi)%list_elem_of_lookup.
  apply lookup_zip_with_Some in Hi as (var & st & -> & Hvar & Hst).
  pose proof (Forall2_lookup_lr _ _ _ _ _ _ Hsts Hvar Hst) as Hrun.
  cbv beta in Hrun.
  apply three_way_values_spec in Hrun.
  destruct st as [[[cv gv] hv] dis].
  destruct Hrun as (Hc & Hg & Hh & Hdis & Hids).
  unfold three_way_variable. cbv zeta.
  cbn [tv_n tv_n_disagreements tv_disagreements tv_three_way_agreement].
  set (triples := valid_triples cv gv hv) in *.
  assert (Hlen : length dis = length (disagreeing3 triples))
    by (by rewrite <-Hdis, length_fmap).
  assert (Hsplit :
    (length (filter (λ t : Z * Z * Z, t.1.1 = t.1.2 ∧ t.1.2 = t.2) triples) +
     length dis)%nat = length triples).
  { rewrite Hlen. unfold disagreeing3. apply length_filter_split. }
  split_and!.
  - unfold triples, valid_triples. etrans; [apply length_omap_le|].
    rewrite !length_zip_with. lia.
  - done.
  - lia.
  - apply Forall_forall. intros d Hd. split.
    + assert ((t3_claude d, t3_chatgpt d, t3_human d) ∈ disagreeing3 triples)
        as Hin by (rewrite <-Hdis; apply list_elem_of_fmap; eauto).
      by apply list_elem_of_filter in Hin as [? _].
    + by eapply Forall_forall in Hids.
  - case_decide as Hpos; case_decide as Hzero; try lia; [|done].
    replace (length triples - length dis)%nat
      with (length (filter (λ t : Z * Z * Z, t.1.1 = t.1.2 ∧ t.1.2 = t.2)
                           triples)) by lia.
    done.
Qed.

(** The two multi-rater statistics have a value on the same matrices, and
    this value is a number. *)
Lemma fleiss_and_ac1_multi (k : nat) (ratings_matrix : list (list rating)) :
  (2 ≤ k)%nat →
  Forall (λ row, length row = k) ratings_matrix →
  (calculate_fleiss_kappa ratings_matrix = None ∧
   calculate_gwet_ac1_multi ratings_matrix = None) ∨
  (∃ x y, calculate_fleiss_kappa ratings_matrix = Some (Fin x) ∧
          calculate_gwet_ac1_multi ratings_matrix = Some (Fin y)).
Proof.
  intros Hk Hlen.
  rewrite (MultiFacts.calculate_fleiss_kappa_value k _ Hk Hlen).
  rewrite (MultiFacts.calculate_gwet_ac1_multi_value k _ Hk Hlen).
  cbv zeta. repeat case_decide; eauto.
Qed.

Lemma length_not_none_nan {A} (f g : A → option npfloat) (l : list A) :
  (∀ a, a ∈ l →
     (f a = None ∧ g a = None) ∨ (∃ x y, f a = Some (Fin x) ∧
                                         g a = Some (Fin y))) →
  length (not_none_nan (f <$> l)) = length (not_none_nan (g <$> l)).
Proof.
  unfold not_none_nan. induction l as [|a l IH]; intros Hfg; [done|].
  rewrite !fmap_cons. cbn [omap list_omap].
  assert (IH' : length (omap (λ o, x ← o; if np_isnan x then None else Some x)
                             (f <$> l)) =
                length (omap (λ o, x ← o; if np_isnan x then None else Some x)
                             (g <$> l)))
    by (apply IH; intros; apply Hfg; by right).
  destruct (Hfg a) as [[-> ->]|(x & y & -> & ->)]; [left|..]; simpl; lia.
Qed.

(** In the three-way summary Fleiss' Kappa and the multi-rater AC1 have a
    value for the same variables, so their two means are taken over the
    same variables; a value of either is a number, not NaN. *)
Theorem compare_three_way_fleiss_ac1
    (claude_results chatgpt_results human_results : coder_results)
    (a : three_way_analysis) :
  compare_three_way claude_results chatgpt_results human_results =
    Returns a →
  ts_n_fleiss_valid (three_way a) = ts_n_ac1_valid (three_way a) ∧
  ∀ v, v ∈ ts_variables (three_way a) →
    (tv_fleiss_kappa v = None ∧ tv_gwet_ac1 v = None) ∨
    (∃ x y, tv_fleiss_kappa v = Some (Fin x) ∧
            tv_gwet_ac1 v = Some (Fin y)).
Proof.
  unfold compare_three_way. cbv zeta.
  destruct (compare_coders claude_results chatgpt_results _ _) as [s1|?];
    [|done].
  destruct (compare_coders claude_results human_results _ _) as [s2|?];
    [|done].
  destruct (compare_coders chatgpt_results human_results _ _) as [s3|?];
    [|done].
  cbn [mbind outcome_bind].
  set (ids := common_all claude_results chatgpt_results human_results).
  destruct (for_each PRIMARY_VARIABLES [] _) as [vars|?] eqn:Hvars; [|done].
  cbn [mbind outcome_bind]. intros Ha.
  apply (f_equal (λ o, match o with Returns x => x | Raises _ => a end))
    in Ha.
  cbv beta iota in Ha. subst a.
  cbn [three_way]. unfold three_way_summarise.
  cbn [ts_n_fleiss_valid ts_n_ac1_valid ts_variables].
  apply (for_each_append
           (three_way_values claude_results chatgpt_results human_results ids)
           three_way_variable) in Hvars as (sts & _ & ->).
  rewrite app_nil_l.
  assert (Hboth : ∀ v, v ∈ zip_with three_way_variable PRIMARY_VARIABLES sts →
    (tv_fleiss_kappa v = None ∧ tv_gwet_ac1 v = None) ∨
    (∃ x y, tv_fleiss_kappa v = Some (Fin x) ∧
            tv_gwet_ac1 v = Some (Fin y))).
  { intros v (i & Hi)%list_elem_of_lookup.
    apply lookup_zip_with_Some in Hi as (var & st & -> & _ & _).
    destruct st as [[[cv gv] hv] dis].
    unfold three_way_variable. cbv zeta. cbn [tv_fleiss_kappa tv_gwet_ac1].
    destruct (_ || _); [|by left].
    apply (fleiss_and_ac1_multi 3); [lia|].
    apply Forall_fmap, Forall_forall. by intros t _. }
  split; [|done]. by apply length_not_none_nan.
Qed.

End three_way.

Definition example_claude : coder_results :=
  {[ "p1" := {[ "DEVP" := RInt 1; "METH" := RInt 3 ]};
     "p2" := {[ "DEVP" := RInt 1; "METH" := RInt 5 ]};
     "p3" := {[ "DEVP" := RInt 0; "METH" := RInt 5 ]} ]}.

Definition example_chatgpt : coder_results :=
  {[ "p1" := {[ "DEVP" := RInt 1; "METH" := RInt 3 ]};
     "p2" := {[ "DEVP" := RInt 0; "METH" := RInt 4 ]};
     "p3" := {[ "DEVP" := RInt 0; "METH" := RInt 6 ]} ]}.

Definition example_human : coder_results :=
  {[ "p1" := {[ "DEVP" := RInt 1; "METH" := RInt 3 ]};
     "p2" := {[ "DEVP" := RInt 1; "METH" := RStr "4" ]};
     "p3" := {[ "DEVP" := RInt 0 ]};
     "p4" := {[ "DEVP" := RInt 0 ]} ]}.

Lemma example_three_way_returns :
  ∃ a, compare_three_way (H := Reference.reference_externals)
         example_claude example_chatgpt example_human = Returns a.
Proof. vm_compute. by eexists. Qed.

Lemma compare_three_way_returns_witness :
  ∃ a, compare_three_way (H := Reference.reference_externals)
         example_claude example_chatgpt example_human = Returns a ∧
       compare_coders (H := Reference.reference_externals)
         example_claude example_human "Claude" "Human" =
         Returns (claude_vs_human a).
Proof.
  destruct example_three_way_returns as [a Ha]. exists a.
  destruct (compare_three_way_returns (H := Reference.reference_externals)
              example_claude example_chatgpt example_human)
    as (_ & Hpairs & _).
  destruct (Hpairs a Ha) as (_ & H2 & _).
  split; [exact Ha|exact H2].
Defined.

Lemma compare_three_way_entries_witness :
  ∃ a, compare_three_way (H := Reference.reference_externals)
         example_claude example_chatgpt example_human = Returns a ∧
       tv_variable <$> ts_variables (three_way a) = PRIMARY_VARIABLES ∧
       ts_n_platforms (three_way a) = length (ts_platform_ids (three_way a)).
Proof.
  destruct example_three_way_returns as [a Ha]. exists a.
  destruct (compare_three_way_entries (H := Reference.reference_externals)
              _ _ _ a Ha) as (_ & Hn & Hvars & _).
  split; [exact Ha|]. split; [exact Hvars|exact Hn].
Defined.

Lemma compare_three_way_fleiss_ac1_witness :
  ∃ a, compare_three_way (H := Reference.reference_externals)
         example_claude example_chatgpt example_human = Returns a ∧
       ts_n_fleiss_valid (three_way a) = ts_n_ac1_valid (three_way a).
Proof.
  destruct example_three_way_returns as [a Ha]. exists a.
  destruct (compare_three_way_fleiss_ac1
              (H := Reference.reference_externals) _ _ _ a Ha) as (Hn & _).
  split; [exact Ha|exact Hn].
Defined.

End ThreeWayFacts.

Module PerfectFacts.
Import Py IRRCalculator Spec Aux PairwiseFacts KrippendorffFacts FleissFacts.
Import QcOrder BoundsFacts AlphaFacts CountFacts MultiFacts.









Lemma sum_over_minus {A} (f g : A → Qc) (l : list A) :
  sum_over (λ a, g a - f a) l = sum_over g l - sum_over f l.
Proof.
  induction l as [|a l IH]; [by apply Qc_is_canon|].
  rewrite !sum_over_cons, IH. ring.
Qed.

(** Terms below their bounds add up to the sum of the bounds only when each
    term is its bound. *)
Lemma sum_over_eq_bound {A} (f g : A → Qc) (l : list A) :
  (∀ a, a ∈ l → f a ≤ g a) →
  sum_over f l = sum_over g l ↔ ∀ a, a ∈ l → f a = g a.
Proof.
  intros Hfg.
  pose proof (sum_over_0 (λ a, g a - f a) l) as H0.
  rewrite sum_over_minus in H0. split.
  - intros Hsum a Ha.
    assert (g a - f a = 0); [|qc_lra].
    apply H0; [|qc_lra|done].
    intros a' Ha'. specialize (Hfg a' Ha'). qc_lra.
  - intros Heq. by apply sum_over_ext.
Qed.

(** The squared counts of a row add up to the number of ordered pairs of
    equal ratings of the row. *)
Lemma sum_over_n_ij_weighted (categories : list Z) (w : Z → Qc)
    (row : list Z) :
  NoDup categories → (∀ v, v ∈ row → v ∈ categories) →
  sum_over (λ c, Qc_of_nat (n_ij row c) * w c) categories = sum_over w row.
Proof.
  intros Hnd. induction row as [|v row IH]; intros Hrow.
  - apply sum_over_zero. intros c _. unfold n_ij. simpl.
    rewrite (proj2 (Qc_of_nat_0 0%nat)) by done. ring.
  - assert (Hone : sum_over (λ c, if decide (v = c) then w c else 0)
                            categories = w v).
    { assert (Hv : v ∈ categories) by (apply Hrow; left).
      clear IH Hrow. induction Hnd as [|c cs Hc Hnd IHnd].
      - by apply elem_of_nil in Hv.
      - rewrite sum_over_cons. apply elem_of_cons in Hv as [->|Hv].
        + rewrite decide_True by done.
          rewrite sum_over_zero; [ring|].
          intros c' Hc'. rewrite decide_False; [done|]. by intros <-.
        + rewrite decide_False by (by intros <-).
          rewrite IHnd by done. ring. }
    rewrite <-(sum_over_ext
                 (λ c, (if decide (v = c) then w c else 0) +
                       Qc_of_nat (n_ij row c) * w c)).
    + rewrite sum_over_plus, Hone, IH by (intros; apply Hrow; by right).
      by rewrite sum_over_cons.
    + intros c _. unfold n_ij. rewrite filter_cons.
      case_decide; [|ring]. cbn [length]. rewrite Qc_of_nat_S. ring.
Qed.

(** All ratings of a row are equal. *)
Definition unanimous (row : list Z) : Prop :=
  ∀ x y, x ∈ row → y ∈ row → x = y.

(** The Fleiss agreement of a subject is 1 exactly when its ratings are all
    equal. *)
Lemma P_i_1 (k : nat) (categories : list Z) (row : list Z) :
  (2 ≤ k)%nat → length row = k → NoDup categories →
  (∀ v, v ∈ row → v ∈ categories) →
  P_i k categories row = 1 ↔ unanimous row.
Proof.
  intros Hk Hrow Hnd Hvals. unfold P_i.
  assert (Hpos : 0 < Qc_of_Z (Z.of_nat k * (Z.of_nat k - 1))).
  { rewrite <-Z2Qc_inj_0. apply (proj1 (Z2Qc_inj_lt _ _)). nia. }
  assert (Hden : Qc_of_Z (Z.of_nat k * (Z.of_nat k - 1)) =
                 Qc_of_nat k * Qc_of_nat k - Qc_of_nat k).
  { rewrite Z2Qc_inj_mul, Z2Qc_inj_sub, Z2Qc_inj_1. unfold Qc_of_nat. ring. }
  rewrite Qc_div_eq by by apply Qc_pos_ne_0.
  rewrite Hden, Qcmult_1_l. clear Hpos Hden.
  rewrite (sum_over_n_ij_weighted categories
             (λ c, Qc_of_nat (n_ij row c)) row Hnd Hvals).
  assert (Hsq : Qc_of_nat k * Qc_of_nat k =
                sum_over (λ _, Qc_of_nat k) row)
    by (by rewrite sum_over_const, Hrow).
  assert (Hle : ∀ v, v ∈ row → Qc_of_nat (n_ij row v) ≤ Qc_of_nat k).
  { intros v _. apply Qc_of_nat_le. rewrite <-Hrow. apply length_filter. }
  pose proof (sum_over_eq_bound (λ v, Qc_of_nat (n_ij row v))
                (λ _, Qc_of_nat k) row Hle) as Heq.
  rewrite <-Hsq in Heq.
  transitivity (sum_over (λ v, Qc_of_nat (n_ij row v)) row =
                Qc_of_nat k * Qc_of_nat k).
  { generalize (sum_over (λ v, Qc_of_nat (n_ij row v)) row).
    generalize (Qc_of_nat k * Qc_of_nat k). intros. split; intros; qc_lra. }
  rewrite Heq. unfold unanimous. split.
  - intros Hall x y Hx Hy. specialize (Hall y Hy).
    unfold Qc_of_nat in Hall. apply Z2Qc_inj, Nat2Z.inj in Hall.
    rewrite <-Hrow in Hall. apply length_filter_all in Hall.
    by eapply Forall_forall in Hall.
  - intros Hun v Hv. f_equal. rewrite <-Hrow. apply length_filter_all.
    apply Forall_forall. intros x Hx. by apply Hun.
Qed.

(** The mean observed agreement is 1 exactly when every subject is rated
    unanimously. *)
Lemma P_bar_rows_1 (k : nat) (rows : list (list Z)) :
  (2 ≤ k)%nat → Forall (λ row, length row = k) rows →
  (0 < length rows)%nat →
  P_bar_rows k rows (sorted_set (concat rows)) = 1 ↔ Forall unanimous rows.
Proof.
  intros Hk Hlen Hn. unfold P_bar_rows.
  destruct (categories_complete_rows rows) as (Hnd & _ & Hvals).
  rewrite Qc_div_eq by by apply Qc_pos_ne_0, Qc_of_nat_pos.
  rewrite <-(sum_over_const 1 rows).
  rewrite sum_over_eq_bound.
  - rewrite Forall_forall. apply forall_proper. intros row.
    apply forall_proper. intros Hrow.
    apply P_i_1; [done| |done|intros v Hv; by apply (Hvals row)].
    by eapply Forall_forall in Hlen.
  - intros row Hrow.
    apply P_i_bounds; [done| |done|intros v Hv; by apply (Hvals row)].
    by eapply Forall_forall in Hlen.
Qed.

Lemma Fin_eq (x y : Qc) : Fin x = Fin y ↔ x = y.
Proof. split; [intros Heq; by injection Heq|by intros ->]. Qed.

(** Both multi-rater statistics are 1 exactly when every subject rated by
    all raters is rated unanimously. *)
Theorem multi_rater_perfect_agreement (k : nat)
    (ratings_matrix : list (list rating)) :
  (2 ≤ k)%nat →
  Forall (λ row, length row = k) ratings_matrix →
  let valid_rows := omap all_present ratings_matrix in
  (∀ r, calculate_fleiss_kappa ratings_matrix = Some r →
        r = Fin 1 ↔ Forall unanimous valid_rows) ∧
  (∀ r, calculate_gwet_ac1_multi ratings_matrix = Some r →
        r = Fin 1 ↔ Forall unanimous valid_rows).
Proof.
  intros Hk Hlen. cbv zeta.
  change (omap all_present ratings_matrix)
    with (complete_rows ratings_matrix).
  rewrite (calculate_fleiss_kappa_value k ratings_matrix Hk Hlen).
  rewrite (calculate_gwet_ac1_multi_value k ratings_matrix Hk Hlen).
  cbv zeta.
  pose proof (length_complete_rows k ratings_matrix Hlen) as Hrows.
  set (rows := complete_rows ratings_matrix) in *.
  case_decide as Hn; [done|]. case_decide as Hq; [done|].
  assert (Hbar : P_bar_rows k rows (sorted_set (concat rows)) = 1 ↔
                 Forall unanimous rows)
    by (apply P_bar_rows_1; [done|done|lia]).
  assert (HPe : P_e_rows k rows (sorted_set (concat rows)) < 1)
    by (apply P_e_rows_lt_1; [lia|done|lia|lia]).
  destruct (pe_multi_bounds k rows) as [_ Hpe]; [lia|done|lia|lia|].
  assert (Hhalf : Q2Qc (1 # 2) + Q2Qc (1 # 2) = 1) by (by apply Qc_is_canon).
  split; intros r [= <-]; rewrite <-Hbar; clear Hbar.
  - transitivity ((P_bar_rows k rows (sorted_set (concat rows)) -
                   P_e_rows k rows (sorted_set (concat rows))) /
                  (1 - P_e_rows k rows (sorted_set (concat rows))) = 1);
      [apply Fin_eq|].
    rewrite Qc_div_eq by (apply Qc_pos_ne_0; qc_lra).
    split; intros; qc_lra.
  - transitivity ((P_bar_rows k rows (sorted_set (concat rows)) -
                   pe_multi k rows (sorted_set (concat rows))) /
                  (1 - pe_multi k rows (sorted_set (concat rows))) = 1);
      [apply Fin_eq|].
    rewrite Qc_div_eq by (apply Qc_pos_ne_0; qc_lra).
    split; intros; qc_lra.
Qed.


(** Three raters who agree on every subject. *)
Definition unanimous_example : list (list rating) :=
  [ [Some 1; Some 1; Some 1];
    [Some 0; Some 0; Some 0];
    [Some 1; None;   Some 0];
    [Some 1; Some 1; Some 1] ]%Z.

Lemma unanimous_example_rows :
  (2 ≤ 3)%nat ∧ Forall (λ row, length row = 3%nat) unanimous_example ∧
  Forall unanimous (omap all_present unanimous_example).
Proof.
  split; [lia|]. split; [by repeat constructor|].
  repeat constructor; intros x y Hx Hy;
    repeat (apply elem_of_cons in Hx as [->|Hx]);
    repeat (apply elem_of_cons in Hy as [->|Hy]);
    by (done || apply elem_of_nil in Hx || apply elem_of_nil in Hy).
Qed.

Lemma unanimous_example_returns :
  ∃ r, calculate_fleiss_kappa unanimous_example = Some r.
Proof. vm_compute. by eexists. Qed.

Lemma multi_rater_perfect_agreement_witness :
  ∃ r, calculate_fleiss_kappa unanimous_example = Some r ∧ r = Fin 1.
Proof.
  destruct unanimous_example_rows as (Hk & Hlen & Hun).
  destruct unanimous_example_returns as [r Hr]. exists r.
  split; [exact Hr|].
  exact (proj2 (proj1 (multi_rater_perfect_agreement 3 unanimous_example
                         Hk Hlen) r Hr) Hun).
Defined.

End PerfectFacts.
